(** * ViewList (packages/base/src/viewlist.ts)

    A shallow embedding of the [ViewList] class and of the fragment of the
    JavaScript promise machinery it relies on ([Promise.resolve],
    [Promise.all], [then] and the microtask queue), followed by the
    properties of the list reconciliation it implements.

    Modelling conventions.
    - Values of type [any] are [jsval]s; [truthy] is ToBoolean, [js_or] is
      the operator [||] and [strict_eq] is [===].
    - The creation and removal hooks are code of the embedder.  They are
      represented by two oracles that map the history of hook invocations
      and the arguments of a call to its outcome.  A hook may therefore be
      stateful, may throw, and a call of a value that is not a function is
      a call that throws; a hook does not call back into the list.
    - What the removal hook throws inside the [then] callback of [update]
      rejects the promise derived by that [then], which nobody observes.
    - A promise handed out by a creation hook is an external promise
      ([HExt]), settled by the embedder ([settle]); a promise made by
      [Promise.resolve] from a plain value is fulfilled from birth
      ([HNow]). *)

From stdpp Require Import base gmap list strings.
From Stdlib Require Import ZArith.

Open Scope Z_scope.
Open Scope nat_scope.

(** ** Values *)

Inductive jsval : Type :=
| JUndefined
| JNull
| JBool (b : bool)
| JNum (z : Z)
| JNaN
| JStr (s : string)
| JRef (r : nat).

#[global] Instance jsval_eq_dec : EqDecision jsval.
Proof. solve_decision. Defined.

Definition truthy (v : jsval) : bool :=
  match v with
  | JUndefined | JNull | JNaN => false
  | JBool b => b
  | JNum z => negb (Z.eqb z 0)
  | JStr s => negb (bool_decide (s = EmptyString))
  | JRef _ => true
  end.

(** [a || b] *)
Definition js_or (a b : jsval) : jsval := if truthy a then a else b.

(** [a === b] *)
Definition strict_eq (a b : jsval) : bool :=
  match a, b with
  | JNaN, _ | _, JNaN => false
  | _, _ => bool_decide (a = b)
  end.

(** What a failing call throws, or a failing promise is rejected with. *)
Inductive exn : Type :=
| Raised (e : jsval)
| TypeError.

#[global] Instance exn_eq_dec : EqDecision exn.
Proof. solve_decision. Defined.

Inductive completion (A : Type) : Type :=
| Returned (a : A)
| Threw (e : exn).
Arguments Returned {A} a.
Arguments Threw {A} e.

(** ** Promises *)

(** The elements of [views]. *)
Inductive handle : Type :=
| HNow (k : nat) (v : jsval)
| HExt (n : nat).

#[global] Instance handle_eq_dec : EqDecision handle.
Proof. solve_decision. Defined.

Inductive settlement : Type :=
| SFul (v : jsval)
| SRej (e : exn).

(** The removal hook in effect: a value supplied by the embedder, or the
    closure [function(view) { view.remove(); }] made by [initialize]. *)
Inductive remover : Type :=
| UserRemove (f : jsval)
| DefaultRemove.

(** What [then] was given on a promise for a view:
    - [OnRemove f ctx] is [function(view) { remove.call(context, view); }]
      of [update];
    - [OnAllElement a i] is the pair of functions [Promise.all] attaches
      to its [i]-th element on behalf of the aggregate [a]. *)
Inductive reaction : Type :=
| OnRemove (f : remover) (ctx : jsval)
| OnAllElement (a : nat) (i : nat).

Inductive pstate : Type :=
| Pending (rs : list reaction)
| Settled (s : settlement).

(** The promise returned by [Promise.all]. *)
Inductive astatus : Type :=
| APending
| AFulfilled (vs : list jsval)
| ARejected (e : exn).

#[global] Instance astatus_eq_dec : EqDecision astatus.
Proof. solve_decision. Defined.

Record aggregate : Type := {
  a_values : list (option jsval);
  a_status : astatus;
  (* the promises returned by [remove()] that wait for this aggregate *)
  a_then : list nat
}.

(** The promise returned by [remove()]. *)
Inductive dstatus : Type :=
| DPending
| DFulfilled
| DRejected (e : exn).

Inductive asettlement : Type :=
| AFul (vs : list jsval)
| ARej (e : exn).

(** Microtasks. *)
Inductive job : Type :=
| JReact (r : reaction) (s : settlement)
| JRemoveAll (d : nat) (s : asettlement).

(** ** Hook invocations

    [EvCreate f ctx m i h] is the call [f.call(ctx, m, i)], [h] being the
    promise [update] then pushes on [views] ([None] when the call throws);
    [EvRemove f ctx v] is the call of the removal hook [f] with receiver
    [ctx] on the view [v]; [EvViewRemove v] is the call [v.remove()] made
    by the body of the default removal hook. *)

Inductive event : Type :=
| EvCreate (f ctx m : jsval) (i : nat) (h : option handle)
| EvRemove (f : remover) (ctx v : jsval)
| EvViewRemove (v : jsval).

Inductive create_result : Type :=
| CReturn (v : jsval)
| CPromise (n : nat)
| CThrow (e : exn).

Inductive call_result : Type :=
| Normal
| Throws (e : exn).

(** ** The instance and the world around it *)

Record ViewList : Type := {
  self : nat;
  _handler_context : jsval;
  _models : option (list jsval);
  views : option (list handle);
  _create_view : jsval;
  _remove_view : remover
}.

Record world : Type := {
  vl : ViewList;
  ext : gmap nat pstate;
  alls : gmap nat aggregate;
  dones : gmap nat dstatus;
  next : nat;
  queue : list job;
  log : list event
}.

Definition with_vl (f : ViewList → ViewList) (w : world) : world :=
  {| vl := f (vl w); ext := ext w; alls := alls w; dones := dones w;
     next := next w; queue := queue w; log := log w |}.

Definition put_views (vs : option (list handle)) (l : ViewList) : ViewList :=
  {| self := self l; _handler_context := _handler_context l;
     _models := _models l; views := vs;
     _create_view := _create_view l; _remove_view := _remove_view l |}.

Definition put_models (ms : option (list jsval)) (l : ViewList) : ViewList :=
  {| self := self l; _handler_context := _handler_context l;
     _models := ms; views := views l;
     _create_view := _create_view l; _remove_view := _remove_view l |}.

Definition set_views (vs : option (list handle)) : world → world :=
  with_vl (put_views vs).

Definition set_models (ms : option (list jsval)) : world → world :=
  with_vl (put_models ms).

Definition set_ext (n : nat) (p : pstate) (w : world) : world :=
  {| vl := vl w; ext := <[n := p]> (ext w); alls := alls w; dones := dones w;
     next := next w; queue := queue w; log := log w |}.

Definition set_all (a : nat) (g : aggregate) (w : world) : world :=
  {| vl := vl w; ext := ext w; alls := <[a := g]> (alls w); dones := dones w;
     next := next w; queue := queue w; log := log w |}.

Definition set_done (d : nat) (s : dstatus) (w : world) : world :=
  {| vl := vl w; ext := ext w; alls := alls w; dones := <[d := s]> (dones w);
     next := next w; queue := queue w; log := log w |}.

Definition bump (w : world) : world :=
  {| vl := vl w; ext := ext w; alls := alls w; dones := dones w;
     next := S (next w); queue := queue w; log := log w |}.

Definition set_queue (q : list job) (w : world) : world :=
  {| vl := vl w; ext := ext w; alls := alls w; dones := dones w;
     next := next w; queue := q; log := log w |}.

Definition enqueue (js : list job) (w : world) : world :=
  set_queue (queue w ++ js) w.

Definition emit (e : event) (w : world) : world :=
  {| vl := vl w; ext := ext w; alls := alls w; dones := dones w;
     next := next w; queue := queue w; log := log w ++ [e] |}.

(** An external promise nobody has touched yet is pending. *)
Definition ext_state (w : world) (n : nat) : pstate :=
  default (Pending []) (ext w !! n).

Definition status (w : world) (h : handle) : option settlement :=
  match h with
  | HNow _ v => Some (SFul v)
  | HExt n => match ext_state w n with
              | Pending _ => None
              | Settled s => Some s
              end
  end.

(** [h.then(r)] *)
Definition subscribe (r : reaction) (w : world) (h : handle) : world :=
  match h with
  | HNow _ v => enqueue [JReact r (SFul v)] w
  | HExt n => match ext_state w n with
              | Pending rs => set_ext n (Pending (rs ++ [r])) w
              | Settled s => enqueue [JReact r s] w
              end
  end.

(** A batch of [then] calls, in order. *)
Fixpoint subscribe_each (ps : list (reaction * handle)) (w : world) : world :=
  match ps with
  | [] => w
  | (r, h) :: ps' => subscribe_each ps' (subscribe r w h)
  end.

Fixpoint subscribe_all (a i : nat) (hs : list handle) (w : world) : world :=
  match hs with
  | [] => w
  | h :: hs' => subscribe_all a (S i) hs' (subscribe (OnAllElement a i) w h)
  end.

(** [Promise.all(hs)] *)
Definition promise_all (hs : list handle) (w : world) : nat * world :=
  let a := next w in
  let st := match hs with [] => AFulfilled [] | _ => APending end in
  let g := {| a_values := replicate (length hs) None; a_status := st;
              a_then := [] |} in
  (a, subscribe_all a 0 hs (set_all a g (bump w))).

Arguments promise_all : simpl never.

(** [Promise.all(null)]: rejected from birth. *)
Definition promise_all_null (w : world) : nat * world :=
  let a := next w in
  let g := {| a_values := []; a_status := ARejected TypeError; a_then := [] |} in
  (a, set_all a g (bump w)).

(** [a.then(cb)] in [remove()], [d] being the promise [then] returns. *)
Definition then_remove_all (a d : nat) (w : world) : world :=
  match alls w !! a with
  | Some g =>
      match a_status g with
      | APending =>
          set_all a {| a_values := a_values g; a_status := APending;
                       a_then := a_then g ++ [d] |} w
      | AFulfilled vs => enqueue [JRemoveAll d (AFul vs)] w
      | ARejected e => enqueue [JRemoveAll d (ARej e)] w
      end
  | None => w
  end.

Definition astatus_of (s : asettlement) : astatus :=
  match s with AFul vs => AFulfilled vs | ARej e => ARejected e end.

(** Settling an aggregate: only a pending one changes. *)
Definition settle_all (a : nat) (s : asettlement) (w : world) : world :=
  match alls w !! a with
  | Some g =>
      match a_status g with
      | APending =>
          enqueue ((λ d, JRemoveAll d s) <$> a_then g)
            (set_all a {| a_values := a_values g; a_status := astatus_of s;
                          a_then := [] |} w)
      | _ => w
      end
  | None => w
  end.

(** The embedder settles one of its promises. *)
Definition settle (n : nat) (s : settlement) (w : world) : world :=
  match ext_state w n with
  | Pending rs => enqueue ((λ r, JReact r s) <$> rs) (set_ext n (Settled s) w)
  | Settled _ => w
  end.

(** ** The scan and the splice of [update] *)

(** The loop
    [for (; i < new_models.length; i++)
       if (i >= this._models.length || new_models[i] !== this._models[i]) break;],
    at most [fuel] more iterations from [i]. *)
Fixpoint scan (new_models models : list jsval) (i fuel : nat) : nat :=
  match fuel with
  | 0 => i
  | S fuel' =>
      match new_models !! i with
      | None => i
      | Some x =>
          match models !! i with
          | None => i
          | Some y => if strict_eq x y then scan new_models models (S i) fuel'
                      else i
          end
      end
  end.

(** [first_removed]; reading [this._models.length] of [null] throws. *)
Definition first_divergence (new_models : list jsval)
    (models : option (list jsval)) : completion nat :=
  match new_models, models with
  | [], _ => Returned 0
  | _ :: _, None => Threw TypeError
  | _ :: _, Some ms => Returned (scan new_models ms 0 (length new_models))
  end.

(** [l.splice(start, deleteCount)]: the removed elements and what is left. *)
Definition splice {A : Type} (l : list A) (start : nat) (deleteCount : Z)
    : list A * list A :=
  let s := start `min` length l in
  let d := Z.to_nat (Z.min (Z.max deleteCount 0) (Z.of_nat (length l - s))) in
  (take d (drop s l), take s l ++ drop (s + d) l).

(** [this.views.splice(first_removed, this.views.length - first_removed)] *)
Definition detach (vs : list handle) (first_removed : nat)
    : list handle * list handle :=
  splice vs first_removed (Z.of_nat (length vs) - Z.of_nat first_removed)%Z.

(** The longest common prefix of two sequences under [===], by recursion on
    the sequences. *)
Fixpoint common_prefix (new_models models : list jsval) : nat :=
  match new_models, models with
  | x :: new', y :: old' =>
      if strict_eq x y then S (common_prefix new' old') else 0
  | _, _ => 0
  end.

(** ** Construction and disposal *)

Definition initialize (this : nat) (create_view remove_view context : jsval)
    : ViewList :=
  {| self := this;
     _handler_context := js_or context (JRef this);
     _models := Some [];
     views := Some [];
     _create_view := create_view;
     _remove_view := if truthy remove_view then UserRemove remove_view
                     else DefaultRemove |}.

(** [new ViewList(create_view, remove_view, context)], the new object
    being [this], in a world where nothing else has happened yet. *)
Definition fresh (this : nat) (create_view remove_view context : jsval) : world :=
  {| vl := initialize this create_view remove_view context;
     ext := ∅; alls := ∅; dones := ∅; next := 0; queue := []; log := [] |}.

Definition dispose (w : world) : world :=
  set_models None (set_views None w).

(** The handles the creation calls among [evs] produced. *)
Definition created_handles (evs : list event) : list handle :=
  omap (λ e, match e with EvCreate _ _ _ _ h => h | _ => None end) evs.

(** [h] is [Promise.resolve] of what the creation hook returned. *)
Definition wraps (res : create_result) (h : handle) : Prop :=
  match res with
  | CReturn v => ∃ k, h = HNow k v
  | CPromise n => h = HExt n
  | CThrow _ => False
  end.

(** What can happen, one thing after the other: the embedder calls
    [update] or [remove()], settles one of its promises, or lets the
    oldest microtask run. *)
Inductive action : Type :=
| AUpdate (new_models : list jsval) (create_view remove_view context : jsval)
| ARemove
| ASettle (n : nat) (s : settlement)
| ATick.

(** ** Hooks to run examples with

    A creation hook that returns the promise [n] for the model [JRef n],
    throws on a string and returns any other model as it is; removal hooks
    that return, and one that throws the view it is given. *)
Definition sample_create
    : list event → jsval → jsval → jsval → nat → create_result :=
  λ _ _ _ m _,
    match m with
    | JRef n => CPromise n
    | JStr _ => CThrow (Raised m)
    | _ => CReturn m
    end.

Definition sample_remove : list event → jsval → jsval → jsval → call_result :=
  λ _ _ _ _, Normal.


Definition sample_view_remove : list event → jsval → call_result :=
  λ _ _, Normal.

(** A new list with the creation hook [JRef 100], the removal hook
    [JRef 200] and no context; the list is the object [0]. *)
Definition sample_list : world := fresh 0 (JRef 100) (JRef 200) JUndefined.

(** The two sequences agree under [===] at every index below [q]. *)
Definition agree_upto (new_models models : list jsval) (q : nat) : Prop :=
  ∀ j, j < q →
    ∃ x y, new_models !! j = Some x ∧ models !! j = Some y ∧ strict_eq x y = true.

(** The same sequence of references: equal lengths, and [===] at every
    index. *)
Definition same_refs (xs ys : list jsval) : Prop :=
  Forall2 (λ x y, strict_eq x y = true) xs ys.

(** Subscribing to promises changes the reaction lists and the microtask
    queue, and nothing else. *)
Definition only_promises (w w' : world) : Prop :=
  vl w' = vl w ∧ alls w' = alls w ∧ dones w' = dones w ∧
  next w' = next w ∧ log w' = log w.

(** What one call of the removal hook adds to the log. *)
Definition call_events (f : remover) (ctx v : jsval) : list event :=
  match f with
  | UserRemove _ => [EvRemove f ctx v]
  | DefaultRemove => [EvRemove f ctx v; EvViewRemove v]
  end.

(** What the microtask of a removal adds to the log: the call when the
    promise was fulfilled, nothing when it was rejected. *)
Definition removal_events (f : remover) (ctx : jsval) (s : settlement)
    : list event :=
  match s with
  | SFul v => call_events f ctx v
  | SRej _ => []
  end.

(** What the microtask [JReact (OnAllElement a i) s] makes of the
    aggregate [g]: the aggregate afterwards, and its settlement if this
    microtask settles it. *)
Definition react_all (g : aggregate) (i : nat) (s : settlement)
    : aggregate * option asettlement :=
  match s with
  | SFul v =>
      let vals := <[i := Some v]> (a_values g) in
      match mapM id vals, a_status g with
      | Some vs, APending =>
          ({| a_values := vals; a_status := AFulfilled vs; a_then := [] |},
           Some (AFul vs))
      | _, _ =>
          ({| a_values := vals; a_status := a_status g; a_then := a_then g |},
           None)
      end
  | SRej e =>
      match a_status g with
      | APending =>
          ({| a_values := a_values g; a_status := ARejected e; a_then := [] |},
           Some (ARej e))
      | _ => (g, None)
      end
  end.

(** The embedder settles promises and lets microtasks run, and calls
    nothing on the list. *)
Definition hands_off (acts : list action) : bool :=
  forallb (λ a, match a with ASettle _ _ | ATick => true | _ => false end) acts.

(** The number of microtasks the embedder lets run. *)
Fixpoint ticks_in (acts : list action) : nat :=
  match acts with
  | [] => 0
  | ATick :: acts' => S (ticks_in acts')
  | _ :: acts' => ticks_in acts'
  end.

(** No microtask and no reaction is on behalf of an aggregate that does not
    exist yet. *)
Definition reaction_tidy (b : nat) (r : reaction) : bool :=
  match r with OnAllElement a _ => a <? b | OnRemove _ _ => true end.

Definition job_tidy (b : nat) (j : job) : bool :=
  match j with JReact r _ => reaction_tidy b r | JRemoveAll _ _ => true end.

Definition pstate_tidy (b : nat) (p : pstate) : bool :=
  match p with Pending rs => forallb (reaction_tidy b) rs | Settled _ => true end.

Definition tidy (w : world) : bool :=
  forallb (job_tidy (next w)) (queue w)
  && forallb (λ x, pstate_tidy (next w) x.2) (map_to_list (ext w)).

(** The same, stated on what the world holds: every reaction and every
    microtask that is on behalf of an aggregate is on behalf of one made
    before the counter reached [b]. *)
Definition tidy_at (b : nat) (w : world) : Prop :=
  (∀ n rs a k, ext_state w n = Pending rs → OnAllElement a k ∈ rs → a < b) ∧
  (∀ a k s, JReact (OnAllElement a k) s ∈ queue w → a < b).

(** No removal is under way: the microtask queue is empty, no promise has
    a removal subscribed, and no [remove()] waits for an aggregate. *)
Definition reaction_calm (r : reaction) : bool :=
  match r with OnAllElement _ _ => true | OnRemove _ _ => false end.

Definition pstate_calm (p : pstate) : bool :=
  match p with Pending rs => forallb reaction_calm rs | Settled _ => true end.

Definition calm (w : world) : bool :=
  tidy w
  && match queue w with [] => true | _ => false end
  && forallb (λ x, pstate_calm x.2) (map_to_list (ext w))
  && forallb (λ x, match a_then x.2 with [] => true | _ => false end)
       (map_to_list (alls w)).

(** The aggregate [a] is the [Promise.all] of the handles [hs], at any
    later time.  A slot of the aggregate that is filled holds the value its
    handle was fulfilled with.  For a slot that is not, the handle is
    pending and has the reaction of the aggregate for that slot, or it is
    settled and the microtask for that reaction is in the queue, or it is
    rejected and so is the aggregate.  The aggregate is pending only while
    a slot is empty, is fulfilled with the values of its slots, and is
    rejected with what one of its handles was rejected with.  No other
    reaction or microtask is on behalf of the aggregate. *)
Definition slot_ok (a : nat) (w : world) (g : aggregate) (k : nat) (h : handle)
    : Prop :=
  match a_values g !! k with
  | Some (Some v) => status w h = Some (SFul v)
  | Some None =>
      (∃ n rs, h = HExt n ∧ ext_state w n = Pending rs ∧ OnAllElement a k ∈ rs) ∨
      (∃ s, status w h = Some s ∧ JReact (OnAllElement a k) s ∈ queue w) ∨
      (∃ e e', status w h = Some (SRej e) ∧ a_status g = ARejected e')
  | None => False
  end.

Definition settled_ok (hs : list handle) (w : world) (g : aggregate) : Prop :=
  match a_status g with
  | APending => ∃ k, a_values g !! k = Some None
  | AFulfilled vals => a_values g = Some <$> vals
  | ARejected e => ∃ h, h ∈ hs ∧ status w h = Some (SRej e)
  end.

Definition watching (a : nat) (hs : list handle) (w : world) : Prop :=
  (∃ g, alls w !! a = Some g ∧ length (a_values g) = length hs ∧
        (∀ k h, hs !! k = Some h → slot_ok a w g k h) ∧ settled_ok hs w g) ∧
  (∀ n rs k, ext_state w n = Pending rs → OnAllElement a k ∈ rs →
     hs !! k = Some (HExt n)) ∧
  (∀ k s, JReact (OnAllElement a k) s ∈ queue w →
     ∃ h, hs !! k = Some h ∧ status w h = Some s).

Definition is_creation (e : event) : Prop :=
  match e with EvCreate _ _ _ _ _ => True | _ => False end.

(** Reactions and microtasks of [Promise.all]. *)
Definition is_all_reaction (r : reaction) : Prop :=
  match r with OnAllElement _ _ => True | OnRemove _ _ => False end.

Definition is_all_job (j : job) : Prop :=
  match j with JReact r _ => is_all_reaction r | JRemoveAll _ _ => False end.



(** The call logged as [e] is a call of the removal hook [rm] with the
    context [ctx] on the view that a handle of [removed] is fulfilled
    with, or the call of [remove()] on that view by the default hook. *)
Definition removal_of (rm : remover) (ctx : jsval) (removed : list handle)
    (w : world) (e : event) : Prop :=
  match e with
  | EvRemove f c v =>
      f = rm ∧ c = ctx ∧ ∃ h, h ∈ removed ∧ status w h = Some (SFul v)
  | EvViewRemove v =>
      rm = DefaultRemove ∧ ∃ h, h ∈ removed ∧ status w h = Some (SFul v)
  | EvCreate _ _ _ _ _ => False
  end.

(** The removals [update] subscribed for the handles [removed], the world
    being [w1] when it returned, are the only removals under way: every
    removal that is subscribed or queued is one of them, and every call
    logged since is one of them, on the view of a handle that is fulfilled
    by now. *)
Definition detaching (w1 : world) (rm : remover) (ctx : jsval)
    (removed : list handle) (w : world) : Prop :=
  (∀ n rs r, ext_state w n = Pending rs → r ∈ rs →
     match r with
     | OnRemove f c => f = rm ∧ c = ctx ∧ HExt n ∈ removed
     | OnAllElement _ _ => True
     end) ∧
  (∀ j, j ∈ queue w →
     match j with
     | JReact (OnRemove f c) s =>
         f = rm ∧ c = ctx ∧ ∃ h, h ∈ removed ∧ status w h = Some s
     | JReact (OnAllElement _ _) _ => True
     | JRemoveAll _ _ => False
     end) ∧
  (∀ b g, alls w !! b = Some g → a_then g = []) ∧
  vl w = vl w1 ∧
  ∃ evs, log w = log w1 ++ evs ∧ Forall (removal_of rm ctx removed w) evs.

(** Nothing in the world is on behalf of the aggregate [a]. *)
Definition unheard (a : nat) (w : world) : Prop :=
  (∀ n rs k, ext_state w n = Pending rs → OnAllElement a k ∉ rs) ∧
  (∀ k s, JReact (OnAllElement a k) s ∉ queue w).

(** The invariant of the data model: as many views as models, the view at
    each index being the promise that a creation call logged in [lg] made
    for the model at that index. *)
Definition aligned (l : ViewList) (lg : list event) : Prop :=
  ∃ ms vs,
    _models l = Some ms ∧ views l = Some vs ∧ length ms = length vs ∧
    ∀ i m h, ms !! i = Some m → vs !! i = Some h →
      ∃ f ctx, EvCreate f ctx m i (Some h) ∈ lg.

(** [views] and [_models] are both arrays, or both [null]. *)
Definition whole (l : ViewList) : Prop :=
  (∃ ms vs, _models l = Some ms ∧ views l = Some vs) ∨
  (_models l = None ∧ views l = None).

(** The microtask queue [q] does not hold the callback of the [remove()]
    that returned the promise [d]; it holds it once, for the settlement
    [t] of the aggregate. *)
Definition no_callback (d : nat) (q : list job) : Prop :=
  ∀ t, JRemoveAll d t ∉ q.

Definition once_in (d : nat) (t : asettlement) (q : list job) : Prop :=
  ∃ q1 q2, q = q1 ++ JRemoveAll d t :: q2 ∧
           no_callback d q1 ∧ no_callback d q2.

(** Every promise of a [remove()] that an aggregate or a microtask names
    was made before the counter reached [b]. *)
Definition known_at (b : nat) (w : world) : Prop :=
  (∀ a g d, alls w !! a = Some g → d ∈ a_then g → d < b) ∧
  (∀ d t, JRemoveAll d t ∈ queue w → d < b).

Section Hooks.

(** [create.call(context, model, index)] after the given history. *)
Variable create_hook : list event → jsval → jsval → jsval → nat → create_result.
(** [remove.call(context, view)] for a hook of the embedder. *)
Variable remove_hook : list event → jsval → jsval → jsval → call_result.
(** [view.remove()] *)
Variable view_remove : list event → jsval → call_result.

(** ** The methods that call hooks *)

Definition push_view (h : handle) : world → world :=
  with_vl (λ l, put_views ((λ vs, vs ++ [h]) <$> views l) l).

(** [for (; i < new_models.length; i++)
       this.views.push(Promise.resolve(create.call(context, new_models[i], i)));]
    with [ms] the models from index [i] on. *)
Fixpoint create_from (create context : jsval) (i : nat) (ms : list jsval)
    (w : world) : world * option exn :=
  match ms with
  | [] => (w, None)
  | m :: ms' =>
      match create_hook (log w) create context m i with
      | CThrow e => (emit (EvCreate create context m i None) w, Some e)
      | CReturn v =>
          let h := HNow (next w) v in
          create_from create context (S i) ms'
            (push_view h (emit (EvCreate create context m i (Some h)) (bump w)))
      | CPromise n =>
          let h := HExt n in
          create_from create context (S i) ms'
            (push_view h (emit (EvCreate create context m i (Some h)) w))
      end
  end.

(** [remove_view || this._remove_view] *)
Definition remove_or (remove_view : jsval) (l : ViewList) : remover :=
  if truthy remove_view then UserRemove remove_view else _remove_view l.

Definition update (new_models : list jsval)
    (create_view remove_view context : jsval) (w : world)
    : world * completion nat :=
  let remove := remove_or remove_view (vl w) in
  let create := js_or create_view (_create_view (vl w)) in
  let context := js_or context (_handler_context (vl w)) in
  match first_divergence new_models (_models (vl w)) with
  | Threw e => (w, Threw e)
  | Returned first_removed =>
      match views (vl w) with
      | None => (w, Threw TypeError)
      | Some vs =>
          let '(removed, rest) := detach vs first_removed in
          let w1 := set_views (Some rest) w in
          let w2 := foldl (subscribe (OnRemove remove context)) w1 removed in
          match create_from create context first_removed
                  (drop first_removed new_models) w2 with
          | (w3, Some e) => (w3, Threw e)
          | (w3, None) =>
              let w4 := set_models (Some new_models) w3 in
              let '(a, w5) := promise_all (default [] (views (vl w4))) w4 in
              (w5, Returned a)
          end
      end
  end.

(** [remove.call(context, view)] *)
Definition call_remove (f : remover) (ctx v : jsval) (w : world)
    : world * call_result :=
  let w1 := emit (EvRemove f ctx v) w in
  match f with
  | UserRemove g => (w1, remove_hook (log w) g ctx v)
  | DefaultRemove => (emit (EvViewRemove v) w1, view_remove (log w1) v)
  end.

(** [views.forEach((value) => this._remove_view.call(this._handler_context, value))] *)
Fixpoint remove_each (f : remover) (ctx : jsval) (vs : list jsval) (w : world)
    : world * option exn :=
  match vs with
  | [] => (w, None)
  | v :: vs' =>
      match call_remove f ctx v w with
      | (w1, Normal) => remove_each f ctx vs' w1
      | (w1, Throws e) => (w1, Some e)
      end
  end.

(** The outcome of [remove.call(context, view)] after the history [hist]. *)
Definition call_outcome (f : remover) (ctx v : jsval) (hist : list event)
    : call_result :=
  match f with
  | UserRemove g => remove_hook hist g ctx v
  | DefaultRemove => view_remove (hist ++ [EvRemove f ctx v]) v
  end.

(** What the [forEach] of [remove()] adds to the log after the history
    [hist], and what it throws if a call throws. *)
Fixpoint removal_trace (f : remover) (ctx : jsval) (vals : list jsval)
    (hist : list event) : list event * option exn :=
  match vals with
  | [] => ([], None)
  | v :: vals' =>
      match call_outcome f ctx v hist with
      | Normal =>
          let '(evs, r) :=
            removal_trace f ctx vals' (hist ++ call_events f ctx v) in
          (call_events f ctx v ++ evs, r)
      | Throws e => (call_events f ctx v, Some e)
      end
  end.




Definition remove (w : world) : world * nat :=
  let '(a, w1) := match views (vl w) with
                  | Some vs => promise_all vs w
                  | None => promise_all_null w
                  end in
  let d := next w1 in
  (then_remove_all a d (set_done d DPending (bump w1)), d).

(** ** Microtasks *)

Definition run_job (j : job) (w : world) : world :=
  match j with
  | JReact (OnRemove f ctx) (SFul v) => fst (call_remove f ctx v w)
  | JReact (OnRemove _ _) (SRej _) => w
  | JReact (OnAllElement a i) (SFul v) =>
      match alls w !! a with
      | Some g =>
          let vals := <[i := Some v]> (a_values g) in
          let w1 := set_all a {| a_values := vals; a_status := a_status g;
                                 a_then := a_then g |} w in
          match mapM id vals with
          | Some vs => settle_all a (AFul vs) w1
          | None => w1
          end
      | None => w
      end
  | JReact (OnAllElement a _) (SRej e) => settle_all a (ARej e) w
  | JRemoveAll d (AFul vs) =>
      match remove_each (_remove_view (vl w)) (_handler_context (vl w)) vs w with
      | (w1, None) =>
          set_done d DFulfilled (set_models (Some []) (set_views (Some []) w1))
      | (w1, Some e) => set_done d (DRejected e) w1
      end
  | JRemoveAll d (ARej e) => set_done d (DRejected e) w
  end.

(** Run the oldest microtask. *)
Definition tick (w : world) : world :=
  match queue w with
  | [] => w
  | j :: q => run_job j (set_queue q w)
  end.

Fixpoint ticks (n : nat) (w : world) : world :=
  match n with
  | 0 => w
  | S n' => ticks n' (tick w)
  end.

(** ** Runs *)

Definition step (w : world) (a : action) : world :=
  match a with
  | AUpdate ms c r ctx => fst (update ms c r ctx w)
  | ARemove => fst (remove w)
  | ASettle n s => settle n s w
  | ATick => tick w
  end.

Definition run (w : world) (acts : list action) : world := foldl step w acts.

(** Every call of [update] in the run returns. *)
Fixpoint completes (w : world) (acts : list action) : bool :=
  match acts with
  | [] => true
  | a :: acts' =>
      match a with
      | AUpdate ms c r ctx =>
          match snd (update ms c r ctx w) with
          | Returned _ => true
          | Threw _ => false
          end
      | _ => true
      end && completes (step w a) acts'
  end.

(** The same with [dispose()] among the calls of the embedder. *)
Inductive call : Type :=
| Act (a : action)
| ADispose.

Definition step_call (w : world) (c : call) : world :=
  match c with
  | Act a => step w a
  | ADispose => dispose w
  end.

Definition run_calls (w : world) (cs : list call) : world :=
  foldl step_call w cs.

(** ** [remove()] among whatever else is under way *)

(** The callback of the [remove()] that returned [d] has run, on the
    views [vals]: it has emptied the list and fulfilled [d], or a call of
    the removal hook [f] threw and [d] is rejected with what it threw. *)
Definition settled_by (f : remover) (ctx : jsval) (d : nat)
    (vals : list jsval) (w : world) : Prop :=
  (dones w !! d = Some DFulfilled ∧
   views (vl w) = Some [] ∧ _models (vl w) = Some []) ∨
  (∃ e hist, (removal_trace f ctx vals hist).2 = Some e ∧
             dones w !! d = Some (DRejected e)).

(** The progress of that [remove()], [a] being its aggregate and [f] and
    [ctx] the removal hook and the context stored in the list: while the
    aggregate is pending the callback waits for it and [d] is pending;
    once the aggregate is settled the callback is in the queue, once,
    with the settlement of the aggregate, or it has run.  Other calls of
    [remove()] and the removals of [update] may be under way. *)
Definition awaiting (f : remover) (ctx : jsval) (a d : nat) (w : world)
    : Prop :=
  _remove_view (vl w) = f ∧ _handler_context (vl w) = ctx ∧
  (∀ b g, b ≠ a → alls w !! b = Some g → d ∉ a_then g) ∧
  ∃ g, alls w !! a = Some g ∧
    match a_status g with
    | APending =>
        a_then g = [d] ∧ dones w !! d = Some DPending ∧
        no_callback d (queue w)
    | AFulfilled vals =>
        a_then g = [] ∧
        ((dones w !! d = Some DPending ∧ once_in d (AFul vals) (queue w)) ∨
         (settled_by f ctx d vals w ∧ no_callback d (queue w)))
    | ARejected e =>
        a_then g = [] ∧
        ((dones w !! d = Some DPending ∧ once_in d (ARej e) (queue w)) ∨
         (dones w !! d = Some (DRejected e) ∧ no_callback d (queue w)))
    end.

(** * Properties *)

(** ** The scan *)

Lemma strict_eq_eq x y : strict_eq x y = true → x = y.
Proof.
  destruct x, y; unfold strict_eq; try discriminate; intros H;
    by apply bool_decide_eq_true in H.
Qed.

Lemma scan_common_prefix new_models models fuel i :
  length new_models ≤ i + fuel →
  scan new_models models i fuel
  = i + common_prefix (drop i new_models) (drop i models).
Proof.
  revert i. induction fuel as [|fuel IH]; intros i Hlen; simpl.
  - rewrite drop_ge by lia. simpl. lia.
  - destruct (new_models !! i) as [x|] eqn:Hx.
    + rewrite (drop_S _ _ _ Hx).
      destruct (models !! i) as [y|] eqn:Hy.
      * rewrite (drop_S _ _ _ Hy). simpl.
        destruct (strict_eq x y); [|lia].
        rewrite IH by lia. lia.
      * rewrite (drop_ge models) by (by apply lookup_ge_None). simpl. lia.
    + rewrite (drop_ge new_models) by (by apply lookup_ge_None). simpl. lia.
Qed.

Lemma first_divergence_common_prefix new_models models :
  first_divergence new_models (Some models)
  = Returned (common_prefix new_models models).
Proof.
  destruct new_models as [|x new']; [done|].
  unfold first_divergence.
  rewrite scan_common_prefix by (simpl; lia). by rewrite !drop_0.
Qed.

Lemma common_prefix_agree new_models models :
  agree_upto new_models models (common_prefix new_models models).
Proof.
  revert models. induction new_models as [|x new' IH]; intros [|y old'];
    simpl; try (intros j Hj; lia).
  destruct (strict_eq x y) eqn:Hxy; [|intros j Hj; lia].
  intros [|j] Hj.
  - by exists x, y.
  - apply (IH old' j). lia.
Qed.

Lemma common_prefix_max new_models models q :
  agree_upto new_models models q → q ≤ common_prefix new_models models.
Proof.
  revert models q. induction new_models as [|x new' IH]; intros models q Hq.
  - destruct q; [simpl; lia|]. destruct (Hq 0) as (?&?&?&?&?); [lia|done].
  - destruct q as [|q]; [lia|].
    destruct (Hq 0) as (x0&y0&Hx0&Hy0&Heq); [lia|].
    destruct models as [|y old']; [done|]. simpl in *.
    injection Hx0 as <-. injection Hy0 as <-. rewrite Heq.
    apply le_n_S, IH. intros j Hj. apply (Hq (S j)). lia.
Qed.

Lemma common_prefix_le_new new_models models :
  common_prefix new_models models ≤ length new_models.
Proof.
  revert models. induction new_models as [|x new' IH]; intros [|y old'];
    simpl; try lia.
  destruct (strict_eq x y); [|lia]. specialize (IH old'). lia.
Qed.

Lemma common_prefix_le_old new_models models :
  common_prefix new_models models ≤ length models.
Proof.
  revert models. induction new_models as [|x new' IH]; intros [|y old'];
    simpl; try lia.
  destruct (strict_eq x y); [|lia]. specialize (IH old'). lia.
Qed.

Lemma common_prefix_take new_models models :
  take (common_prefix new_models models) new_models
  = take (common_prefix new_models models) models.
Proof.
  revert models. induction new_models as [|x new' IH]; intros [|y old'];
    simpl; try done.
  destruct (strict_eq x y) eqn:Hxy; [|done].
  simpl. by rewrite (strict_eq_eq _ _ Hxy), IH.
Qed.

(** ** The splice *)

Lemma detach_drop_take vs p : detach vs p = (drop p vs, take p vs).
Proof.
  unfold detach, splice.
  destruct (decide (p ≤ length vs)) as [Hp|Hp].
  - rewrite Nat.min_l by done.
    match goal with
    | |- context [Z.to_nat ?z] => replace (Z.to_nat z) with (length vs - p) by lia
    end.
    rewrite (take_ge (drop p vs)) by (rewrite length_drop; lia).
    rewrite (drop_ge vs (p + _)) by lia. by rewrite app_nil_r.
  - rewrite Nat.min_r by lia.
    match goal with
    | |- context [Z.to_nat ?z] => replace (Z.to_nat z) with 0 by lia
    end.
    rewrite (drop_ge vs p), (drop_ge vs (length vs + 0)) by lia.
    rewrite (take_ge vs p), (take_ge vs (length vs)) by lia.
    by rewrite app_nil_r.
Qed.

(** ** What the pieces of [update] touch *)

Lemma only_promises_refl w : only_promises w w.
Proof. by repeat split. Qed.

Lemma only_promises_trans w1 w2 w3 :
  only_promises w1 w2 → only_promises w2 w3 → only_promises w1 w3.
Proof.
  intros (?&?&?&?&?) (?&?&?&?&?). repeat split; congruence.
Qed.

Lemma subscribe_only_promises r w h : only_promises w (subscribe r w h).
Proof.
  destruct h as [k v|n]; simpl; [by repeat split|].
  destruct (ext_state w n); by repeat split.
Qed.

Lemma foldl_subscribe_only_promises r hs w :
  only_promises w (foldl (subscribe r) w hs).
Proof.
  revert w. induction hs as [|h hs IH]; intros w; simpl.
  - apply only_promises_refl.
  - eapply only_promises_trans; [apply subscribe_only_promises|apply IH].
Qed.

Lemma subscribe_all_only_promises a i hs w :
  only_promises w (subscribe_all a i hs w).
Proof.
  revert i w. induction hs as [|h hs IH]; intros i w; simpl.
  - apply only_promises_refl.
  - eapply only_promises_trans; [apply subscribe_only_promises|apply IH].
Qed.

Lemma ext_state_enqueue js w n : ext_state (enqueue js w) n = ext_state w n.
Proof. done. Qed.

Lemma ext_state_set_ext n p w n' :
  ext_state (set_ext n p w) n' = if decide (n = n') then p else ext_state w n'.
Proof.
  unfold ext_state; simpl. case_decide as E.
  - subst. by rewrite lookup_insert_eq.
  - by rewrite lookup_insert_ne.
Qed.

(** Subscribing settles nothing. *)
Lemma subscribe_ext_state r w h n :
  ext_state (subscribe r w h) n
  = match ext_state w n with
    | Pending rs => Pending (rs ++ if decide (h = HExt n) then [r] else [])
    | Settled s => Settled s
    end.
Proof.
  destruct h as [k v|n']; simpl.
  - rewrite ext_state_enqueue.
    destruct (ext_state w n); [|done]. by rewrite app_nil_r.
  - destruct (decide (n' = n)) as [->|Hne].
    + rewrite decide_True by done.
      destruct (ext_state w n) as [rs|s] eqn:E.
      * rewrite ext_state_set_ext. by rewrite decide_True.
      * by rewrite ext_state_enqueue, E.
    + rewrite decide_False by congruence.
      assert (ext_state (subscribe r w (HExt n')) n = ext_state w n) as E.
      { simpl. destruct (ext_state w n'); [|done].
        rewrite ext_state_set_ext. by rewrite decide_False. }
      simpl in E. rewrite E.
      destruct (ext_state w n); [|done]. by rewrite app_nil_r.
Qed.

Lemma subscribe_status r w h h' : status (subscribe r w h) h' = status w h'.
Proof.
  destruct h' as [k v|n]; [done|]. simpl.
  rewrite subscribe_ext_state. by destruct (ext_state w n).
Qed.

Lemma subscribe_queue r w h :
  queue (subscribe r w h)
  = queue w ++ match status w h with Some s => [JReact r s] | None => [] end.
Proof.
  destruct h as [k v|n]; simpl; [done|].
  destruct (ext_state w n); simpl; [|done]. by rewrite app_nil_r.
Qed.

Lemma promise_all_fields hs w :
  vl (snd (promise_all hs w)) = vl w ∧
  dones (snd (promise_all hs w)) = dones w ∧
  log (snd (promise_all hs w)) = log w.
Proof.
  unfold promise_all, snd.
  destruct (subscribe_all_only_promises (next w) 0 hs
    (set_all (next w)
       {| a_values := replicate (length hs) None;
          a_status := match hs with [] => AFulfilled [] | _ :: _ => APending end;
          a_then := [] |} (bump w))) as (?&?&?&?&?).
  by repeat split.
Qed.

(** ** The creation loop *)

Lemma create_from_spec create context ms : ∀ i w w' r,
  create_from create context i ms w = (w', r) →
  ∃ evs,
    log w' = log w ++ evs ∧
    views (vl w') = (λ vs, vs ++ created_handles evs) <$> views (vl w) ∧
    _models (vl w') = _models (vl w) ∧
    self (vl w') = self (vl w) ∧
    _handler_context (vl w') = _handler_context (vl w) ∧
    _create_view (vl w') = _create_view (vl w) ∧
    _remove_view (vl w') = _remove_view (vl w) ∧
    ext w' = ext w ∧ alls w' = alls w ∧ dones w' = dones w ∧
    queue w' = queue w ∧ next w ≤ next w' ∧
    match r with
    | None =>
        length evs = length ms ∧
        ∀ k m, ms !! k = Some m →
          ∃ h, evs !! k = Some (EvCreate create context m (i + k) (Some h)) ∧
               created_handles evs !! k = Some h ∧
               wraps (create_hook (log w ++ take k evs) create context m (i + k)) h
    | Some e =>
        ∃ k m, ms !! k = Some m ∧ length evs = S k ∧
          evs !! k = Some (EvCreate create context m (i + k) None) ∧
          create_hook (log w ++ take k evs) create context m (i + k) = CThrow e ∧
          length (created_handles evs) = k
    end.
Proof.
  induction ms as [|m ms IH]; intros i w w' r Hrun; simpl in Hrun.
  - injection Hrun as <- <-. exists []. rewrite app_nil_r.
    repeat split; try done.
    by destruct (views (vl w)); simpl; rewrite ?app_nil_r.
  - destruct (create_hook (log w) create context m i) as [v|n|e] eqn:Hcall.
    + apply IH in Hrun
        as (evs&Hlog&Hviews&Hmodels&?&?&?&?&?&?&?&?&Hnext&Hr).
      simpl in *.
      exists (EvCreate create context m i (Some (HNow (next w) v)) :: evs).
      rewrite Hlog, Hviews, Hmodels, <- app_assoc.
      repeat split; try done; try lia.
      { destruct (views (vl w)); simpl; [|done]. by rewrite <- app_assoc. }
      destruct r as [e|].
      * destruct Hr as (k&m'&Hk&Hlen&Hev&Hthrow&Hcr).
        exists (S k), m'. simpl. rewrite <- app_assoc in Hthrow. simpl in Hthrow.
        replace (i + S k) with (S i + k) by lia.
        repeat split; try done. by rewrite Hlen. by rewrite Hcr.
      * destruct Hr as [Hlen Hr]. split; [simpl; by rewrite Hlen|].
        intros [|k] m' Hk; simpl in *.
        -- injection Hk as <-. exists (HNow (next w) v).
           rewrite Nat.add_0_r, app_nil_r, Hcall. repeat split; try done.
           by eexists.
        -- destruct (Hr k m' Hk) as (h&Hev&Hcr&Hw). exists h.
           rewrite <- app_assoc in Hw. simpl in Hw.
           replace (i + S k) with (S i + k) by lia. by repeat split.
    + apply IH in Hrun
        as (evs&Hlog&Hviews&Hmodels&?&?&?&?&?&?&?&?&Hnext&Hr).
      simpl in *.
      exists (EvCreate create context m i (Some (HExt n)) :: evs).
      rewrite Hlog, Hviews, Hmodels, <- app_assoc.
      repeat split; try done; try lia.
      { destruct (views (vl w)); simpl; [|done]. by rewrite <- app_assoc. }
      destruct r as [e|].
      * destruct Hr as (k&m'&Hk&Hlen&Hev&Hthrow&Hcr).
        exists (S k), m'. simpl. rewrite <- app_assoc in Hthrow. simpl in Hthrow.
        replace (i + S k) with (S i + k) by lia.
        repeat split; try done. by rewrite Hlen. by rewrite Hcr.
      * destruct Hr as [Hlen Hr]. split; [simpl; by rewrite Hlen|].
        intros [|k] m' Hk; simpl in *.
        -- injection Hk as <-. exists (HExt n).
           rewrite Nat.add_0_r, app_nil_r, Hcall. by repeat split.
        -- destruct (Hr k m' Hk) as (h&Hev&Hcr&Hw). exists h.
           rewrite <- app_assoc in Hw. simpl in Hw.
           replace (i + S k) with (S i + k) by lia. by repeat split.
    + injection Hrun as <- <-. simpl.
      exists [EvCreate create context m i None].
      repeat split; try done.
      { destruct (views (vl w)); simpl; [|done]. by rewrite app_nil_r. }
      exists 0, m. rewrite Nat.add_0_r, app_nil_r. by repeat split.
Qed.

(** ** [update] on a list that has not been disposed of *)

Lemma update_unfold_at new_models create_view remove_view context w p vs :
  first_divergence new_models (_models (vl w)) = Returned p →
  views (vl w) = Some vs →
  update new_models create_view remove_view context w
  = let remove := remove_or remove_view (vl w) in
    let create := js_or create_view (_create_view (vl w)) in
    let ctx := js_or context (_handler_context (vl w)) in
    let w2 := foldl (subscribe (OnRemove remove ctx))
                (set_views (Some (take p vs)) w) (drop p vs) in
    match create_from create ctx p (drop p new_models) w2 with
    | (w3, Some e) => (w3, Threw e)
    | (w3, None) =>
        let w4 := set_models (Some new_models) w3 in
        let '(a, w5) := promise_all (default [] (views (vl w4))) w4 in
        (w5, Returned a)
    end.
Proof.
  intros Hp Hvs. unfold update. by rewrite Hp, Hvs, detach_drop_take.
Qed.

Lemma update_unfold new_models create_view remove_view context w ms vs :
  _models (vl w) = Some ms → views (vl w) = Some vs →
  update new_models create_view remove_view context w
  = let p := common_prefix new_models ms in
    let remove := remove_or remove_view (vl w) in
    let create := js_or create_view (_create_view (vl w)) in
    let ctx := js_or context (_handler_context (vl w)) in
    let w2 := foldl (subscribe (OnRemove remove ctx))
                (set_views (Some (take p vs)) w) (drop p vs) in
    match create_from create ctx p (drop p new_models) w2 with
    | (w3, Some e) => (w3, Threw e)
    | (w3, None) =>
        let w4 := set_models (Some new_models) w3 in
        let '(a, w5) := promise_all (default [] (views (vl w4))) w4 in
        (w5, Returned a)
    end.
Proof.
  intros Hms Hvs. apply update_unfold_at; [|done].
  by rewrite Hms, first_divergence_common_prefix.
Qed.

(** The log and the fields of the instance after [update]. *)
Lemma update_fields_at new_models create_view remove_view context w p vs :
  first_divergence new_models (_models (vl w)) = Returned p →
  views (vl w) = Some vs →
  let w' := fst (update new_models create_view remove_view context w) in
  ∃ evs,
    log w' = log w ++ evs ∧
    views (vl w') = Some (take p vs ++ created_handles evs) ∧
    self (vl w') = self (vl w) ∧
    _handler_context (vl w') = _handler_context (vl w) ∧
    _create_view (vl w') = _create_view (vl w) ∧
    _remove_view (vl w') = _remove_view (vl w) ∧
    dones w' = dones w.
Proof.
  intros Hp Hvs w'. subst w'.
  rewrite (update_unfold_at _ _ _ _ _ _ _ Hp Hvs). cbv zeta.
  set (w2 := foldl _ _ _).
  destruct (foldl_subscribe_only_promises
    (OnRemove (remove_or remove_view (vl w))
       (js_or context (_handler_context (vl w))))
    (drop p vs) (set_views (Some (take p vs)) w)) as (Hvl&_&Hd&_&Hlog).
  fold w2 in Hvl, Hd, Hlog. simpl in Hvl, Hd, Hlog.
  destruct (create_from _ _ _ _ w2) as [w3 r] eqn:Hcr.
  apply create_from_spec in Hcr
    as (evs&Hlog3&Hviews3&Hmodels3&Hs3&Hc3&Hcv3&Hrv3&_&_&Hd3&_&_&_).
  rewrite Hvl in Hviews3, Hmodels3, Hs3, Hc3, Hcv3, Hrv3.
  simpl in Hviews3, Hmodels3, Hs3, Hc3, Hcv3, Hrv3.
  rewrite Hlog in Hlog3. rewrite Hd in Hd3.
  exists evs. destruct r as [e|].
  - by repeat split.
  - cbv zeta.
    pose proof (promise_all_fields
      (default [] (views (vl (set_models (Some new_models) w3))))
      (set_models (Some new_models) w3)) as (Hvl5&Hd5&Hlog5).
    destruct (promise_all _ _) as [a w5]. unfold fst, snd in *.
    rewrite Hvl5, Hd5, Hlog5. simpl. by repeat split.
Qed.

(** [update] on a list that has been disposed of throws before it does
    anything. *)
Lemma update_threw_early new_models create_view remove_view context w :
  (∃ e, first_divergence new_models (_models (vl w)) = Threw e) ∨
  views (vl w) = None →
  fst (update new_models create_view remove_view context w) = w.
Proof.
  unfold update. intros [[e ->]| ->]; [done|].
  by destruct (first_divergence _ _).
Qed.

(** ** Longest common prefix and the views that stay *)

(** C1. On a list with models [ms] and views [vs], the first divergence
    point [update] computes is the length [p] of the longest common prefix
    of [new_models] and [ms] under [===]: the sequences agree below [p],
    and below no larger bound.  The splice detaches exactly the handles
    from index [p] on, in their order, and leaves the first [p]; after the
    call [views] is those first [p] handles followed by the handles the
    call created, so every handle below [p] is the object it was. *)
Theorem update_divergence_and_prefix
    new_models create_view remove_view context w ms vs :
  _models (vl w) = Some ms → views (vl w) = Some vs →
  let p := common_prefix new_models ms in
  let w' := fst (update new_models create_view remove_view context w) in
  first_divergence new_models (_models (vl w)) = Returned p ∧
  agree_upto new_models ms p ∧
  (∀ q, agree_upto new_models ms q → q ≤ p) ∧
  detach vs p = (drop p vs, take p vs) ∧
  (∃ evs, log w' = log w ++ evs ∧
          views (vl w') = Some (take p vs ++ created_handles evs)) ∧
  (∀ j h, j < p → vs !! j = Some h →
     ∃ vs', views (vl w') = Some vs' ∧ vs' !! j = Some h).
Proof.
  intros Hms Hvs p w'.
  assert (first_divergence new_models (_models (vl w)) = Returned p) as Hp
    by (by rewrite Hms, first_divergence_common_prefix).
  destruct (update_fields_at new_models create_view remove_view context
              w p vs Hp Hvs) as (evs&Hlog&Hviews&_).
  fold w' in Hlog, Hviews.
  split; [done|]. split; [apply common_prefix_agree|].
  split; [apply common_prefix_max|]. split; [apply detach_drop_take|].
  split; [by exists evs|].
  intros j h Hj Hh. eexists. split; [done|].
  rewrite lookup_app_l by (rewrite length_take; apply lookup_lt_Some in Hh; lia).
  by rewrite lookup_take_lt.
Qed.

(** ** Disposal *)

(** C8. [dispose] sets [views] and [_models] to [null] and touches nothing
    else: no hook is called (the log is as it was), nothing is scheduled or
    subscribed to (the microtask queue and every promise are as they
    were), and the hooks and the context stored in the instance stay. *)
Theorem dispose_only_drops_references w :
  views (vl (dispose w)) = None ∧
  _models (vl (dispose w)) = None ∧
  log (dispose w) = log w ∧
  queue (dispose w) = queue w ∧
  ext (dispose w) = ext w ∧
  alls (dispose w) = alls w ∧
  dones (dispose w) = dones w ∧
  next (dispose w) = next w ∧
  self (vl (dispose w)) = self (vl w) ∧
  _handler_context (vl (dispose w)) = _handler_context (vl w) ∧
  _create_view (vl (dispose w)) = _create_view (vl w) ∧
  _remove_view (vl (dispose w)) = _remove_view (vl w).
Proof. by repeat split. Qed.

(** ** Defaults *)

Lemma update_keeps_defaults new_models create_view remove_view context w :
  let l' := vl (fst (update new_models create_view remove_view context w)) in
  self l' = self (vl w) ∧
  _handler_context l' = _handler_context (vl w) ∧
  _create_view l' = _create_view (vl w) ∧
  _remove_view l' = _remove_view (vl w).
Proof.
  intros l'. subst l'.
  destruct (first_divergence new_models (_models (vl w))) as [p|e] eqn:Hp.
  - destruct (views (vl w)) as [vs|] eqn:Hvs.
    + destruct (update_fields_at new_models create_view remove_view context
                  w p vs Hp Hvs) as (evs&_&_&?&?&?&?&_).
      by repeat split.
    + rewrite update_threw_early by (by right). by repeat split.
  - rewrite update_threw_early by (left; by exists e). by repeat split.
Qed.

(** ** Subscribing to a list of promises *)

Lemma subscribe_each_only_promises ps w :
  only_promises w (subscribe_each ps w).
Proof.
  revert w. induction ps as [|[r h] ps IH]; intros w; simpl.
  - apply only_promises_refl.
  - eapply only_promises_trans; [apply subscribe_only_promises|apply IH].
Qed.

Lemma subscribe_each_status ps w h :
  status (subscribe_each ps w) h = status w h.
Proof.
  revert w. induction ps as [|[r h'] ps IH]; intros w; simpl; [done|].
  by rewrite IH, subscribe_status.
Qed.

Lemma subscribe_each_queue_aux st ps : ∀ w,
  (∀ h, status w h = st h) →
  queue (subscribe_each ps w) = queue w ++ omap (λ p, JReact p.1 <$> st p.2) ps.
Proof.
  induction ps as [|[r h] ps IH]; intros w Hst; simpl.
  - by rewrite app_nil_r.
  - rewrite IH by (intros; by rewrite subscribe_status).
    rewrite subscribe_queue, <- app_assoc, Hst. by destruct (st h).
Qed.

(** The settled promises of the list each yield a microtask, in the order
    of the list. *)
Lemma subscribe_each_queue ps w :
  queue (subscribe_each ps w)
  = queue w ++ omap (λ p, JReact p.1 <$> status w p.2) ps.
Proof. by apply subscribe_each_queue_aux. Qed.

(** The pending promises of the list each get the reaction, in the order
    of the list, after the reactions they had. *)
Lemma subscribe_each_ext_state ps w n :
  ext_state (subscribe_each ps w) n
  = match ext_state w n with
    | Pending rs =>
        Pending (rs ++ omap (λ p, if decide (p.2 = HExt n) then Some p.1
                                  else None) ps)
    | Settled s => Settled s
    end.
Proof.
  revert w. induction ps as [|[r h] ps IH]; intros w; simpl.
  - destruct (ext_state w n); [|done]. by rewrite app_nil_r.
  - rewrite IH, subscribe_ext_state.
    destruct (ext_state w n) as [rs|s]; [|done].
    rewrite <- app_assoc. by destruct (decide (h = HExt n)).
Qed.

Lemma foldl_subscribe_each r hs w :
  foldl (subscribe r) w hs = subscribe_each ((λ h, (r, h)) <$> hs) w.
Proof.
  revert w. induction hs as [|h hs IH]; intros w; simpl; [done|]. apply IH.
Qed.

Lemma subscribe_all_each a hs : ∀ i w,
  subscribe_all a i hs w
  = subscribe_each (imap (λ k h, (OnAllElement a (i + k), h)) hs) w.
Proof.
  induction hs as [|h hs IH]; intros i w; simpl; [done|].
  rewrite IH, Nat.add_0_r. f_equal.
  apply imap_ext. intros k x _. simpl. f_equal. f_equal. lia.
Qed.

(** ** [update] when no creation call throws *)

Lemma created_handles_length_le evs : length (created_handles evs) ≤ length evs.
Proof.
  induction evs as [|e evs IH]; simpl; [done|].
  unfold created_handles in *. simpl.
  destruct e as [? ? ? ? [h|]| |]; simpl; lia.
Qed.

Lemma update_returned new_models create_view remove_view context w ms vs w' a :
  _models (vl w) = Some ms → views (vl w) = Some vs →
  update new_models create_view remove_view context w = (w', Returned a) →
  let p := common_prefix new_models ms in
  let create := js_or create_view (_create_view (vl w)) in
  let ctx := js_or context (_handler_context (vl w)) in
  ∃ evs,
    log w' = log w ++ evs ∧
    views (vl w') = Some (take p vs ++ created_handles evs) ∧
    _models (vl w') = Some new_models ∧
    length evs = length new_models - p ∧
    length (created_handles evs) = length new_models - p ∧
    ∀ k m, new_models !! (p + k) = Some m →
      ∃ h, evs !! k = Some (EvCreate create ctx m (p + k) (Some h)) ∧
           created_handles evs !! k = Some h ∧
           wraps (create_hook (log w ++ take k evs) create ctx m (p + k)) h.
Proof.
  intros Hms Hvs Hup p create ctx.
  rewrite (update_unfold _ _ _ _ _ _ _ Hms Hvs) in Hup. cbv zeta in Hup.
  fold p create ctx in Hup. revert Hup.
  set (w2 := foldl _ _ _).
  destruct (foldl_subscribe_only_promises
    (OnRemove (remove_or remove_view (vl w)) ctx)
    (drop p vs) (set_views (Some (take p vs)) w)) as (Hvl&_&_&_&Hlog).
  fold w2 in Hvl, Hlog. simpl in Hvl, Hlog.
  destruct (create_from _ _ _ _ w2) as [w3 [e|]] eqn:Hcr; [done|].
  apply create_from_spec in Hcr
    as (evs&Hlog3&Hviews3&_&_&_&_&_&_&_&_&_&_&Hlen&Hev).
  rewrite Hvl in Hviews3. simpl in Hviews3. rewrite Hlog in Hlog3, Hev.
  pose proof (promise_all_fields
    (default [] (views (vl (set_models (Some new_models) w3))))
    (set_models (Some new_models) w3)) as (Hvl5&_&Hlog5).
  destruct (promise_all _ _) as [a5 w5]. unfold fst, snd in *.
  intros [= <- <-]. exists evs. rewrite Hvl5, Hlog5. simpl.
  rewrite length_drop in Hlen.
  assert (length (created_handles evs) = length new_models - p) as Hlen'.
  { apply Nat.le_antisymm.
    - rewrite <- Hlen. apply created_handles_length_le.
    - destruct (decide (length new_models - p = 0)) as [->|Hne]; [lia|].
      destruct (lookup_lt_is_Some_2 (drop p new_models)
                  (length new_models - p - 1)) as [m Hm];
        [rewrite length_drop; lia|].
      destruct (Hev _ _ Hm) as (h&_&Hh&_). apply lookup_lt_Some in Hh. lia. }
  repeat split; try done.
  intros k m Hm. apply Hev. by rewrite lookup_drop.
Qed.

(** A creation call that throws is the only way for [update] on such a
    list to throw. *)
Lemma update_threw new_models create_view remove_view context w ms vs w' e :
  _models (vl w) = Some ms → views (vl w) = Some vs →
  update new_models create_view remove_view context w = (w', Threw e) →
  let p := common_prefix new_models ms in
  let create := js_or create_view (_create_view (vl w)) in
  let ctx := js_or context (_handler_context (vl w)) in
  ∃ evs k m,
    log w' = log w ++ evs ∧ new_models !! (p + k) = Some m ∧
    create_hook (log w ++ take k evs) create ctx m (p + k) = CThrow e.
Proof.
  intros Hms Hvs Hup p create ctx.
  rewrite (update_unfold _ _ _ _ _ _ _ Hms Hvs) in Hup. cbv zeta in Hup.
  fold p create ctx in Hup. revert Hup.
  set (w2 := foldl _ _ _).
  destruct (foldl_subscribe_only_promises
    (OnRemove (remove_or remove_view (vl w)) ctx)
    (drop p vs) (set_views (Some (take p vs)) w)) as (_&_&_&_&Hlog).
  fold w2 in Hlog. simpl in Hlog.
  destruct (create_from _ _ _ _ w2) as [w3 [e'|]] eqn:Hcr.
  - intros [= <- <-].
    apply create_from_spec in Hcr
      as (evs&Hlog3&_&_&_&_&_&_&_&_&_&_&_&k&m&Hm&_&_&Hthrow&_).
    rewrite Hlog in Hlog3, Hthrow. rewrite lookup_drop in Hm.
    by exists evs, k, m.
  - destruct (promise_all _ _). done.
Qed.

(** ** Creation *)

(** C6, for calls in which no creation call throws.  When [update] returns
    on a list with models [ms] and views [vs], [p] being the divergence
    point, the calls it has logged by then are exactly the creation calls
    for the indices [p], [p + 1], ... up to the end of [new_models], in
    this order, each with the model at that index and the index; the
    promise made from each result ([Promise.resolve]: a promise fulfilled
    from birth for a plain value, the promise itself for a promise) sits
    in [views] at that index, after the [p] handles that stay; and
    [_models] is [new_models]. *)
Theorem update_creates_in_ascending_order
    new_models create_view remove_view context w ms vs w' a :
  _models (vl w) = Some ms → views (vl w) = Some vs →
  update new_models create_view remove_view context w = (w', Returned a) →
  let p := common_prefix new_models ms in
  let create := js_or create_view (_create_view (vl w)) in
  let ctx := js_or context (_handler_context (vl w)) in
  ∃ evs created,
    log w' = log w ++ evs ∧
    length evs = length new_models - p ∧
    length created = length new_models - p ∧
    views (vl w') = Some (take p vs ++ created) ∧
    _models (vl w') = Some new_models ∧
    ∀ k m, new_models !! (p + k) = Some m →
      ∃ h, evs !! k = Some (EvCreate create ctx m (p + k) (Some h)) ∧
           created !! k = Some h ∧
           wraps (create_hook (log w ++ take k evs) create ctx m (p + k)) h.
Proof.
  intros Hms Hvs Hup p create ctx.
  destruct (update_returned _ _ _ _ _ _ _ _ _ Hms Hvs Hup)
    as (evs&Hlog&Hviews&Hmodels&Hlen&Hlen'&Hev).
  exists evs, (created_handles evs). by repeat split.
Qed.

(** ** Idempotence *)

Lemma same_refs_eq xs ys : same_refs xs ys → xs = ys.
Proof.
  induction 1 as [|x y xs ys Hxy _ IH]; [done|].
  by rewrite (strict_eq_eq _ _ Hxy), IH.
Qed.

(** A list is the same sequence of references as itself unless it holds
    [NaN], the one value that is not [===] to itself. *)
Lemma same_refs_refl xs : same_refs xs xs ↔ JNaN ∉ xs.
Proof.
  unfold same_refs. induction xs as [|x xs IH].
  - split; [intros _ Hin; by inversion Hin|by constructor].
  - rewrite not_elem_of_cons, <- IH. split.
    + intros H. inversion H as [|? ? ? ? Hx Hxs]; subst.
      split; [|done]. intros <-. done.
    + intros [Hx Hxs]. constructor; [|done].
      unfold strict_eq. destruct x; try done; by rewrite bool_decide_eq_true.
Qed.

Lemma same_refs_common_prefix xs ys :
  same_refs xs ys → common_prefix xs ys = length ys.
Proof.
  induction 1 as [|x y xs ys Hxy _ IH]; [done|]. simpl. by rewrite Hxy, IH.
Qed.

Lemma set_views_same w vs : views (vl w) = Some vs → set_views (Some vs) w = w.
Proof. destruct w as [[] ? ? ? ? ? ?]. simpl. by intros ->. Qed.

Lemma set_models_same w ms : _models (vl w) = Some ms → set_models (Some ms) w = w.
Proof. destruct w as [[] ? ? ? ? ? ?]. simpl. by intros ->. Qed.

(** On a list whose models are [ms], with no more views than models,
    [update] with the same references is [Promise.all(this.views)] and
    nothing else. *)
Lemma update_same_models new_models create_view remove_view context w ms vs :
  _models (vl w) = Some ms → views (vl w) = Some vs →
  length vs ≤ length ms → same_refs new_models ms →
  update new_models create_view remove_view context w
  = (snd (promise_all vs w), Returned (next w)).
Proof.
  intros Hms Hvs Hlen Hsame.
  rewrite (update_unfold _ _ _ _ _ _ _ Hms Hvs). cbv zeta.
  rewrite (same_refs_common_prefix _ _ Hsame).
  rewrite (same_refs_eq _ _ Hsame).
  rewrite take_ge, !drop_ge by lia. simpl.
  by rewrite (set_views_same _ _ Hvs), (set_models_same _ _ Hms).
Qed.

Lemma promise_all_subscribes hs w :
  let w' := snd (promise_all hs w) in
  (∃ js, queue w' = queue w ++ js ∧ Forall is_all_job js) ∧
  (∀ n, match ext_state w n with
        | Pending rs => ∃ rs', ext_state w' n = Pending (rs ++ rs') ∧
                               Forall is_all_reaction rs'
        | Settled s => ext_state w' n = Settled s
        end).
Proof.
  unfold promise_all, snd. rewrite subscribe_all_each.
  set (w1 := set_all _ _ _). set (ps := imap _ _).
  assert (Forall (λ p, is_all_reaction p.1) ps) as Hps.
  { apply Forall_forall. intros [r h] Hin. subst ps.
    apply list_elem_of_lookup in Hin as [k Hk].
    rewrite list_lookup_imap in Hk.
    destruct (hs !! k); simpl in Hk; [|done]. by injection Hk as <- <-. }
  split.
  - rewrite subscribe_each_queue. change (queue w1) with (queue w).
    eexists. split; [done|].
    clear -Hps. induction Hps as [|[r h] ps Hr _ IH]; simpl; [done|].
    destruct (status w1 h); simpl; [|done]. by constructor.
  - intros n. rewrite subscribe_each_ext_state.
    change (ext_state w1 n) with (ext_state w n).
    destruct (ext_state w n) as [rs|s]; [|done].
    eexists. split; [done|].
    clear -Hps. induction Hps as [|[r h] ps Hr _ IH]; simpl; [done|].
    destruct (decide (h = HExt n)); simpl; [|done]. by constructor.
Qed.

(** C5, for lists of models that hold no [NaN].  After [update] with
    [ms] has returned, [update] with [ms] again calls no hook (the log is
    as it was), detaches nothing and subscribes no removal (all it adds to
    the microtask queue and to the reactions of the promises comes from
    its [Promise.all]), and leaves [views], like every field of the
    instance, as it was. *)
Theorem update_twice_is_idle
    ms create_view remove_view context w w1 a1
    create_view2 remove_view2 context2 :
  is_Some (_models (vl w)) → is_Some (views (vl w)) →
  JNaN ∉ ms →
  update ms create_view remove_view context w = (w1, Returned a1) →
  let w2 := fst (update ms create_view2 remove_view2 context2 w1) in
  (∃ a2, snd (update ms create_view2 remove_view2 context2 w1) = Returned a2) ∧
  log w2 = log w1 ∧
  vl w2 = vl w1 ∧
  (∃ js, queue w2 = queue w1 ++ js ∧ Forall is_all_job js) ∧
  (∀ n, match ext_state w1 n with
        | Pending rs => ∃ rs', ext_state w2 n = Pending (rs ++ rs') ∧
                               Forall is_all_reaction rs'
        | Settled s => ext_state w2 n = Settled s
        end).
Proof.
  intros [ms0 Hms0] [vs0 Hvs0] Hnan Hup w2.
  pose proof (proj2 (same_refs_refl ms) Hnan) as Hsame.
  destruct (update_returned _ _ _ _ _ _ _ _ _ Hms0 Hvs0 Hup)
    as (evs&_&Hviews&Hmodels&_&Hlen&_).
  assert (length (take (common_prefix ms ms0) vs0 ++ created_handles evs)
          ≤ length ms) as Hle.
  { rewrite length_app, length_take, Hlen.
    pose proof (common_prefix_le_new ms ms0). lia. }
  subst w2.
  rewrite (update_same_models _ _ _ _ _ _ _ Hmodels Hviews Hle Hsame).
  unfold fst, snd.
  destruct (promise_all_fields
    (take (common_prefix ms ms0) vs0 ++ created_handles evs) w1) as (Hvl&_&Hlog).
  destruct (promise_all_subscribes
    (take (common_prefix ms ms0) vs0 ++ created_handles evs) w1) as (Hq&Hext).
  split; [by eexists|]. by repeat split.
Qed.

(** ** The alignment of [_models] and [views] *)

Lemma call_remove_fields f ctx v w :
  let w' := fst (call_remove f ctx v w) in
  vl w' = vl w ∧ ext w' = ext w ∧ alls w' = alls w ∧ dones w' = dones w ∧
  next w' = next w ∧ queue w' = queue w ∧ ∃ evs, log w' = log w ++ evs.
Proof.
  destruct f; simpl; repeat split; try done; eexists; try done.
  by rewrite <- app_assoc.
Qed.

Lemma remove_each_fields f ctx vs : ∀ w,
  let w' := fst (remove_each f ctx vs w) in
  vl w' = vl w ∧ ext w' = ext w ∧ alls w' = alls w ∧ dones w' = dones w ∧
  next w' = next w ∧ queue w' = queue w ∧ ∃ evs, log w' = log w ++ evs.
Proof.
  induction vs as [|v vs IH]; intros w; simpl.
  - repeat split; try done. exists []. by rewrite app_nil_r.
  - pose proof (call_remove_fields f ctx v w) as (?&?&?&?&?&?&evs&Hlog).
    destruct (call_remove f ctx v w) as [w1 [|e]]; unfold fst in *.
    + destruct (IH w1) as (?&?&?&?&?&?&evs'&Hlog').
      repeat split; try congruence.
      exists (evs ++ evs'). by rewrite Hlog', Hlog, <- app_assoc.
    + repeat split; try done. by exists evs.
Qed.

Lemma settle_all_fields a s w :
  vl (settle_all a s w) = vl w ∧ log (settle_all a s w) = log w ∧
  ext (settle_all a s w) = ext w ∧ dones (settle_all a s w) = dones w ∧
  next (settle_all a s w) = next w.
Proof.
  unfold settle_all. destruct (alls w !! a) as [g|]; [|done].
  by destruct (a_status g).
Qed.

(** A microtask leaves the instance alone or empties the list, and only
    adds to the log. *)
Lemma run_job_vl_log j w :
  (vl (run_job j w) = vl w ∨
   vl (run_job j w) = put_models (Some []) (put_views (Some []) (vl w))) ∧
  ∃ evs, log (run_job j w) = log w ++ evs.
Proof.
  destruct j as [[f ctx|a i] [v|e]|d [vs|e]]; simpl.
  - destruct (call_remove_fields f ctx v w) as (?&_&_&_&_&_&?). by split; [left|].
  - split; [by left|]. exists []. by rewrite app_nil_r.
  - assert (∃ evs, log w = log w ++ evs) as Hnil
      by (exists []; by rewrite app_nil_r).
    destruct (alls w !! a) as [g|]; [|by split; [left|]].
    destruct (mapM id _); [|by split; [left|]].
    match goal with
    | |- context [settle_all ?a ?s ?w1] =>
        destruct (settle_all_fields a s w1) as (-> & -> &_)
    end.
    by split; [left|].
  - destruct (settle_all_fields a (ARej e) w) as (-> & -> &_).
    split; [by left|]. exists []. by rewrite app_nil_r.
  - pose proof (remove_each_fields (_remove_view (vl w))
        (_handler_context (vl w)) vs w) as (Hvl&_&_&_&_&_&Hlog).
    destruct (remove_each _ _ vs w) as [w1 [e|]]; unfold fst in *; simpl.
    + by split; [left|].
    + split; [right|done]. by rewrite Hvl.
  - split; [by left|]. exists []. by rewrite app_nil_r.
Qed.

Lemma tick_vl_log w :
  (vl (tick w) = vl w ∨
   vl (tick w) = put_models (Some []) (put_views (Some []) (vl w))) ∧
  ∃ evs, log (tick w) = log w ++ evs.
Proof.
  unfold tick. destruct (queue w) as [|j q].
  - split; [by left|]. exists []. by rewrite app_nil_r.
  - apply (run_job_vl_log j (set_queue q w)).
Qed.

Lemma settle_vl_log n s w :
  vl (settle n s w) = vl w ∧ log (settle n s w) = log w.
Proof. unfold settle. by destruct (ext_state w n). Qed.

Lemma then_remove_all_fields a d w :
  vl (then_remove_all a d w) = vl w ∧ log (then_remove_all a d w) = log w.
Proof.
  unfold then_remove_all. destruct (alls w !! a) as [g|]; [|done].
  by destruct (a_status g).
Qed.

Lemma remove_vl_log w :
  vl (fst (remove w)) = vl w ∧ log (fst (remove w)) = log w.
Proof.
  unfold remove.
  assert (∀ x : nat * world, vl x.2 = vl w → log x.2 = log w →
    vl (let '(a, w1) := x in
        (then_remove_all a (next w1) (set_done (next w1) DPending (bump w1)),
         next w1)).1 = vl w ∧
    log (let '(a, w1) := x in
        (then_remove_all a (next w1) (set_done (next w1) DPending (bump w1)),
         next w1)).1 = log w) as Haux.
  { intros [a w1] Hvl Hlog. simpl in *.
    destruct (then_remove_all_fields a (next w1)
                (set_done (next w1) DPending (bump w1))) as [-> ->].
    by split. }
  destruct (views (vl w)) as [vs|].
  - destruct (promise_all_fields vs w) as (?&_&?). by apply Haux.
  - by apply Haux.
Qed.

Lemma aligned_grow (l : ViewList) (lg lg' : list event) :
  aligned l lg → (∃ evs, lg' = lg ++ evs) → aligned l lg'.
Proof.
  intros (ms&vs&Hms&Hvs&Hlen&Hal) [evs ->].
  exists ms, vs. repeat split; try done.
  intros i m h Hm Hh. destruct (Hal i m h Hm Hh) as (f&ctx&Hin).
  exists f, ctx. apply elem_of_app. by left.
Qed.

Lemma aligned_cleared (l : ViewList) (lg : list event) :
  aligned (put_models (Some []) (put_views (Some []) l)) lg.
Proof. exists [], []. repeat split; try done. Qed.

Lemma aligned_update new_models create_view remove_view context w w' a :
  aligned (vl w) (log w) →
  update new_models create_view remove_view context w = (w', Returned a) →
  aligned (vl w') (log w').
Proof.
  intros (ms&vs&Hms&Hvs&Hlen&Hal) Hup.
  destruct (update_returned _ _ _ _ _ _ _ _ _ Hms Hvs Hup)
    as (evs&Hlog&Hviews&Hmodels&_&Hlen'&Hev).
  set (p := common_prefix new_models ms) in *.
  assert (p ≤ length new_models) by apply common_prefix_le_new.
  assert (p ≤ length vs)
    by (rewrite <- Hlen; apply common_prefix_le_old).
  exists new_models, (take p vs ++ created_handles evs).
  split; [done|]. split; [done|].
  split; [rewrite length_app, length_take; lia|].
  intros i m h Hm Hh. rewrite Hlog.
  destruct (decide (i < p)) as [Hi|Hi].
  - rewrite lookup_app_l in Hh by (rewrite length_take; lia).
    rewrite lookup_take_lt in Hh by done.
    assert (ms !! i = Some m) as Hm'.
    { rewrite <- (lookup_take_lt ms p i) by done. unfold p.
      rewrite <- common_prefix_take. fold p. by rewrite lookup_take_lt. }
    destruct (Hal i m h Hm' Hh) as (f&ctx&Hin).
    exists f, ctx. apply elem_of_app. by left.
  - rewrite lookup_app_r in Hh by (rewrite length_take; lia).
    rewrite length_take, Nat.min_l in Hh by lia.
    replace i with (p + (i - p)) in Hm by lia.
    destruct (Hev _ _ Hm) as (h'&Hin&Hh'&_).
    rewrite Hh in Hh'. injection Hh' as <-.
    replace (p + (i - p)) with i in Hin by lia.
    eexists _, _. apply elem_of_app. right.
    by eapply list_elem_of_lookup_2.
Qed.

Lemma aligned_step w a :
  completes w [a] = true → aligned (vl w) (log w) →
  aligned (vl (step w a)) (log (step w a)).
Proof.
  intros Hc Hal. destruct a as [ms c r ctx| |n s|]; simpl in *.
  - destruct (update ms c r ctx w) as [w' [a|e]] eqn:Hup; [|done].
    by eapply aligned_update.
  - by destruct (remove_vl_log w) as [-> ->].
  - by destruct (settle_vl_log n s w) as [-> ->].
  - destruct (tick_vl_log w) as [[-> | ->] Hlog].
    + by eapply aligned_grow.
    + apply aligned_cleared.
Qed.

Lemma aligned_run acts : ∀ w,
  completes w acts = true → aligned (vl w) (log w) →
  aligned (vl (run w acts)) (log (run w acts)).
Proof.
  induction acts as [|a acts IH]; intros w Hc Hal; [done|].
  simpl in Hc. apply andb_true_iff in Hc as [Ha Hc].
  simpl. apply IH; [done|]. apply aligned_step; [|done].
  simpl. by rewrite Ha.
Qed.

Lemma completes_app acts1 acts2 w :
  completes w (acts1 ++ acts2) = true → completes w acts1 = true.
Proof.
  revert w. induction acts1 as [|a acts1 IH]; intros w; simpl; [done|].
  intros [Ha Hc]%andb_true_iff. rewrite Ha. simpl. by eapply IH.
Qed.

(** C3, for runs in which no creation call throws.  Start from a new
    [ViewList] and let [update] and [remove] be called any number of times
    in any order, promises being settled and microtasks running in
    between.  If every call of [update] returns, then after every action
    of the run [_models] and [views] have the same length, and the handle
    at each index of [views] is the promise a creation call made for the
    model at that index of [_models] and for that index. *)
Theorem models_and_views_stay_aligned this create_view remove_view context acts :
  completes (fresh this create_view remove_view context) acts = true →
  ∀ k,
    let w := run (fresh this create_view remove_view context) (take k acts) in
    aligned (vl w) (log w).
Proof.
  intros Hc k w. subst w. apply aligned_run.
  - apply (completes_app _ (drop k acts)). by rewrite take_drop.
  - exists [], []. by repeat split.
Qed.

(** ** Microtasks, one by one *)

Lemma call_remove_spec f ctx v w :
  log (fst (call_remove f ctx v w)) = log w ++ call_events f ctx v ∧
  snd (call_remove f ctx v w) = call_outcome f ctx v (log w).
Proof. destruct f; simpl; [done|]. by rewrite <- app_assoc. Qed.

Lemma remove_each_trace f ctx vals : ∀ w,
  log (fst (remove_each f ctx vals w))
  = log w ++ fst (removal_trace f ctx vals (log w)) ∧
  snd (remove_each f ctx vals w) = snd (removal_trace f ctx vals (log w)).
Proof.
  induction vals as [|v vals IH]; intros w; simpl.
  - by rewrite app_nil_r.
  - destruct (call_remove_spec f ctx v w) as [Hlog Hout].
    destruct (call_remove f ctx v w) as [w1 r]. unfold fst, snd in *. subst r.
    destruct (call_outcome f ctx v (log w)) as [|e]; [|done].
    destruct (IH w1) as [Hlog1 Hout1]. rewrite Hlog in Hlog1, Hout1.
    destruct (removal_trace f ctx vals (log w ++ call_events f ctx v))
      as [evs r]. simpl in *.
    by rewrite Hlog1, Hout1, <- app_assoc.
Qed.

(** When no call throws, every view gets its call, in order. *)
Lemma removal_trace_normal f ctx vals : ∀ hist,
  snd (removal_trace f ctx vals hist) = None →
  fst (removal_trace f ctx vals hist) = concat (call_events f ctx <$> vals).
Proof.
  induction vals as [|v vals IH]; intros hist; simpl; [done|].
  destruct (call_outcome f ctx v hist); [|done].
  specialize (IH (hist ++ call_events f ctx v)).
  destruct (removal_trace f ctx vals _) as [evs r]. simpl in *.
  intros ->. by rewrite IH.
Qed.

Lemma settle_all_spec a s w g :
  alls w !! a = Some g →
  settle_all a s w
  = match a_status g with
    | APending =>
        enqueue ((λ d, JRemoveAll d s) <$> a_then g)
          (set_all a {| a_values := a_values g; a_status := astatus_of s;
                        a_then := [] |} w)
    | _ => w
    end.
Proof. intros H. unfold settle_all. by rewrite H. Qed.

(** The microtask of [Promise.all] for one element. *)
Lemma run_job_all_element a i s w g :
  alls w !! a = Some g →
  let w' := run_job (JReact (OnAllElement a i) s) w in
  alls w' = <[a := fst (react_all g i s)]> (alls w) ∧
  queue w' = queue w ++ match snd (react_all g i s) with
                        | Some t => (λ d, JRemoveAll d t) <$> a_then g
                        | None => []
                        end ∧
  vl w' = vl w ∧ log w' = log w ∧ ext w' = ext w ∧ dones w' = dones w ∧
  next w' = next w.
Proof.
  intros Hg. destruct s as [v|e]; simpl.
  - rewrite Hg. unfold react_all.
    destruct (mapM id (<[i:=Some v]> (a_values g))) as [vs|] eqn:Hm.
    + erewrite settle_all_spec by (simpl; apply lookup_insert_eq). simpl.
      destruct (a_status g); simpl; rewrite ?insert_insert_eq, ?app_nil_r;
        by repeat split.
    + simpl. rewrite app_nil_r. by repeat split.
  - rewrite (settle_all_spec _ _ _ _ Hg). unfold react_all.
    destruct (a_status g); simpl; rewrite ?app_nil_r;
      repeat split; try done; by rewrite insert_id.
Qed.

Lemma run_job_all_element_none a i s w :
  alls w !! a = None → run_job (JReact (OnAllElement a i) s) w = w.
Proof.
  intros Hg. destruct s as [v|e]; simpl; [by rewrite Hg|].
  unfold settle_all. by rewrite Hg.
Qed.

(** A removal subscribed by [update] calls the hook when the view is
    there, and nothing when the promise is rejected. *)
Lemma run_job_remove f ctx s w :
  let w' := run_job (JReact (OnRemove f ctx) s) w in
  log w' = log w ++ match s with
                    | SFul v => call_events f ctx v
                    | SRej _ => []
                    end ∧
  vl w' = vl w ∧ ext w' = ext w ∧ alls w' = alls w ∧ dones w' = dones w ∧
  next w' = next w ∧ queue w' = queue w.
Proof.
  destruct s as [v|e]; simpl.
  - destruct (call_remove_fields f ctx v w) as (?&?&?&?&?&?&_).
    destruct (call_remove_spec f ctx v w) as [? _]. by repeat split.
  - rewrite app_nil_r. by repeat split.
Qed.

(** The callback of [remove()]. *)
Lemma run_job_remove_all d t w :
  let w' := run_job (JRemoveAll d t) w in
  let f := _remove_view (vl w) in
  let ctx := _handler_context (vl w) in
  ext w' = ext w ∧ alls w' = alls w ∧ next w' = next w ∧ queue w' = queue w ∧
  match t with
  | AFul vals =>
      log w' = log w ++ fst (removal_trace f ctx vals (log w)) ∧
      match snd (removal_trace f ctx vals (log w)) with
      | None => vl w' = put_models (Some []) (put_views (Some []) (vl w)) ∧
                dones w' = <[d := DFulfilled]> (dones w)
      | Some e => vl w' = vl w ∧ dones w' = <[d := DRejected e]> (dones w)
      end
  | ARej e =>
      log w' = log w ∧ vl w' = vl w ∧
      dones w' = <[d := DRejected e]> (dones w)
  end.
Proof.
  destruct t as [vals|e]; simpl; [|by repeat split].
  pose proof (remove_each_fields (_remove_view (vl w))
    (_handler_context (vl w)) vals w) as (Hvl&?&?&Hd&?&?&_).
  destruct (remove_each_trace (_remove_view (vl w))
    (_handler_context (vl w)) vals w) as [Hlog Hout].
  destruct (remove_each _ _ vals w) as [w1 r]. unfold fst, snd in *.
  rewrite <- Hout.
  destruct r as [e|]; simpl; repeat split; try done; by rewrite ?Hvl, ?Hd.
Qed.

Lemma settle_spec n s w :
  let w' := settle n s w in
  vl w' = vl w ∧ log w' = log w ∧ alls w' = alls w ∧ dones w' = dones w ∧
  next w' = next w ∧
  match ext_state w n with
  | Pending rs =>
      queue w' = queue w ++ ((λ r, JReact r s) <$> rs) ∧
      ∀ n', ext_state w' n' = if decide (n = n') then Settled s
                              else ext_state w n'
  | Settled _ => w' = w
  end.
Proof.
  unfold settle. destruct (ext_state w n) as [rs|s']; simpl; [|done].
  repeat split; try done. intros n'.
  by rewrite ext_state_enqueue, ext_state_set_ext.
Qed.

(** Settling and running microtasks keeps what is settled. *)
Lemma settle_status n s w h s' :
  status w h = Some s' → status (settle n s w) h = Some s'.
Proof.
  destruct h as [k v|n']; [done|]. simpl.
  destruct (settle_spec n s w) as (_&_&_&_&_&Hs).
  destruct (ext_state w n) as [rs|s0] eqn:E.
  - destruct Hs as [_ Hs]. rewrite Hs. case_decide; [subst; by rewrite E|done].
  - by rewrite Hs.
Qed.

Lemma run_job_ext j w : ext (run_job j w) = ext w.
Proof.
  destruct j as [[f ctx|a i] s|d t].
  - by destruct (run_job_remove f ctx s w) as (_&_&?&_).
  - destruct (alls w !! a) as [g|] eqn:Hg.
    + by destruct (run_job_all_element a i s w g Hg) as (_&_&_&_&?&_).
    + by rewrite run_job_all_element_none.
  - by destruct (run_job_remove_all d t w) as (?&_).
Qed.

Lemma tick_ext w : ext (tick w) = ext w.
Proof.
  unfold tick. destruct (queue w); [done|]. by rewrite run_job_ext.
Qed.

Lemma hands_off_ind (P : world → Prop) :
  (∀ w n s, P w → P (settle n s w)) →
  (∀ w, P w → P (tick w)) →
  ∀ acts w, hands_off acts = true → P w → P (run w acts).
Proof.
  intros Hsettle Htick acts.
  induction acts as [|a acts IH]; intros w Hacts Hw; [done|].
  simpl in Hacts. apply andb_true_iff in Hacts as [Ha Hacts].
  simpl. apply IH; [done|].
  destruct a; try done; simpl; auto.
Qed.

(** ** An aggregate and its handles, over time *)

Lemma status_ext w w' h : ext w' = ext w → status w' h = status w h.
Proof. intros H. destruct h; [done|]. unfold status, ext_state. by rewrite H. Qed.

Lemma ext_state_ext w w' n : ext w' = ext w → ext_state w' n = ext_state w n.
Proof. intros H. unfold ext_state. by rewrite H. Qed.

Lemma mapM_id_Some {A} (l : list (option A)) k :
  mapM id l = Some k → l = Some <$> k.
Proof.
  intros H. apply mapM_Some_1 in H.
  induction H as [|x y l k Hxy _ IH]; [done|]. simpl in *. by subst.
Qed.

Lemma mapM_id_None {A} (l : list (option A)) :
  mapM id l = None → ∃ k, l !! k = Some None.
Proof.
  intros H. apply mapM_None_1, Exists_exists in H as (x&Hin&Hx).
  simpl in Hx. subst. by apply list_elem_of_lookup in Hin.
Qed.

(** What leaves the promises, the values and the status of the aggregate
    and its microtasks alone keeps the invariant. *)
Lemma watching_frame a hs w w' :
  watching a hs w →
  ext w' = ext w →
  (∀ g, alls w !! a = Some g →
     ∃ g', alls w' !! a = Some g' ∧ a_values g' = a_values g ∧
           a_status g' = a_status g) →
  (∀ k s, JReact (OnAllElement a k) s ∈ queue w
          ↔ JReact (OnAllElement a k) s ∈ queue w') →
  watching a hs w'.
Proof.
  intros ((g&Hg&Hlen&Hslots&Hst)&Hreact&Hjobs) Hext Halls Hq.
  destruct (Halls g Hg) as (g'&Hg'&Hvals&Hstat).
  split; [|split].
  - exists g'. split; [done|]. split; [by rewrite Hvals|]. split.
    + intros k h Hk. specialize (Hslots k h Hk). unfold slot_ok in *.
      rewrite Hvals, Hstat. destruct (a_values g !! k) as [[v|]|]; [| |done].
      * by rewrite (status_ext _ _ _ Hext).
      * destruct Hslots as [(n&rs&->&Hn&Hin)|[(s&Hs&Hin)|(e&e'&Hs&He)]].
        -- left. exists n, rs. by rewrite (ext_state_ext _ _ _ Hext).
        -- right; left. exists s. rewrite (status_ext _ _ _ Hext).
           split; [done|]. by apply Hq.
        -- right; right. exists e, e'. by rewrite (status_ext _ _ _ Hext).
    + unfold settled_ok in *. rewrite Hvals, Hstat.
      destruct (a_status g); [done|done|].
      destruct Hst as (h&Hin&Hs). exists h.
      by rewrite (status_ext _ _ _ Hext).
  - intros n rs k Hn. rewrite (ext_state_ext _ _ _ Hext) in Hn. by apply Hreact.
  - intros k s Hin. apply Hq, Hjobs in Hin as (h&Hk&Hs).
    exists h. by rewrite (status_ext _ _ _ Hext).
Qed.

Lemma watching_settle a hs n s w :
  watching a hs w → watching a hs (settle n s w).
Proof.
  intros Hw. pose proof Hw as ((g&Hg&Hlen&Hslots&Hst)&Hreact&Hjobs).
  destruct (settle_spec n s w) as (_&_&Halls&_&_&Hs).
  destruct (ext_state w n) as [rs0|s0] eqn:En; [|by rewrite Hs].
  destruct Hs as [Hq Hext].
  assert (∀ h s', status w h = Some s' → status (settle n s w) h = Some s')
    as Hmono by (intros; by apply settle_status).
  assert (status (settle n s w) (HExt n) = Some s) as Hn.
  { simpl. rewrite Hext. by rewrite decide_True. }
  split; [|split].
  - exists g. rewrite Halls. split; [done|]. split; [done|]. split.
    + intros k h Hk. specialize (Hslots k h Hk). unfold slot_ok in *.
      destruct (a_values g !! k) as [[v|]|]; [by apply Hmono| |done].
      destruct Hslots as [(n1&rs&->&Hn1&Hin)|[(s1&Hs1&Hin)|(e&e'&Hs1&He)]].
      * destruct (decide (n = n1)) as [<-|Hne].
        -- right; left. exists s. split; [done|].
           rewrite Hq. apply elem_of_app. right.
           rewrite En in Hn1. injection Hn1 as <-.
           by apply (list_elem_of_fmap_2 (λ r, JReact r s)) in Hin.
        -- left. exists n1, rs. rewrite Hext. by rewrite decide_False.
      * right; left. exists s1. split; [by apply Hmono|].
        rewrite Hq. apply elem_of_app. by left.
      * right; right. exists e, e'. split; [by apply Hmono|done].
    + unfold settled_ok in *. destruct (a_status g); [done|done|].
      destruct Hst as (h&Hin&Hh). exists h. split; [done|by apply Hmono].
  - intros n' rs k Hn'. rewrite Hext in Hn'.
    case_decide; [done|]. by apply Hreact.
  - intros k s' Hin. rewrite Hq in Hin.
    apply elem_of_app in Hin as [Hin|Hin].
    + destruct (Hjobs k s' Hin) as (h&Hk&Hh). exists h.
      split; [done|by apply Hmono].
    + apply list_elem_of_fmap in Hin as (r&[= <- <-]&Hr).
      exists (HExt n). split; [|done]. by eapply Hreact.
Qed.

Lemma watching_react a hs w w' g g' i s h0 q extra :
  watching a hs w → alls w !! a = Some g →
  queue w = JReact (OnAllElement a i) s :: q →
  hs !! i = Some h0 → status w h0 = Some s →
  ext w' = ext w → alls w' !! a = Some g' → queue w' = q ++ extra →
  (∀ k s', JReact (OnAllElement a k) s' ∉ extra) →
  a_values g' = match s with
                | SFul v => <[i := Some v]> (a_values g)
                | SRej _ => a_values g
                end →
  settled_ok hs w' g' →
  (a_status g' = a_status g ∨ a_status g = APending) →
  (∀ e, s = SRej e → a_status g' ≠ APending) →
  watching a hs w'.
Proof.
  intros ((g0&Hg0&Hlen&Hslots&_)&Hreact&Hjobs) Hg Hq Hi Hs0 Hext Hg' Hq'
    Hextra Hvals Hst' Hstat Hrej.
  rewrite Hg in Hg0. injection Hg0 as <-.
  assert (∀ h, status w' h = status w h) as Hstatus
    by (intros; by apply status_ext).
  assert (i < length (a_values g)) as Hilt
    by (rewrite Hlen; by eapply lookup_lt_Some).
  split; [|split].
  - exists g'. split; [done|]. split.
    { rewrite Hvals. destruct s; by rewrite ?length_insert. }
    split; [|done].
    intros k h Hk. specialize (Hslots k h Hk). unfold slot_ok in *.
    rewrite Hstatus. destruct (decide (k = i)) as [->|Hne].
    + rewrite Hi in Hk. injection Hk as <-. rewrite Hvals.
      destruct s as [v|e].
      * by rewrite list_lookup_insert_eq.
      * destruct (a_values g !! i) as [[v|]|] eqn:Ei; [done| |done].
        right; right. unfold settled_ok in Hst'.
        destruct (a_status g') as [|vals|e'] eqn:Es.
        -- by destruct (Hrej e).
        -- rewrite <- Hvals, Hst', list_lookup_fmap in Ei.
           by destruct (vals !! i).
        -- by exists e, e'.
    + assert (a_values g' !! k = a_values g !! k) as ->.
      { rewrite Hvals. destruct s; [|done]. by rewrite list_lookup_insert_ne. }
      destruct (a_values g !! k) as [[v|]|]; [done| |done].
      destruct Hslots as [(n&rs&->&Hn&Hin)|[(s1&Hs1&Hin)|(e&e'&Hs1&He)]].
      * left. exists n, rs. by rewrite (ext_state_ext _ _ _ Hext).
      * right; left. exists s1. split; [done|].
        rewrite Hq in Hin. apply elem_of_cons in Hin as [[=]|Hin]; [done|].
        rewrite Hq'. apply elem_of_app. by left.
      * right; right. exists e, e'. split; [done|].
        destruct Hstat as [->|Hp]; [done|congruence].
  - intros n rs k Hn. rewrite (ext_state_ext _ _ _ Hext) in Hn. by apply Hreact.
  - intros k s' Hin. rewrite Hq' in Hin.
    apply elem_of_app in Hin as [Hin|Hin]; [|by destruct (Hextra k s')].
    destruct (Hjobs k s') as (h&Hk&Hs);
      [rewrite Hq; apply elem_of_cons; by right|].
    exists h. by rewrite Hstatus.
Qed.

Lemma watching_tick a hs w : watching a hs w → watching a hs (tick w).
Proof.
  intros Hw. unfold tick. destruct (queue w) as [|j q] eqn:Eq; [done|].
  set (wq := set_queue q w).
  assert (∀ k s', JReact (OnAllElement a k) s' ≠ j →
            (JReact (OnAllElement a k) s' ∈ queue w
             ↔ JReact (OnAllElement a k) s' ∈ q)) as Hother.
  { intros k s' Hne. rewrite Eq, elem_of_cons.
    split; [intros [?|?]; [congruence|done]|by right]. }
  destruct j as [[f c|b i] s|d t].
  - destruct (run_job_remove f c s wq) as (_&_&Hext&Halls&_&_&Hq).
    apply (watching_frame a hs w); [done|done| |].
    + intros g Hg. exists g. by rewrite Halls.
    + intros k s'. rewrite Hq. by apply Hother.
  - destruct (decide (b = a)) as [->|Hne].
    + pose proof Hw as ((g&Hg&Hlen&Hslots&Hst)&Hreact&Hjobs).
      destruct (Hjobs i s) as (h0&Hi&Hs0); [rewrite Eq; by left|].
      destruct (run_job_all_element a i s wq g Hg) as (Halls&Hq&_&_&Hext&_).
      assert (∀ h, status (run_job (JReact (OnAllElement a i) s) wq) h
                   = status w h) as Hstatus
        by (intros; by apply status_ext).
      eapply (watching_react a hs w _ g (react_all g i s).1 i s h0 q);
        try done.
      * rewrite Halls. apply lookup_insert_eq.
      * intros k s' Hin. destruct (react_all g i s).2; [|by inversion Hin].
        by apply list_elem_of_fmap in Hin as (?&[=]&_).
      * unfold react_all. destruct s as [v|e].
        -- by destruct (mapM id _), (a_status g).
        -- by destruct (a_status g).
      * unfold settled_ok in *. unfold react_all.
        destruct (a_status g) as [|vals|e0] eqn:Es.
        -- destruct s as [v|e].
           ++ destruct (mapM id _) as [vs|] eqn:Em; simpl.
              ** by apply mapM_id_Some.
              ** by apply mapM_id_None.
           ++ simpl. exists h0. rewrite Hstatus.
              split; [by eapply list_elem_of_lookup_2|done].
        -- assert (∀ v, s = SFul v → <[i:=Some v]> (a_values g) = a_values g)
             as Hid.
           { intros v ->. apply list_insert_id.
             specialize (Hslots i h0 Hi). unfold slot_ok in Hslots.
             rewrite Hst, list_lookup_fmap in Hslots |- *.
             destruct (vals !! i) as [v0|]; [|done]. simpl in *. congruence. }
           destruct s as [v|e]; [|simpl; by rewrite Es].
           destruct (mapM id _); simpl; by rewrite (Hid v eq_refl).
        -- assert (∃ h, h ∈ hs ∧
             status (run_job (JReact (OnAllElement a i) s) wq) h
             = Some (SRej e0)) as Hrej.
           { destruct Hst as (h&?&?). exists h. by rewrite Hstatus. }
           destruct s as [v|e]; [|simpl; by rewrite Es].
           by destruct (mapM id _).
      * unfold react_all. destruct s as [v|e].
        -- destruct (mapM id _), (a_status g) eqn:Es; simpl; auto.
        -- destruct (a_status g) eqn:Es; simpl; auto.
      * intros e ->. unfold react_all. by destruct (a_status g) eqn:Es; simpl;
          rewrite ?Es.
    + assert (∀ k s', JReact (OnAllElement a k) s' ≠ JReact (OnAllElement b i) s)
        as Hdiff by congruence.
      destruct (alls wq !! b) as [g|] eqn:Hg.
      * destruct (run_job_all_element b i s wq g Hg) as (Halls&Hq&_&_&Hext&_).
        apply (watching_frame a hs w); [done|done| |].
        -- intros g0 Hg0. exists g0. rewrite Halls.
           by rewrite lookup_insert_ne.
        -- intros k s'. rewrite Hq, elem_of_app, (Hother k s' (Hdiff k s')).
           split; [by left|]. intros [?|Hin]; [done|].
           destruct (react_all g i s).2; [|by inversion Hin].
           by apply list_elem_of_fmap in Hin as (?&[=]&_).
      * rewrite run_job_all_element_none by done.
        apply (watching_frame a hs w); [done|done| |].
        -- intros g0 Hg0. by exists g0.
        -- intros k s'. by apply Hother.
  - destruct (run_job_remove_all d t wq) as (Hext&Halls&_&Hq&_).
    apply (watching_frame a hs w); [done|done| |].
    + intros g Hg. exists g. by rewrite Halls.
    + intros k s'. rewrite Hq. by apply Hother.
Qed.

Lemma watching_run a hs acts w :
  hands_off acts = true → watching a hs w → watching a hs (run w acts).
Proof.
  apply (hands_off_ind (watching a hs)).
  - intros; by apply watching_settle.
  - intros; by apply watching_tick.
Qed.

(** The invariant holds from the moment [Promise.all] returns. *)

Lemma tidy_unheard w a : tidy w = true → next w ≤ a → unheard a w.
Proof.
  unfold tidy. intros [Hq Hext]%andb_true_iff Ha.
  rewrite forallb_forall in Hq, Hext. split.
  - intros n rs k Hn Hin. unfold ext_state in Hn.
    destruct (ext w !! n) as [p|] eqn:E; simpl in Hn;
      [subst p|injection Hn as <-; by inversion Hin].
    specialize (Hext (n, Pending rs)). simpl in Hext.
    rewrite forallb_forall in Hext.
    assert (reaction_tidy (next w) (OnAllElement a k) = true) as Ht.
    { apply Hext; [|by apply list_elem_of_In].
      apply list_elem_of_In. by apply elem_of_map_to_list. }
    simpl in Ht. apply Nat.ltb_lt in Ht. lia.
  - intros k s Hin. apply list_elem_of_In, Hq in Hin. simpl in Hin.
    apply Nat.ltb_lt in Hin. lia.
Qed.

Lemma unheard_subscribe_each a ps w :
  unheard a w → Forall (λ p, ∀ k, p.1 ≠ OnAllElement a k) ps →
  unheard a (subscribe_each ps w).
Proof.
  intros [Hr Hj] Hps. split.
  - intros n rs k Hn Hin. rewrite subscribe_each_ext_state in Hn.
    destruct (ext_state w n) as [rs0|] eqn:E; [|done]. injection Hn as <-.
    apply elem_of_app in Hin as [Hin|Hin]; [by destruct (Hr n rs0 k E)|].
    apply list_elem_of_omap in Hin as (p&Hp&Hq).
    rewrite Forall_forall in Hps. specialize (Hps p Hp k).
    case_decide; [|done]. congruence.
  - intros k s Hin. rewrite subscribe_each_queue in Hin.
    apply elem_of_app in Hin as [Hin|Hin]; [by destruct (Hj k s)|].
    apply list_elem_of_omap in Hin as (p&Hp&Hq).
    rewrite Forall_forall in Hps. specialize (Hps p Hp k).
    destruct (status w p.2); simpl in Hq; [|done]. congruence.
Qed.

Lemma unheard_frame a w w' :
  unheard a w → ext w' = ext w → queue w' = queue w → unheard a w'.
Proof.
  intros [Hr Hj] Hext Hq. split.
  - intros n rs k Hn. rewrite (ext_state_ext _ _ _ Hext) in Hn.
    by apply (Hr n).
  - intros k s. rewrite Hq. apply Hj.
Qed.

Lemma promise_all_watching hs w :
  unheard (next w) w →
  watching (promise_all hs w).1 hs (promise_all hs w).2.
Proof.
  intros [Hr Hj]. unfold promise_all, fst, snd. rewrite subscribe_all_each.
  set (a := next w). set (g0 := Build_aggregate _ _ _).
  set (w1 := set_all a g0 (bump w)).
  set (ps := imap (λ k h, (OnAllElement a (0 + k), h)) hs).
  assert (∀ p, p ∈ ps ↔ ∃ k h, hs !! k = Some h ∧ p = (OnAllElement a k, h))
    as Hps.
  { intros p. unfold ps. rewrite elem_of_lookup_imap.
    split; intros (k&h&?&?); exists k, h; by subst. }
  destruct (subscribe_each_only_promises ps w1) as (_&Halls&_).
  assert (∀ h, status (subscribe_each ps w1) h = status w h) as Hstatus
    by (intros; by rewrite subscribe_each_status).
  split; [|split].
  - exists g0. rewrite Halls. split; [apply lookup_insert_eq|].
    split; [apply length_replicate|]. split.
    + intros k h Hk. unfold slot_ok. simpl.
      rewrite lookup_replicate_2 by (by eapply lookup_lt_Some).
      rewrite Hstatus. destruct (status w h) as [s|] eqn:Es.
      * right; left. exists s. split; [done|].
        rewrite subscribe_each_queue. apply elem_of_app. right.
        apply list_elem_of_omap. exists (OnAllElement a k, h).
        split; [apply Hps; by exists k, h|]. simpl.
        change (status w1 h) with (status w h). by rewrite Es.
      * left. destruct h as [i v|n]; [done|]. simpl in Es.
        destruct (ext_state w n) as [rs|] eqn:En; [|done].
        exists n, (rs ++ omap (λ p, if decide (p.2 = HExt n) then Some p.1
                                   else None) ps).
        split; [done|]. split.
        -- rewrite subscribe_each_ext_state.
           change (ext_state w1 n) with (ext_state w n). by rewrite En.
        -- apply elem_of_app. right. apply list_elem_of_omap.
           exists (OnAllElement a k, HExt n).
           split; [apply Hps; by exists k, (HExt n)|]. simpl.
           by rewrite decide_True.
    + unfold settled_ok. simpl. destruct hs; [done|]. by exists 0.
  - intros n rs k Hn Hin. rewrite subscribe_each_ext_state in Hn.
    change (ext_state w1 n) with (ext_state w n) in Hn.
    destruct (ext_state w n) as [rs0|] eqn:En; [|done]. injection Hn as <-.
    apply elem_of_app in Hin as [Hin|Hin]; [by destruct (Hr n rs0 k)|].
    apply list_elem_of_omap in Hin as (p&Hp&Hq).
    apply Hps in Hp as (k'&h&Hk'&->). simpl in Hq.
    case_decide; [|done]. by simplify_eq.
  - intros k s Hin. rewrite subscribe_each_queue in Hin.
    change (queue w1) with (queue w) in Hin.
    apply elem_of_app in Hin as [Hin|Hin]; [by destruct (Hj k s)|].
    apply list_elem_of_omap in Hin as (p&Hp&Hq).
    apply Hps in Hp as (k'&h&Hk'&->). simpl in Hq.
    change (status w1 h) with (status w h) in Hq.
    destruct (status w h) as [s'|] eqn:Es; simpl in Hq; [|done].
    simplify_eq. exists h. by rewrite Hstatus.
Qed.

(** What the invariant says of a settled aggregate, *)

Lemma watching_rejected a hs w g e :
  watching a hs w → alls w !! a = Some g → a_status g = ARejected e →
  ∃ h, h ∈ hs ∧ status w h = Some (SRej e).
Proof.
  intros ((g0&Hg0&_&_&Hst)&_) Hg He. rewrite Hg in Hg0. injection Hg0 as <-.
  unfold settled_ok in Hst. by rewrite He in Hst.
Qed.

Lemma watching_fulfilled a hs w g vals :
  watching a hs w → alls w !! a = Some g → a_status g = AFulfilled vals →
  Forall2 (λ h v, status w h = Some (SFul v)) hs vals.
Proof.
  intros ((g0&Hg0&Hlen&Hslots&Hst)&_) Hg He.
  rewrite Hg in Hg0. injection Hg0 as <-.
  unfold settled_ok in Hst. rewrite He in Hst.
  apply Forall2_same_length_lookup. split.
  - by rewrite <- Hlen, Hst, length_fmap.
  - intros k h v Hh Hv. specialize (Hslots k h Hh). unfold slot_ok in Hslots.
    by rewrite Hst, list_lookup_fmap, Hv in Hslots.
Qed.

(** and of an aggregate once the microtask queue is empty. *)

Lemma watching_drained_rejected a hs w h e :
  watching a hs w → queue w = [] → h ∈ hs → status w h = Some (SRej e) →
  ∃ g e', alls w !! a = Some g ∧ a_status g = ARejected e' ∧
          ∃ h', h' ∈ hs ∧ status w h' = Some (SRej e').
Proof.
  intros ((g&Hg&_&Hslots&Hst)&_) Hq Hin Hs.
  apply list_elem_of_lookup in Hin as [k Hk].
  specialize (Hslots k h Hk). unfold slot_ok in Hslots.
  destruct (a_values g !! k) as [[v|]|]; [congruence| |done].
  destruct Hslots as [(n&rs&->&Hn&_)|[(s&_&Hj)|(e0&e'&_&He)]].
  - simpl in Hs. by rewrite Hn in Hs.
  - rewrite Hq in Hj. by inversion Hj.
  - exists g, e'. split; [done|]. split; [done|].
    unfold settled_ok in Hst. by rewrite He in Hst.
Qed.

Lemma watching_drained_fulfilled a hs w vals :
  watching a hs w → queue w = [] →
  Forall2 (λ h v, status w h = Some (SFul v)) hs vals →
  ∃ g, alls w !! a = Some g ∧ a_status g = AFulfilled vals.
Proof.
  intros ((g&Hg&Hlen&Hslots&Hst)&_) Hq Hall.
  assert (a_values g = Some <$> vals) as Hvals.
  { apply list_eq_same_length with (length hs); [|done|].
    { by rewrite length_fmap, <- (Forall2_length _ _ _ Hall). }
    intros k x y Hk Hx Hy.
    destruct (lookup_lt_is_Some_2 hs k Hk) as [h Hh].
    destruct (Forall2_lookup_l _ _ _ _ _ Hall Hh) as (v&Hv&Hs).
    rewrite list_lookup_fmap, Hv in Hy. injection Hy as <-.
    specialize (Hslots k h Hh). unfold slot_ok in Hslots. rewrite Hx in Hslots.
    destruct x as [v'|]; [congruence|].
    destruct Hslots as [(n&rs&->&Hn&_)|[(s&_&Hj)|(e0&e'&Hs'&_)]].
    - simpl in Hs. by rewrite Hn in Hs.
    - rewrite Hq in Hj. by inversion Hj.
    - congruence. }
  exists g. split; [done|]. unfold settled_ok in Hst.
  destruct (a_status g) as [|vals'|e].
  - destruct Hst as [k Hk]. rewrite Hvals, list_lookup_fmap in Hk.
    by destruct (vals !! k).
  - rewrite Hvals in Hst. by apply (inj (fmap Some)) in Hst as ->.
  - destruct Hst as (h&Hin&Hs). apply list_elem_of_lookup in Hin as [k Hk].
    destruct (Forall2_lookup_l _ _ _ _ _ Hall Hk) as (v&_&Hs'). congruence.
Qed.

(** ** [update] and the aggregate it returns *)

Lemma update_watching new_models create_view remove_view context w ms vs w' a :
  _models (vl w) = Some ms → views (vl w) = Some vs → tidy w = true →
  update new_models create_view remove_view context w = (w', Returned a) →
  ∃ vs', views (vl w') = Some vs' ∧ watching a vs' w'.
Proof.
  intros Hms Hvs Htidy Hup.
  rewrite (update_unfold _ _ _ _ _ _ _ Hms Hvs) in Hup. cbv zeta in Hup.
  revert Hup. rewrite foldl_subscribe_each.
  set (p := common_prefix new_models ms).
  set (ps := (λ h, (_, h)) <$> drop p vs).
  set (w1 := set_views (Some (take p vs)) w).
  set (w2 := subscribe_each ps w1).
  destruct (subscribe_each_only_promises ps w1) as (Hvl2&_&_&Hnext2&_).
  fold w2 in Hvl2, Hnext2.
  destruct (create_from _ _ _ _ w2) as [w3 [e|]] eqn:Hcr; [done|].
  apply create_from_spec in Hcr
    as (evs&_&Hviews3&_&_&_&_&_&Hext3&_&_&Hq3&Hnext3&_).
  rewrite Hvl2 in Hviews3. simpl in Hviews3.
  set (w4 := set_models (Some new_models) w3).
  assert (unheard (next w4) w4) as Hun.
  { apply (unheard_frame _ w3); [|done|done].
    apply (unheard_frame _ w2); [|done|done].
    apply unheard_subscribe_each.
    - apply (unheard_frame _ w); [|done|done].
      apply tidy_unheard; [done|]. simpl. simpl in Hnext2. lia.
    - apply Forall_forall. intros [r h] Hin k. unfold ps in Hin.
      by apply list_elem_of_fmap in Hin as (?&[= -> ->]&_). }
  pose proof (promise_all_watching (default [] (views (vl w4))) w4 Hun) as Hw.
  pose proof (promise_all_fields (default [] (views (vl w4))) w4) as (Hvl5&_).
  destruct (promise_all _ w4) as [a5 w5]. unfold fst, snd in *.
  intros [= <- <-]. eexists. split; [|done].
  rewrite Hvl5. simpl. by rewrite Hviews3.
Qed.

(** ** [remove()] and its callback, over time *)



Lemma react_all_pending g i s :
  a_status g = APending →
  match (react_all g i s).2 with
  | Some t => a_status (react_all g i s).1 = astatus_of t ∧
              a_then (react_all g i s).1 = []
  | None => a_status (react_all g i s).1 = APending ∧
            a_then (react_all g i s).1 = a_then g
  end.
Proof.
  intros Hp. unfold react_all. rewrite Hp.
  destruct s as [v|e]; [|done]. by destruct (mapM id _).
Qed.

Lemma react_all_settled g i s :
  a_status g ≠ APending →
  (react_all g i s).2 = None ∧
  a_status (react_all g i s).1 = a_status g ∧
  a_then (react_all g i s).1 = a_then g.
Proof.
  intros Hp. unfold react_all. destruct s as [v|e].
  - by destruct (mapM id _), (a_status g) eqn:E.
  - by destruct (a_status g) eqn:E.
Qed.





Lemma calm_facts w :
  calm w = true →
  tidy w = true ∧ queue w = [] ∧
  (∀ n rs, ext_state w n = Pending rs → Forall is_all_reaction rs) ∧
  (∀ b g, alls w !! b = Some g → a_then g = []).
Proof.
  unfold calm.
  intros [[[Ht Hq]%andb_true_iff Hext]%andb_true_iff Halls]%andb_true_iff.
  rewrite forallb_forall in Hext, Halls.
  split; [done|]. split; [by destruct (queue w)|]. split.
  - intros n rs Hn. unfold ext_state in Hn.
    destruct (ext w !! n) as [p|] eqn:E; simpl in Hn;
      [subst p|by injection Hn as <-].
    specialize (Hext (n, Pending rs)). simpl in Hext.
    rewrite forallb_forall in Hext. apply Forall_forall. intros r Hr.
    assert (reaction_calm r = true) as Hc.
    { apply Hext; [|by apply list_elem_of_In].
      apply list_elem_of_In. by apply elem_of_map_to_list. }
    by destruct r.
  - intros b g Hg. specialize (Halls (b, g)). simpl in Halls.
    destruct (a_then g); [done|].
    discriminate Halls. apply list_elem_of_In. by apply elem_of_map_to_list.
Qed.

Lemma promise_all_alls hs w :
  (promise_all hs w).1 = next w ∧
  next (promise_all hs w).2 = S (next w) ∧
  alls (promise_all hs w).2
  = <[next w := {| a_values := replicate (length hs) None;
                   a_status := match hs with
                               | [] => AFulfilled []
                               | _ => APending
                               end;
                   a_then := [] |}]> (alls w).
Proof.
  unfold promise_all, fst, snd.
  match goal with
  | |- context [subscribe_all ?a ?i ?hs ?w1] =>
      destruct (subscribe_all_only_promises a i hs w1) as (_&->&_&->&_)
  end.
  done.
Qed.


(** ** Total removal when nothing else is under way *)


(** ** The removals subscribed by [update], over time *)

Lemma removal_of_mono rm ctx removed w w' e :
  (∀ h s, status w h = Some s → status w' h = Some s) →
  removal_of rm ctx removed w e → removal_of rm ctx removed w' e.
Proof.
  intros Hmono. destruct e as [| f c v | v]; simpl; [done| |].
  - intros (?&?&h&?&?). repeat split; try done. exists h. auto.
  - intros (?&h&?&?). split; [done|]. exists h. auto.
Qed.

Lemma call_events_removal_of rm ctx removed w v h :
  h ∈ removed → status w h = Some (SFul v) →
  Forall (removal_of rm ctx removed w) (call_events rm ctx v).
Proof.
  intros Hin Hs. destruct rm; simpl; repeat constructor; try done;
    by exists h.
Qed.

Lemma detaching_settle w1 rm ctx removed n s w :
  detaching w1 rm ctx removed w → detaching w1 rm ctx removed (settle n s w).
Proof.
  intros (Hreact&Hjobs&Hthen&Hvl&evs&Hlog&Hevs).
  destruct (settle_spec n s w) as (Hvl'&Hlog'&Halls&_&_&Hs).
  destruct (ext_state w n) as [rs0|s0] eqn:En;
    [|rewrite Hs; by repeat split; try done; exists evs].
  destruct Hs as [Hq Hext].
  assert (∀ h s', status w h = Some s' → status (settle n s w) h = Some s')
    as Hmono by (intros; by apply settle_status).
  split; [|split; [|split; [|split]]].
  - intros n' rs r Hn'. rewrite Hext in Hn'. case_decide; [done|].
    by apply Hreact.
  - intros j. rewrite Hq, elem_of_app. intros [Hin|Hin].
    + specialize (Hjobs j Hin). destruct j as [[f c|] s'|]; try done.
      destruct Hjobs as (?&?&h&?&?). repeat split; try done. exists h. auto.
    + apply list_elem_of_fmap in Hin as (r&->&Hr).
      specialize (Hreact n rs0 r En Hr). destruct r as [f c|]; [|done].
      destruct Hreact as (?&?&?). repeat split; try done.
      exists (HExt n). split; [done|]. simpl. rewrite Hext.
      by rewrite decide_True.
  - intros b g. rewrite Halls. apply Hthen.
  - by rewrite Hvl'.
  - exists evs. rewrite Hlog'. split; [done|].
    eapply Forall_impl; [done|]. intros e. by apply removal_of_mono.
Qed.

Lemma detaching_tick w1 rm ctx removed w :
  detaching w1 rm ctx removed w → detaching w1 rm ctx removed (tick w).
Proof.
  intros Hdet. unfold tick. destruct (queue w) as [|j q] eqn:Eq; [done|].
  set (wq := set_queue q w).
  pose proof Hdet as (Hreact&Hjobs&Hthen&Hvl&evs&Hlog&Hevs).
  pose proof (Hjobs j) as Hj. rewrite Eq in Hj. specialize (Hj (list_elem_of_here _ _)).
  assert (∀ j', j' ∈ q → j' ∈ queue w) as Hq'
    by (intros; rewrite Eq; by apply elem_of_cons; right).
  destruct j as [[f c|b i] s|d t]; [| |done].
  - destruct Hj as (-> & -> & h & Hh & Hs).
    destruct (run_job_remove rm ctx s wq) as (Hlog'&Hvl'&Hext&Halls&_&_&Hqq).
    set (w' := run_job _ wq) in *. clearbody w'.
    assert (∀ h, status w' h = status w h) as Hstatus
      by (intros; by apply status_ext).
    split; [|split; [|split; [|split]]].
    + intros n rs r Hn. rewrite (ext_state_ext _ _ _ Hext) in Hn.
      by apply Hreact.
    + intros j. rewrite Hqq. intros Hin. specialize (Hjobs j (Hq' j Hin)).
      destruct j as [[f c|] s'|]; try done.
      destruct Hjobs as (?&?&h'&?&?). repeat split; try done.
      exists h'. by rewrite Hstatus.
    + intros b g. rewrite Halls. apply Hthen.
    + by rewrite Hvl'.
    + eexists. rewrite Hlog'. change (log wq) with (log w).
      rewrite Hlog, <- app_assoc. split; [done|]. apply Forall_app. split.
      * eapply Forall_impl; [done|]. intros e. apply removal_of_mono.
        intros. by rewrite Hstatus.
      * destruct s as [v|e]; [|done].
        apply (call_events_removal_of _ _ _ _ _ h); [done|].
        by rewrite Hstatus.
  - destruct (alls wq !! b) as [gb|] eqn:Hgb.
    2:{ rewrite run_job_all_element_none by done.
        repeat split; try done.
        - intros j' Hin. by apply Hjobs, Hq'.
        - by exists evs. }
    destruct (run_job_all_element b i s wq gb Hgb)
      as (Halls&Hqq&Hvl'&Hlog'&Hext&_).
    set (w' := run_job _ wq) in *. clearbody w'.
    assert (a_then gb = []) as Hgbthen by (by eapply Hthen).
    assert (∀ h, status w' h = status w h) as Hstatus
      by (intros; by apply status_ext).
    split; [|split; [|split; [|split]]].
    + intros n rs r Hn. rewrite (ext_state_ext _ _ _ Hext) in Hn.
      by apply Hreact.
    + assert (queue w' = q) as ->.
      { rewrite Hqq, Hgbthen. change (queue wq) with q.
        destruct (react_all gb i s).2; apply app_nil_r. }
      intros j Hin. specialize (Hjobs j (Hq' j Hin)).
      destruct j as [[f c|] s'|]; try done.
      destruct Hjobs as (?&?&h'&?&?). repeat split; try done.
      exists h'. by rewrite Hstatus.
    + intros b' g'. rewrite Halls.
      destruct (decide (b = b')) as [<-|Hbb].
      * rewrite lookup_insert_eq. intros [= <-].
        destruct (decide (a_status gb = APending)) as [Hp|Hp].
        -- pose proof (react_all_pending gb i s Hp) as Hr.
           destruct (react_all gb i s).2; destruct Hr as [_ ->]; done.
        -- destruct (react_all_settled gb i s Hp) as (_&_&->). done.
      * rewrite lookup_insert_ne by done. apply Hthen.
    + by rewrite Hvl'.
    + exists evs. rewrite Hlog'. split; [done|].
      eapply Forall_impl; [done|]. intros e. apply removal_of_mono.
      intros. by rewrite Hstatus.
Qed.

Lemma detaching_run w1 rm ctx removed acts w :
  hands_off acts = true →
  detaching w1 rm ctx removed w → detaching w1 rm ctx removed (run w acts).
Proof.
  apply (hands_off_ind (detaching w1 rm ctx removed)).
  - intros; by apply detaching_settle.
  - intros; by apply detaching_tick.
Qed.

Lemma tick_cons j q w : queue w = j :: q → tick w = run_job j (set_queue q w).
Proof. intros H. unfold tick. by rewrite H. Qed.

(** Microtasks for removals at the head of the queue call the hook, one
    view after the other. *)
Lemma ticks_removals f ctx ss : ∀ q w,
  queue w = (JReact (OnRemove f ctx) <$> ss) ++ q →
  let w' := ticks (length ss) w in
  log w' = log w ++ concat (removal_events f ctx <$> ss) ∧
  queue w' = q ∧ vl w' = vl w ∧ ext w' = ext w ∧ alls w' = alls w ∧
  dones w' = dones w.
Proof.
  induction ss as [|s ss IH]; intros q w Hq.
  - simpl. rewrite app_nil_r. by repeat split.
  - change (ticks (length (s :: ss)) w) with (ticks (length ss) (tick w)).
    rewrite (tick_cons _ _ _ Hq).
    destruct (run_job_remove f ctx s
      (set_queue ((JReact (OnRemove f ctx) <$> ss) ++ q) w))
      as (Hlog&Hvl&Hext&Halls&Hd&_&Hqq).
    set (w1 := run_job _ _) in *. clearbody w1.
    destruct (IH q w1 Hqq) as (Hlog'&?&Hvl'&Hext'&Halls'&Hd').
    cbv zeta.
    rewrite Hlog', Hlog, Hvl', Hvl, Hext', Hext, Halls', Halls, Hd', Hd.
    simpl. by rewrite <- app_assoc.
Qed.

Lemma omap_fmap_option {A B C} (f : A → option B) (g : B → C) (l : list A) :
  omap (λ x, g <$> f x) l = g <$> omap f l.
Proof.
  induction l as [|x l IH]; [done|]. csimpl. rewrite IH.
  by destruct (f x).
Qed.

Lemma omap_fmap_compose {A B C} (f : B → option C) (g : A → B) (l : list A) :
  omap f (g <$> l) = omap (λ x, f (g x)) l.
Proof.
  induction l as [|x l IH]; [done|]. csimpl. by rewrite IH.
Qed.

Lemma create_from_creations create context ms : ∀ i w,
  ∃ evs, log (create_from create context i ms w).1 = log w ++ evs ∧
         Forall is_creation evs.
Proof.
  induction ms as [|m ms IH]; intros i w; simpl.
  - exists []. by rewrite app_nil_r.
  - destruct (create_hook (log w) create context m i) as [v|n|e].
    + destruct (IH (S i) (push_view (HNow (next w) v)
        (emit (EvCreate create context m i (Some (HNow (next w) v))) (bump w))))
        as (evs&->&Hevs).
      eexists (_ :: evs). simpl. rewrite <- app_assoc. split; [done|].
      by constructor.
    + destruct (IH (S i) (push_view (HExt n)
        (emit (EvCreate create context m i (Some (HExt n))) w)))
        as (evs&->&Hevs).
      eexists (_ :: evs). simpl. rewrite <- app_assoc. split; [done|].
      by constructor.
    + simpl. eexists. split; [done|]. by repeat constructor.
Qed.

Lemma update_promises new_models create_view remove_view context w ms vs :
  _models (vl w) = Some ms → views (vl w) = Some vs →
  let p := common_prefix new_models ms in
  let R := OnRemove (remove_or remove_view (vl w))
             (js_or context (_handler_context (vl w))) in
  let removed := drop p vs in
  let w' := (update new_models create_view remove_view context w).1 in
  (∀ h, status w' h = status w h) ∧
  (∃ js, queue w' = queue w ++ omap (λ h, JReact R <$> status w h) removed ++ js
         ∧ Forall is_all_job js) ∧
  (∀ n, match ext_state w n with
        | Pending rs =>
            ∃ rs', ext_state w' n
                   = Pending (rs ++ omap (λ h, if decide (h = HExt n)
                                               then Some R else None) removed
                                 ++ rs') ∧
                   Forall is_all_reaction rs'
        | Settled s => ext_state w' n = Settled s
        end) ∧
  (∀ b g, alls w' !! b = Some g → alls w !! b = Some g ∨ a_then g = []) ∧
  (∃ evs, log w' = log w ++ evs ∧ Forall is_creation evs).
Proof.
  intros Hms Hvs p R removed w'. subst w'.
  rewrite (update_unfold _ _ _ _ _ _ _ Hms Hvs). cbv zeta.
  fold p removed R. rewrite foldl_subscribe_each.
  set (ps := (λ h, (R, h)) <$> removed).
  set (w1 := set_views (Some (take p vs)) w).
  set (w2 := subscribe_each ps w1).
  destruct (subscribe_each_only_promises ps w1) as (_&Halls2&_&_&Hlog2).
  fold w2 in Halls2, Hlog2.
  assert (∀ h, status w2 h = status w h) as Hstatus2
    by (intros; unfold w2; by rewrite subscribe_each_status).
  assert (queue w2 = queue w ++ omap (λ h, JReact R <$> status w h) removed)
    as Hq2.
  { unfold w2. rewrite subscribe_each_queue. unfold ps.
    by rewrite omap_fmap_compose. }
  assert (∀ n, ext_state w2 n
     = match ext_state w n with
       | Pending rs =>
           Pending (rs ++ omap (λ h, if decide (h = HExt n)
                                     then Some R else None) removed)
       | Settled s => Settled s
       end) as Hext2.
  { intros n. unfold w2. rewrite subscribe_each_ext_state.
    change (ext_state w1 n) with (ext_state w n).
    destruct (ext_state w n) as [rs0|]; [|done].
    unfold ps. by rewrite omap_fmap_compose. }
  pose proof (create_from_creations
    (js_or create_view (_create_view (vl w)))
    (js_or context (_handler_context (vl w))) (drop p new_models) p w2)
    as (evs&Hlog3&Hevs).
  destruct (create_from _ _ _ _ w2) as [w3 r] eqn:Hcr.
  apply create_from_spec in Hcr
    as (_&_&_&_&_&_&_&_&Hext3&Halls3&_&Hq3&_&_).
  unfold fst in Hlog3. rewrite Hlog2 in Hlog3. simpl in Hlog3.
  assert (∀ h, status w3 h = status w h) as Hstatus3
    by (intros; by rewrite (status_ext _ _ _ Hext3)).
  destruct r as [e|]; unfold fst.
  - split; [done|]. split.
    { exists []. by rewrite app_nil_r, Hq3, Hq2. }
    split.
    { intros n. rewrite (ext_state_ext _ _ _ Hext3), Hext2.
      destruct (ext_state w n) as [rs|]; [|done].
      exists []. by rewrite app_nil_r. }
    split; [|by exists evs].
    intros b g. rewrite Halls3, Halls2. auto.
  - set (w4 := set_models (Some new_models) w3).
    pose proof (promise_all_fields (default [] (views (vl w4))) w4)
      as (_&_&Hlog5).
    pose proof (promise_all_subscribes (default [] (views (vl w4))) w4)
      as ((js&Hq5&Hjs)&Hext5).
    pose proof (promise_all_alls (default [] (views (vl w4))) w4)
      as (_&_&Halls5).
    assert (∀ h, status (promise_all (default [] (views (vl w4))) w4).2 h
                 = status w4 h) as Hstatus5.
    { intros h. unfold promise_all, snd.
      by rewrite subscribe_all_each, subscribe_each_status. }
    destruct (promise_all _ w4) as [a5 w5]. unfold fst, snd in *.
    split; [intros h; rewrite Hstatus5; exact (Hstatus3 h)|]. split.
    { exists js. rewrite Hq5. change (queue w4) with (queue w3).
      by rewrite Hq3, Hq2, <- app_assoc. }
    split.
    { intros n. specialize (Hext5 n).
      change (ext_state w4 n) with (ext_state w3 n) in Hext5.
      rewrite (ext_state_ext _ _ _ Hext3), Hext2 in Hext5.
      destruct (ext_state w n) as [rs|]; [|done].
      destruct Hext5 as (rs'&->&Hrs'). exists rs'.
      by rewrite <- app_assoc. }
    split; [|exists evs; by rewrite Hlog5].
    intros b g. rewrite Halls5.
    destruct (decide (next w4 = b)) as [<-|Hne].
    + rewrite lookup_insert_eq. intros [= <-]. by right.
    + rewrite lookup_insert_ne by done. simpl. rewrite Halls3, Halls2. auto.
Qed.

Lemma update_detaching new_models create_view remove_view context w ms vs :
  _models (vl w) = Some ms → views (vl w) = Some vs → calm w = true →
  let w' := (update new_models create_view remove_view context w).1 in
  detaching w' (remove_or remove_view (vl w))
    (js_or context (_handler_context (vl w)))
    (drop (common_prefix new_models ms) vs) w'.
Proof.
  intros Hms Hvs (_&Hq0&Hreact&Hthen)%calm_facts w'.
  destruct (update_promises new_models create_view remove_view context
              w ms vs Hms Hvs) as (Hstatus&(js&Hq&Hjs)&Hext&Halls&_).
  fold w' in Hstatus, Hq, Hext, Halls. rewrite Hq0 in Hq. simpl in Hq.
  split; [|split; [|split; [|split]]].
  - intros n rs r0 Hn Hin. specialize (Hext n).
    destruct (ext_state w n) as [rs0|] eqn:En; [|congruence].
    destruct Hext as (rs'&Hn'&Hrs'). rewrite Hn' in Hn. injection Hn as <-.
    apply elem_of_app in Hin as [Hin|Hin].
    + specialize (Hreact n rs0 En). rewrite Forall_forall in Hreact.
      specialize (Hreact r0 Hin). by destruct r0.
    + apply elem_of_app in Hin as [Hin|Hin].
      * apply list_elem_of_omap in Hin as (h&Hh&Hr).
        case_decide; [|done]. by simplify_eq.
      * rewrite Forall_forall in Hrs'. specialize (Hrs' r0 Hin).
        by destruct r0.
  - intros j. rewrite Hq, elem_of_app. intros [Hin|Hin].
    + apply list_elem_of_omap in Hin as (h&Hh&Hj).
      destruct (status w h) as [s|] eqn:Es; simpl in Hj; [|done].
      injection Hj as <-. repeat split; try done.
      exists h. by rewrite Hstatus.
    + rewrite Forall_forall in Hjs. specialize (Hjs j Hin).
      by destruct j as [[]|].
  - intros b g Hg. destruct (Halls b g Hg); [by eapply Hthen|done].
  - done.
  - exists []. by rewrite app_nil_r.
Qed.

Lemma update_threw_models new_models create_view remove_view context w ms vs w' e :
  _models (vl w) = Some ms → views (vl w) = Some vs →
  update new_models create_view remove_view context w = (w', Threw e) →
  _models (vl w') = Some ms ∧ alls w' = alls w.
Proof.
  intros Hms Hvs Hup.
  rewrite (update_unfold _ _ _ _ _ _ _ Hms Hvs) in Hup. cbv zeta in Hup.
  revert Hup. set (w2 := foldl _ _ _).
  destruct (foldl_subscribe_only_promises
    (OnRemove (remove_or remove_view (vl w))
       (js_or context (_handler_context (vl w))))
    (drop (common_prefix new_models ms) vs)
    (set_views (Some (take (common_prefix new_models ms) vs)) w))
    as (Hvl&Halls&_).
  fold w2 in Hvl, Halls.
  destruct (create_from _ _ _ _ w2) as [w3 [e'|]] eqn:Hcr.
  - intros [= <- <-].
    apply create_from_spec in Hcr as (_&_&_&Hm&_&_&_&_&_&Ha&_).
    rewrite Hm, Hvl, Ha, Halls. by simpl.
  - by destruct (promise_all _ _).
Qed.

(** ** The hooks of the removals *)

(** C10.  Let [update] be called with a removal hook and a context, on a
    list with views [vs] made by whatever earlier calls.  Let [rm] be the
    hook given to this call when it is truthy, the hook stored at
    construction otherwise, and [ctx] the context given to this call when
    it is truthy, the context stored at construction otherwise.  For each
    handle the call detaches, in order, the call queues the microtask that
    calls [rm] with [ctx] if the handle is settled, and subscribes that
    call to the handle if it is pending, behind the reactions the handle
    has; beyond these the call queues and subscribes only what its
    [Promise.all] needs.  The reactions of a promise become microtasks, in
    order, when it is settled, and the microtask of such a removal logs
    the call of [rm] with [ctx] on the view.  Hence, when no other
    removal is under way at the time of the call, whatever the embedder
    then settles and however many microtasks run, every call logged after
    [update] is a call of [rm] with [ctx] on the view of a detached handle
    ([remove()] being called on a view only when no hook was given and the
    stored one is the default); and the detached handles that are
    fulfilled at the time of the call get these calls, for their views in
    order, from the first microtasks. *)
Theorem removals_use_the_hooks_of_the_call
    new_models create_view remove_view context w ms vs :
  _models (vl w) = Some ms → views (vl w) = Some vs →
  let rm := if truthy remove_view then UserRemove remove_view
            else _remove_view (vl w) in
  let ctx := if truthy context then context else _handler_context (vl w) in
  let removed := drop (common_prefix new_models ms) vs in
  let w1 := (update new_models create_view remove_view context w).1 in
  (∃ js, queue w1 = queue w
                    ++ omap (λ h, JReact (OnRemove rm ctx) <$> status w h)
                         removed
                    ++ js ∧
         Forall is_all_job js) ∧
  (∀ n, match ext_state w n with
        | Pending rs =>
            ∃ rs', ext_state w1 n
                   = Pending (rs ++ omap (λ h, if decide (h = HExt n)
                                               then Some (OnRemove rm ctx)
                                               else None) removed
                                 ++ rs') ∧
                   Forall is_all_reaction rs'
        | Settled s => ext_state w1 n = Settled s
        end) ∧
  (∀ n s w2 rs, ext_state w2 n = Pending rs →
     queue (settle n s w2) = queue w2 ++ ((λ r, JReact r s) <$> rs)) ∧
  (∀ v w2, log (run_job (JReact (OnRemove rm ctx) (SFul v)) w2)
           = log w2 ++ call_events rm ctx v) ∧
  (calm w = true → ∀ acts, hands_off acts = true →
     ∃ evs, log (run w1 acts) = log w1 ++ evs ∧
       Forall (λ e, match e with
                    | EvRemove f c v =>
                        f = rm ∧ c = ctx ∧
                        ∃ h, h ∈ removed ∧
                             status (run w1 acts) h = Some (SFul v)
                    | EvViewRemove v =>
                        truthy remove_view = false ∧
                        _remove_view (vl w) = DefaultRemove
                    | EvCreate _ _ _ _ _ => False
                    end) evs) ∧
  (calm w = true →
   let settled := omap (status w) removed in
   log (ticks (length settled) w1)
   = log w1 ++ concat (removal_events rm ctx <$> settled)).
Proof.
  intros Hms Hvs rm ctx removed w1.
  destruct (update_promises new_models create_view remove_view context
              w ms vs Hms Hvs) as (_&(js&Hq&Hjs)&Hext&_).
  fold w1 removed in Hq, Hext.
  change (remove_or remove_view (vl w)) with rm in Hq, Hext.
  change (js_or context (_handler_context (vl w))) with ctx in Hq, Hext.
  split; [by exists js|]. split; [done|]. split; [|split; [|split]].
  - intros n s w2 rs Hn. destruct (settle_spec n s w2) as (_&_&_&_&_&Hs).
    rewrite Hn in Hs. by destruct Hs.
  - intros v w2. by destruct (run_job_remove rm ctx (SFul v) w2) as [? _].
  - intros Hcalm acts Hacts.
    pose proof (update_detaching new_models create_view remove_view context
                  w ms vs Hms Hvs Hcalm) as Hdet.
    fold w1 removed in Hdet.
    change (remove_or remove_view (vl w)) with rm in Hdet.
    change (js_or context (_handler_context (vl w))) with ctx in Hdet.
    destruct (detaching_run _ _ _ _ acts _ Hacts Hdet) as (_&_&_&_&evs&Hlog&Hevs).
    exists evs. split; [done|].
    eapply Forall_impl; [done|]. intros [| f c v | v]; simpl; [done|done|].
    intros [Hrm _]. unfold rm in Hrm.
    by destruct (truthy remove_view).
  - intros Hcalm. destruct (calm_facts w Hcalm) as (_&Hq0&_).
    rewrite Hq0, omap_fmap_option in Hq. simpl in Hq.
    by destruct (ticks_removals rm ctx _ js w1 Hq) as (?&_).
Qed.

(** ** Every world a new list can reach is tidy *)

Lemma tidy_spec w : tidy w = true ↔ tidy_at (next w) w.
Proof.
  unfold tidy. rewrite andb_true_iff, !forallb_forall. split.
  - intros [Hq Hext]. split.
    + intros n rs a k Hn Hin. unfold ext_state in Hn.
      destruct (ext w !! n) as [p|] eqn:E; simpl in Hn;
        [subst p|injection Hn as <-; by inversion Hin].
      specialize (Hext (n, Pending rs)). simpl in Hext.
      rewrite forallb_forall in Hext.
      assert (reaction_tidy (next w) (OnAllElement a k) = true) as Ht.
      { apply Hext; [|by apply list_elem_of_In].
        apply list_elem_of_In. by apply elem_of_map_to_list. }
      by apply Nat.ltb_lt in Ht.
    + intros a k s Hin. apply list_elem_of_In, Hq in Hin.
      by apply Nat.ltb_lt in Hin.
  - intros [Hr Hj]. split.
    + intros [[f c|a k] s|d t] Hin; simpl; try done.
      apply Nat.ltb_lt. eapply Hj. by apply list_elem_of_In.
    + intros [n [rs|s]] Hin; simpl; [|done].
      apply list_elem_of_In, elem_of_map_to_list in Hin.
      apply forallb_forall. intros [f c|a k] Hr'; simpl; [done|].
      apply Nat.ltb_lt. apply (Hr n rs a k); [|by apply list_elem_of_In].
      unfold ext_state. by rewrite Hin.
Qed.

Lemma tidy_at_mono b b' w : tidy_at b w → b ≤ b' → tidy_at b' w.
Proof.
  intros [Hr Hj] Hb. split.
  - intros n rs a k Hn Hin. specialize (Hr n rs a k Hn Hin). lia.
  - intros a k s Hin. specialize (Hj a k s Hin). lia.
Qed.

Lemma tidy_at_frame b w w' :
  tidy_at b w → ext w' = ext w → queue w' = queue w → tidy_at b w'.
Proof.
  intros [Hr Hj] Hext Hq. split.
  - intros n rs a k Hn. rewrite (ext_state_ext _ _ _ Hext) in Hn.
    by apply (Hr n).
  - intros a k s. rewrite Hq. apply Hj.
Qed.

Lemma tidy_at_subscribe_each b ps w :
  tidy_at b w → Forall (λ p, ∀ a k, p.1 = OnAllElement a k → a < b) ps →
  tidy_at b (subscribe_each ps w).
Proof.
  intros [Hr Hj] Hps. rewrite Forall_forall in Hps. split.
  - intros n rs a k Hn Hin. rewrite subscribe_each_ext_state in Hn.
    destruct (ext_state w n) as [rs0|] eqn:E; [|done]. injection Hn as <-.
    apply elem_of_app in Hin as [Hin|Hin]; [by apply (Hr n rs0 a k)|].
    apply list_elem_of_omap in Hin as (p&Hp&Hq).
    case_decide; [|done]. injection Hq as Hq. by apply (Hps p Hp a k).
  - intros a k s Hin. rewrite subscribe_each_queue in Hin.
    apply elem_of_app in Hin as [Hin|Hin]; [by apply (Hj a k s)|].
    apply list_elem_of_omap in Hin as (p&Hp&Hq).
    destruct (status w p.2); simpl in Hq; [|done]. injection Hq as Hq _.
    by apply (Hps p Hp a k).
Qed.

Lemma tidy_at_promise_all hs w :
  tidy_at (next w) w →
  tidy_at (next (promise_all hs w).2) (promise_all hs w).2.
Proof.
  intros Ht. destruct (promise_all_alls hs w) as (_&->&_).
  unfold promise_all, snd. rewrite subscribe_all_each.
  apply tidy_at_subscribe_each.
  - apply (tidy_at_frame _ w); [|done|done]. apply (tidy_at_mono (next w)); [done|lia].
  - apply Forall_forall. intros p Hp a k Hr.
    apply elem_of_lookup_imap in Hp as (i&h&->&_). simpl in Hr.
    injection Hr as <- _. lia.
Qed.

Lemma tidy_at_update new_models create_view remove_view context w :
  tidy_at (next w) w →
  let w' := (update new_models create_view remove_view context w).1 in
  tidy_at (next w') w'.
Proof.
  intros Ht w'. subst w'.
  destruct (first_divergence new_models (_models (vl w))) as [p|e] eqn:Hp.
  2:{ rewrite update_threw_early by (left; by exists e). done. }
  destruct (views (vl w)) as [vs|] eqn:Hvs.
  2:{ rewrite update_threw_early by (by right). done. }
  rewrite (update_unfold_at _ _ _ _ _ _ _ Hp Hvs). cbv zeta.
  rewrite foldl_subscribe_each.
  set (ps := (λ h, (_, h)) <$> drop p vs).
  set (w1 := set_views (Some (take p vs)) w).
  set (w2 := subscribe_each ps w1).
  destruct (subscribe_each_only_promises ps w1) as (_&_&_&Hnext2&_).
  fold w2 in Hnext2. simpl in Hnext2.
  assert (tidy_at (next w) w2) as Ht2.
  { apply tidy_at_subscribe_each; [by apply (tidy_at_frame _ w)|].
    apply Forall_forall. intros [r h] Hin a k Hr. unfold ps in Hin.
    apply list_elem_of_fmap in Hin as (?&[= -> ->]&_). done. }
  destruct (create_from _ _ _ _ w2) as [w3 r] eqn:Hcr.
  apply create_from_spec in Hcr
    as (_&_&_&_&_&_&_&_&Hext3&_&_&Hq3&Hnext3&_).
  assert (tidy_at (next w3) w3) as Ht3.
  { apply (tidy_at_frame _ w2); [|done|done].
    apply (tidy_at_mono (next w)); [done|lia]. }
  destruct r as [e|]; [done|]. cbv zeta.
  pose proof (tidy_at_promise_all
    (default [] (views (vl (set_models (Some new_models) w3))))
    (set_models (Some new_models) w3)) as Hpa.
  destruct (promise_all _ _) as [a5 w5]. apply Hpa.
  by apply (tidy_at_frame _ w3).
Qed.

Lemma tidy_at_remove w :
  tidy_at (next w) w → tidy_at (next (remove w).1) (remove w).1.
Proof.
  intros Ht. unfold remove.
  assert (∀ x : nat * world, tidy_at (next x.2) x.2 →
    let w1 := (let '(a, w1) := x in
       (then_remove_all a (next w1) (set_done (next w1) DPending (bump w1)),
        next w1)).1 in
    tidy_at (next w1) w1) as Haux.
  { intros [a w1] [Hr Hj]. simpl in *. unfold then_remove_all. simpl.
    assert (∀ js w2, ext w2 = ext w1 → queue w2 = queue w1 ++ js →
      next w2 = S (next w1) → Forall (λ j, ¬ is_all_job j) js →
      tidy_at (next w2) w2) as Hgen.
    { intros js w2 Hext Hq -> Hjs. rewrite Forall_forall in Hjs. split.
      - intros n rs a' k Hn Hin. rewrite (ext_state_ext _ _ _ Hext) in Hn.
        specialize (Hr n rs a' k Hn Hin). lia.
      - intros a' k s. rewrite Hq, elem_of_app. intros [Hin|Hin].
        + specialize (Hj a' k s Hin). lia.
        + exfalso. by apply (Hjs _ Hin). }
    destruct (alls w1 !! a) as [g|]; [destruct (a_status g)|].
    - by apply (Hgen []); [|simpl; rewrite app_nil_r|..].
    - apply (Hgen [JRemoveAll (next w1) (AFul vs)]); try done.
      apply Forall_singleton. by intros [].
    - apply (Hgen [JRemoveAll (next w1) (ARej e)]); try done.
      apply Forall_singleton. by intros [].
    - by apply (Hgen []); [|simpl; rewrite app_nil_r|..]. }
  destruct (views (vl w)) as [vs|].
  - apply Haux. by apply tidy_at_promise_all.
  - apply Haux. simpl. apply (tidy_at_frame _ w); [|done|done].
    apply (tidy_at_mono (next w)); [done|lia].
Qed.

Lemma tidy_at_settle n s w :
  tidy_at (next w) w → tidy_at (next (settle n s w)) (settle n s w).
Proof.
  intros [Hr Hj]. destruct (settle_spec n s w) as (_&_&_&_&->&Hs).
  destruct (ext_state w n) as [rs0|s0] eqn:En; [|by rewrite Hs].
  destruct Hs as [Hq Hext]. split.
  - intros n' rs a k Hn'. rewrite Hext in Hn'. case_decide; [done|].
    by apply (Hr n').
  - intros a k s'. rewrite Hq, elem_of_app. intros [Hin|Hin].
    + by apply (Hj a k s').
    + apply list_elem_of_fmap in Hin as (r&[= <- <-]&Hin).
      by apply (Hr n rs0 a k).
Qed.

Lemma tidy_at_tick w : tidy_at (next w) w → tidy_at (next (tick w)) (tick w).
Proof.
  intros Ht. unfold tick. destruct (queue w) as [|j q] eqn:Eq; [done|].
  set (wq := set_queue q w).
  assert (tidy_at (next w) wq) as Hwq.
  { destruct Ht as [Hr Hj]. split; [done|]. intros a k s Hin.
    apply (Hj a k s). rewrite Eq. apply elem_of_cons. by right. }
  destruct j as [[f c|b i] s|d t].
  - destruct (run_job_remove f c s wq) as (_&_&Hext&_&_&->&Hq).
    by apply (tidy_at_frame _ wq).
  - destruct (alls wq !! b) as [g|] eqn:Hg.
    + destruct (run_job_all_element b i s wq g Hg) as (_&Hq&_&_&Hext&_&->).
      destruct Hwq as [Hr' Hj']. split.
      * intros n rs a k Hn. rewrite (ext_state_ext _ _ _ Hext) in Hn.
        by apply (Hr' n).
      * intros a k s'. rewrite Hq, elem_of_app. intros [Hin|Hin].
        -- by apply (Hj' a k s').
        -- destruct (react_all g i s).2; [|by inversion Hin].
           by apply list_elem_of_fmap in Hin as (?&[=]&_).
    + by rewrite run_job_all_element_none.
  - destruct (run_job_remove_all d t wq) as (Hext&_&->&Hq&_).
    by apply (tidy_at_frame _ wq).
Qed.

Lemma tidy_run this create_view remove_view context acts :
  tidy (run (fresh this create_view remove_view context) acts) = true.
Proof.
  apply tidy_spec.
  assert (tidy_at (next (fresh this create_view remove_view context))
            (fresh this create_view remove_view context)) as Ht.
  { split; [|intros a k s Hin; by inversion Hin].
    intros n rs a k Hn Hin. unfold ext_state in Hn. simpl in Hn.
    rewrite lookup_empty in Hn. injection Hn as <-. by inversion Hin. }
  revert Ht. generalize (fresh this create_view remove_view context).
  induction acts as [|a acts IH]; intros w Ht; [done|].
  simpl. apply IH. destruct a as [ms c r ctx| |n s|]; simpl.
  - by apply tidy_at_update.
  - by apply tidy_at_remove.
  - by apply tidy_at_settle.
  - by apply tidy_at_tick.
Qed.

(** ** A list that has been disposed of *)

(** X1.  On a list that has been disposed of, [update] throws a [TypeError]
    whatever it is given, reading [this._models.length] when there is a
    model to compare and calling [this.views.splice] when there is none:
    no hook has been called by then and nothing has changed. *)
Theorem update_after_dispose_throws
    new_models create_view remove_view context w :
  update new_models create_view remove_view context (dispose w)
  = (dispose w, Threw TypeError).
Proof. unfold update. by destruct new_models. Qed.

Lemma remove_pending w : dones (remove w).1 !! (remove w).2 = Some DPending.
Proof.
  unfold remove.
  assert (∀ x : nat * world,
    let r := (let '(a, w1) := x in
       (then_remove_all a (next w1) (set_done (next w1) DPending (bump w1)),
        next w1)) in
    dones r.1 !! r.2 = Some DPending) as Haux.
  { intros [a w1]. simpl. unfold then_remove_all. simpl.
    destruct (alls w1 !! a) as [g|]; [destruct (a_status g)|]; simpl;
      apply lookup_insert_eq. }
  destruct (views (vl w)); apply Haux.
Qed.

(** X2.  On a list that has been disposed of, [remove()] does not throw:
    [Promise.all(null)] is a promise rejected with a [TypeError], and the
    promise [remove()] returns is pending until the microtask that passes
    the rejection on has run.  That microtask is queued by the call; it
    rejects the promise with the [TypeError], calls no hook and leaves the
    list disposed of. *)
Theorem remove_after_dispose_rejects w :
  let d := (remove (dispose w)).2 in
  let w1 := (remove (dispose w)).1 in
  dones w1 !! d = Some DPending ∧
  vl w1 = vl (dispose w) ∧ log w1 = log w ∧
  queue w1 = queue w ++ [JRemoveAll d (ARej TypeError)] ∧
  ∀ q w2, queue w2 = JRemoveAll d (ARej TypeError) :: q →
    dones (tick w2) !! d = Some (DRejected TypeError) ∧
    log (tick w2) = log w2 ∧ vl (tick w2) = vl w2 ∧ queue (tick w2) = q.
Proof.
  intros d w1. split; [apply remove_pending|].
  destruct (remove_vl_log (dispose w)) as [Hvl Hlog].
  split; [done|]. split; [done|]. split.
  - subst d w1. unfold remove, promise_all_null, then_remove_all. simpl.
    by rewrite lookup_insert_eq.
  - intros q w2 Hq. rewrite (tick_cons _ _ _ Hq). simpl.
    by rewrite lookup_insert_eq.
Qed.

(** ** Where the scan stops *)

Lemma common_prefix_mismatch new_models models k x :
  new_models !! k = Some x →
  (∀ y, models !! k = Some y → strict_eq x y = false) →
  common_prefix new_models models ≤ k.
Proof.
  intros Hx Hne. apply Nat.nlt_ge. intros Hlt.
  destruct (common_prefix_agree new_models models k Hlt) as (x'&y&Hx'&Hy&Heq).
  rewrite Hx in Hx'. injection Hx' as <-. by rewrite (Hne y Hy) in Heq.
Qed.

Lemma common_prefix_self ms : common_prefix ms ms = length ms ↔ JNaN ∉ ms.
Proof.
  rewrite <- same_refs_refl. split; [|apply same_refs_common_prefix].
  induction ms as [|m ms IH]; [by constructor|]. simpl.
  destruct (strict_eq m m) eqn:Hm; [|done].
  intros [= H]. constructor; [done|by apply IH].
Qed.

Lemma common_prefix_shorter new_models models :
  same_refs new_models (take (length new_models) models) →
  common_prefix new_models models = length new_models.
Proof.
  revert models. induction new_models as [|x new' IH]; intros [|y old'] H;
    simpl in *; try done; [by inversion H|].
  inversion H as [|? ? ? ? Hxy Hrest]; subst. by rewrite Hxy, IH.
Qed.

Lemma common_prefix_longer new_models models :
  same_refs (take (length models) new_models) models →
  common_prefix new_models models = length models.
Proof.
  revert new_models. induction models as [|y old' IH]; intros [|x new'] H;
    simpl in *; try done; [by inversion H|].
  inversion H as [|? ? ? ? Hxy Hrest]; subst. by rewrite Hxy, IH.
Qed.

Lemma create_from_logs create context ms i w :
  ms ≠ [] → log (create_from create context i ms w).1 ≠ log w.
Proof.
  intros Hne.
  destruct (create_from create context i ms w) as [w' r] eqn:Hcr.
  apply create_from_spec in Hcr as (evs&Hlog&_&_&_&_&_&_&_&_&_&_&_&Hr).
  simpl. rewrite Hlog. intros Heq.
  assert (length evs = 0) as Hlen.
  { apply (f_equal length) in Heq. rewrite length_app in Heq. lia. }
  destruct r as [e|].
  - destruct Hr as (k&m&_&Hk&_). lia.
  - destruct Hr as [Hk _]. destruct ms; [done|]. simpl in Hk. lia.
Qed.

(** ** What the prefix scan does not see *)

(** X3.  The scan stops at the first index [k] at which the new model is not
    [===] to the stored one, or at which there is no stored one, and never
    looks further: every view at an index from [k] on is detached, its
    removal being queued when its handle is settled and subscribed to the
    handle when it is pending, and, when [update] returns, every model at
    an index from [k] on has had a creation call, be the models beyond [k]
    the stored ones or not. *)
Theorem update_recreates_from_first_change
    new_models create_view remove_view context w ms vs k x :
  _models (vl w) = Some ms → views (vl w) = Some vs →
  new_models !! k = Some x →
  (∀ y, ms !! k = Some y → strict_eq x y = false) →
  let rm := remove_or remove_view (vl w) in
  let create := js_or create_view (_create_view (vl w)) in
  let ctx := js_or context (_handler_context (vl w)) in
  let w' := (update new_models create_view remove_view context w).1 in
  (∀ j h, k ≤ j → vs !! j = Some h →
     match status w h with
     | Some s => JReact (OnRemove rm ctx) s ∈ queue w'
     | None => ∃ n rs, h = HExt n ∧ ext_state w' n = Pending rs ∧
                       OnRemove rm ctx ∈ rs
     end) ∧
  (∀ a, (update new_models create_view remove_view context w).2 = Returned a →
     ∃ evs, log w' = log w ++ evs ∧
       ∀ j m, k ≤ j → new_models !! j = Some m →
         ∃ h, EvCreate create ctx m j (Some h) ∈ evs).
Proof.
  intros Hms Hvs Hx Hne rm create ctx w'.
  pose proof (common_prefix_mismatch new_models ms k x Hx Hne) as Hp.
  set (p := common_prefix new_models ms) in Hp.
  split.
  - intros j h Hj Hh.
    destruct (update_promises new_models create_view remove_view context
                w ms vs Hms Hvs) as (_&(js&Hq&_)&Hext&_).
    fold p rm ctx w' in Hq, Hext.
    assert (h ∈ drop p vs) as Hin.
    { apply list_elem_of_lookup. exists (j - p). rewrite lookup_drop.
      by replace (p + (j - p)) with j by lia. }
    destruct (status w h) as [s|] eqn:Hs.
    + rewrite Hq. apply elem_of_app. right. apply elem_of_app. left.
      apply list_elem_of_omap. exists h. split; [done|]. by rewrite Hs.
    + destruct h as [i v|n]; [done|]. simpl in Hs. specialize (Hext n).
      destruct (ext_state w n) as [rs|s]; [|done].
      destruct Hext as (rs'&Hn&_). eexists n, _. split; [done|].
      split; [exact Hn|]. apply elem_of_app. right. apply elem_of_app. left.
      apply list_elem_of_omap. exists (HExt n). split; [done|].
      by rewrite decide_True.
  - intros a Ha.
    destruct (update new_models create_view remove_view context w)
      as [w1 res] eqn:Hup. simpl in Ha. subst res. subst w'. simpl.
    destruct (update_returned _ _ _ _ _ _ _ _ _ Hms Hvs Hup)
      as (evs&Hlog&_&_&_&_&Hev).
    exists evs. split; [done|]. intros j m Hj Hm.
    fold p in Hev. replace j with (p + (j - p)) in Hm by lia.
    destruct (Hev _ _ Hm) as (h&Hin&_). exists h.
    replace (p + (j - p)) with j in Hin by lia.
    by eapply list_elem_of_lookup_2.
Qed.

(** X4.  [update] with the very list of models that is stored calls no hook
    if and only if no model of the list is [NaN]: [NaN] is not [===] to
    itself, so the scan stops at the first [NaN] and a creation call is
    made for it again. *)
Theorem update_again_is_idle_unless_NaN
    create_view remove_view context w ms vs :
  _models (vl w) = Some ms → views (vl w) = Some vs →
  log (update ms create_view remove_view context w).1 = log w ↔ JNaN ∉ ms.
Proof.
  intros Hms Hvs. rewrite <- common_prefix_self.
  rewrite (update_unfold _ _ _ _ _ _ _ Hms Hvs). cbv zeta.
  set (p := common_prefix ms ms). set (w2 := foldl _ _ _).
  destruct (foldl_subscribe_only_promises
    (OnRemove (remove_or remove_view (vl w))
       (js_or context (_handler_context (vl w))))
    (drop p vs) (set_views (Some (take p vs)) w)) as (_&_&_&_&Hlog2).
  fold w2 in Hlog2. simpl in Hlog2.
  pose proof (common_prefix_le_new ms ms) as Hle. fold p in Hle.
  pose proof (create_from_logs
    (js_or create_view (_create_view (vl w)))
    (js_or context (_handler_context (vl w))) (drop p ms) p w2) as Hne.
  assert (log (create_from (js_or create_view (_create_view (vl w)))
                 (js_or context (_handler_context (vl w))) p (drop p ms) w2).1
          = log w ↔ p = length ms) as Hiff.
  { split.
    - intros Heq. destruct (decide (p = length ms)) as [|Hp]; [done|].
      exfalso. apply Hne; [|by rewrite Hlog2].
      intros Hnil. apply (f_equal length) in Hnil.
      rewrite length_drop in Hnil. simpl in Hnil. lia.
    - intros ->. by rewrite drop_all. }
  destruct (create_from _ _ _ _ w2) as [w3 [e|]]; [done|].
  pose proof (promise_all_fields
    (default [] (views (vl (set_models (Some ms) w3))))
    (set_models (Some ms) w3)) as (_&_&Hlog5).
  destruct (promise_all _ _) as [a5 w5]. unfold fst, snd in *.
  by rewrite Hlog5.
Qed.

(** ** Emptying, shortening and extending the list *)

(** X5.  [update([])] on a list with views [vs] cannot throw and calls no
    hook.  When it returns [views] and [_models] are empty already, the
    promise it returns is fulfilled from birth with the empty array, and
    the removal of every view is under way: queued, in the order of the
    list, for the handles that are settled, and subscribed to the handles
    that are pending.  ([remove()], by contrast, leaves [views] and
    [_models] as they are until its callback has run.) *)
Theorem update_with_no_models_detaches_all
    create_view remove_view context w vs :
  views (vl w) = Some vs →
  let R := OnRemove (remove_or remove_view (vl w))
             (js_or context (_handler_context (vl w))) in
  ∃ w' a,
    update [] create_view remove_view context w = (w', Returned a) ∧
    views (vl w') = Some [] ∧ _models (vl w') = Some [] ∧
    log w' = log w ∧
    alls w' !! a = Some {| a_values := []; a_status := AFulfilled [];
                           a_then := [] |} ∧
    queue w' = queue w ++ omap (λ h, JReact R <$> status w h) vs ∧
    (∀ n, ext_state w' n
          = match ext_state w n with
            | Pending rs =>
                Pending (rs ++ omap (λ h, if decide (h = HExt n)
                                          then Some R else None) vs)
            | Settled s => Settled s
            end) ∧
    vl (remove w).1 = vl w.
Proof.
  intros Hvs R.
  rewrite (update_unfold_at [] create_view remove_view context w 0 vs
             eq_refl Hvs).
  cbv zeta. fold R. rewrite foldl_subscribe_each.
  change (drop 0 vs) with vs. change (take 0 vs) with (@nil handle).
  change (drop 0 (@nil jsval)) with (@nil jsval). cbn [create_from].
  set (ps := (λ h, (R, h)) <$> vs).
  set (w1 := set_views (Some []) w).
  destruct (subscribe_each_only_promises ps w1) as (Hvl2&_&_&_&Hlog2).
  pose proof (subscribe_each_queue ps w1) as Hq2.
  pose proof (subscribe_each_ext_state ps w1) as Hext2.
  set (w2 := subscribe_each ps w1) in *.
  assert (default [] (views (vl (set_models (Some []) w2))) = []) as ->
    by (simpl; by rewrite Hvl2).
  unfold promise_all. cbn [subscribe_all length replicate].
  eexists _, _. split; [done|]. simpl.
  rewrite Hvl2, Hlog2, Hq2, lookup_insert_eq. simpl.
  repeat split; try done.
  - unfold ps. by rewrite omap_fmap_compose.
  - intros n. unfold ext_state in *. simpl in *. rewrite Hext2.
    destruct (default (Pending []) (ext w !! n)); [|done].
    unfold ps. by rewrite omap_fmap_compose.
  - by destruct (remove_vl_log w).
Qed.

(** X6.  Truncation.  When the new models are the first of the stored ones,
    under [===], [update] cannot throw and calls no hook: it keeps the
    views at the indices of the new models, detaches the rest and stores
    the new models. *)
Theorem update_with_a_prefix_only_detaches
    new_models create_view remove_view context w ms vs :
  _models (vl w) = Some ms → views (vl w) = Some vs →
  same_refs new_models (take (length new_models) ms) →
  ∃ w' a,
    update new_models create_view remove_view context w = (w', Returned a) ∧
    log w' = log w ∧
    views (vl w') = Some (take (length new_models) vs) ∧
    _models (vl w') = Some new_models.
Proof.
  intros Hms Hvs Hsame.
  rewrite (update_unfold _ _ _ _ _ _ _ Hms Hvs). cbv zeta.
  rewrite (common_prefix_shorter _ _ Hsame), drop_all. cbn [create_from].
  set (w2 := foldl _ _ _).
  destruct (foldl_subscribe_only_promises
    (OnRemove (remove_or remove_view (vl w))
       (js_or context (_handler_context (vl w))))
    (drop (length new_models) vs)
    (set_views (Some (take (length new_models) vs)) w)) as (Hvl2&_&_&_&Hlog2).
  fold w2 in Hvl2, Hlog2.
  pose proof (promise_all_fields
    (default [] (views (vl (set_models (Some new_models) w2))))
    (set_models (Some new_models) w2)) as (Hvl5&_&Hlog5).
  destruct (promise_all _ _) as [a5 w5]. unfold fst, snd in *.
  exists w5, a5. split; [done|]. rewrite Hvl5, Hlog5. simpl.
  by rewrite Hvl2, Hlog2.
Qed.

(** X7.  Extension.  When the stored models are the first of the new ones,
    under [===], and there are no more views than models, [update]
    detaches nothing: all it queues and subscribes is on behalf of its
    [Promise.all], every view stays where it is, and the calls it makes
    are creation calls, whose promises follow the views. *)
Theorem update_with_an_extension_only_creates
    new_models create_view remove_view context w ms vs :
  _models (vl w) = Some ms → views (vl w) = Some vs →
  length vs ≤ length ms →
  same_refs (take (length ms) new_models) ms →
  let w' := (update new_models create_view remove_view context w).1 in
  (∃ js, queue w' = queue w ++ js ∧ Forall is_all_job js) ∧
  (∀ n, match ext_state w n with
        | Pending rs => ∃ rs', ext_state w' n = Pending (rs ++ rs') ∧
                               Forall is_all_reaction rs'
        | Settled s => ext_state w' n = Settled s
        end) ∧
  ∃ evs, log w' = log w ++ evs ∧ Forall is_creation evs ∧
         views (vl w') = Some (vs ++ created_handles evs).
Proof.
  intros Hms Hvs Hlen Hsame w'.
  destruct (update_promises new_models create_view remove_view context
              w ms vs Hms Hvs) as (_&(js&Hq&Hjs)&Hext&_&(evs&Hlog&Hevs)).
  fold w' in Hq, Hext, Hlog.
  rewrite (common_prefix_longer _ _ Hsame) in Hq, Hext.
  rewrite drop_ge in Hq, Hext by done. simpl in Hq, Hext.
  split; [by exists js|]. split.
  - intros n. specialize (Hext n). by destruct (ext_state w n).
  - assert (first_divergence new_models (_models (vl w))
            = Returned (length ms)) as Hp.
    { by rewrite Hms, first_divergence_common_prefix,
         (common_prefix_longer _ _ Hsame). }
    destruct (update_fields_at new_models create_view remove_view context
                w _ vs Hp Hvs) as (evs'&Hlog'&Hviews&_).
    fold w' in Hlog', Hviews. rewrite Hlog in Hlog'.
    apply app_inv_head in Hlog' as <-.
    exists evs. rewrite take_ge in Hviews by done. by repeat split.
Qed.

(** ** What the promise returned by [update] is fulfilled with *)

(** X8.  Let [update] be called on a list made by any run in which every
    earlier [update] returned, and let it return too.  Then [views] holds
    one handle for each of the new models, the handle at an index being
    the promise a creation call made for the model at that index; and
    whatever the embedder then settles and however many microtasks run,
    the promise returned is fulfilled only with an array that holds, index
    by index, the views these handles are fulfilled with, and it is
    fulfilled with that array once the handles are all fulfilled and the
    microtask queue is empty. *)
Theorem update_result_lists_the_views
    this create_view0 remove_view0 context0 acts0
    new_models create_view remove_view context w' a acts :
  let w := run (fresh this create_view0 remove_view0 context0) acts0 in
  completes (fresh this create_view0 remove_view0 context0) acts0 = true →
  update new_models create_view remove_view context w = (w', Returned a) →
  hands_off acts = true →
  ∃ vs',
    views (vl w') = Some vs' ∧ length vs' = length new_models ∧
    (∀ i m h, new_models !! i = Some m → vs' !! i = Some h →
       ∃ f ctx, EvCreate f ctx m i (Some h) ∈ log w') ∧
    (∀ g vals, alls (run w' acts) !! a = Some g →
       a_status g = AFulfilled vals →
       length vals = length new_models ∧
       Forall2 (λ h v, status (run w' acts) h = Some (SFul v)) vs' vals) ∧
    (∀ vals, Forall2 (λ h v, status (run w' acts) h = Some (SFul v)) vs' vals →
       queue (run w' acts) = [] →
       ∃ g, alls (run w' acts) !! a = Some g ∧ a_status g = AFulfilled vals).
Proof.
  intros w Hc Hup Hacts.
  assert (aligned (vl w) (log w)) as Hal.
  { apply aligned_run; [done|]. exists [], []. by repeat split. }
  pose proof (tidy_run this create_view0 remove_view0 context0 acts0) as Htidy.
  fold w in Htidy.
  pose proof (aligned_update _ _ _ _ _ _ _ Hal Hup) as (ms'&vs'&Hms'&Hvs'&Hlen'&Hal').
  destruct Hal as (ms&vs&Hms&Hvs&_).
  destruct (update_returned _ _ _ _ _ _ _ _ _ Hms Hvs Hup)
    as (_&_&_&Hmodels&_).
  rewrite Hmodels in Hms'. injection Hms' as <-.
  destruct (update_watching _ _ _ _ _ _ _ _ _ Hms Hvs Htidy Hup)
    as (vs0&Hvs0&Hwatch).
  rewrite Hvs' in Hvs0. injection Hvs0 as <-.
  apply (watching_run _ _ acts _ Hacts) in Hwatch.
  exists vs'. split; [done|]. split; [done|]. split; [done|]. split.
  - intros g vals Hg Hst.
    pose proof (watching_fulfilled _ _ _ _ _ Hwatch Hg Hst) as Hall.
    split; [|done]. by rewrite <- (Forall2_length _ _ _ Hall).
  - intros vals Hall Hq. by eapply watching_drained_fulfilled.
Qed.

(** X10.  Nor does [dispose()] call off the removals of the views an [update]
    has detached.  After [update] and then [dispose()], the first
    microtasks still call the removal hook of that [update], with its
    context, on the views of the detached handles that were fulfilled at
    the time of the call, in the order of the list; the list stays
    disposed of. *)
Theorem detached_views_are_removed_after_dispose
    new_models create_view remove_view context w ms vs :
  _models (vl w) = Some ms → views (vl w) = Some vs → queue w = [] →
  let rm := remove_or remove_view (vl w) in
  let ctx := js_or context (_handler_context (vl w)) in
  let w1 := (update new_models create_view remove_view context w).1 in
  let settled := omap (status w) (drop (common_prefix new_models ms) vs) in
  let w' := ticks (length settled) (dispose w1) in
  log w' = log w1 ++ concat (removal_events rm ctx <$> settled) ∧
  views (vl w') = None ∧ _models (vl w') = None.
Proof.
  intros Hms Hvs Hq0 rm ctx w1 settled w'.
  destruct (update_promises new_models create_view remove_view context
              w ms vs Hms Hvs) as (_&(js&Hq&_)&_).
  fold w1 rm ctx in Hq. rewrite Hq0, omap_fmap_option in Hq. simpl in Hq.
  fold settled in Hq.
  destruct (ticks_removals rm ctx settled js (dispose w1) Hq)
    as (Hlog&_&Hvl&_).
  fold w' in Hlog, Hvl. split; [done|]. by rewrite Hvl.
Qed.

(** ** What no call changes, and how [update] can fail *)

Lemma step_call_defaults w c :
  self (vl (step_call w c)) = self (vl w) ∧
  _handler_context (vl (step_call w c)) = _handler_context (vl w) ∧
  _create_view (vl (step_call w c)) = _create_view (vl w) ∧
  _remove_view (vl (step_call w c)) = _remove_view (vl w).
Proof.
  destruct c as [[ms c r ctx| |n s|]|]; simpl.
  - apply update_keeps_defaults.
  - by destruct (remove_vl_log w) as [-> _].
  - by destruct (settle_vl_log n s w) as [-> _].
  - by destruct (tick_vl_log w) as [[-> | ->] _].
  - done.
Qed.

(** X11.  The hooks and the context given at construction are assigned by
    [initialize] and by nothing else: whatever is called on the list
    afterwards ([update] with or without hooks and context of its own,
    [remove()], [dispose()]), whatever the embedder settles and however
    many microtasks run, the list holds the creation hook it was given,
    the removal hook it was given or the default one, and the context it
    was given or itself. *)
Theorem hooks_of_construction_stay this create_view remove_view context calls :
  let l := vl (run_calls (fresh this create_view remove_view context) calls) in
  self l = this ∧
  _create_view l = create_view ∧
  _remove_view l = (if truthy remove_view then UserRemove remove_view
                    else DefaultRemove) ∧
  _handler_context l = (if truthy context then context else JRef this).
Proof.
  intros l. subst l.
  assert (∀ w,
    self (vl (run_calls w calls)) = self (vl w) ∧
    _handler_context (vl (run_calls w calls)) = _handler_context (vl w) ∧
    _create_view (vl (run_calls w calls)) = _create_view (vl w) ∧
    _remove_view (vl (run_calls w calls)) = _remove_view (vl w)) as Hkeep.
  { induction calls as [|c calls IH]; intros w; [done|]. simpl.
    destruct (IH (step_call w c)) as (-> & -> & -> & ->).
    apply step_call_defaults. }
  destruct (Hkeep (fresh this create_view remove_view context))
    as (-> & -> & -> & ->).
  done.
Qed.

Lemma whole_step_call w c : whole (vl w) → whole (vl (step_call w c)).
Proof.
  intros Hw. destruct c as [[ms c r ctx| |n s|]|]; simpl.
  - destruct Hw as [(ms0&vs0&Hms&Hvs)|[Hms Hvs]].
    + left. destruct (update ms c r ctx w) as [w' [a|e]] eqn:Hup; simpl.
      * destruct (update_returned _ _ _ _ _ _ _ _ _ Hms Hvs Hup)
          as (evs&_&?&?&_). by eexists _, _.
      * destruct (update_threw_models _ _ _ _ _ _ _ _ _ Hms Hvs Hup) as [? _].
        assert (first_divergence ms (_models (vl w))
                = Returned (common_prefix ms ms0)) as Hp
          by (by rewrite Hms, first_divergence_common_prefix).
        destruct (update_fields_at ms c r ctx w _ vs0 Hp Hvs) as (evs&_&Hv&_).
        rewrite Hup in Hv. by eexists _, _.
    + rewrite update_threw_early by (by right). by right.
  - by destruct (remove_vl_log w) as [-> _].
  - by destruct (settle_vl_log n s w) as [-> _].
  - destruct (tick_vl_log w) as [[-> | ->] _]; [done|]. left. by exists [], [].
  - by right.
Qed.

Lemma whole_run_calls this create_view remove_view context calls :
  whole (vl (run_calls (fresh this create_view remove_view context) calls)).
Proof.
  assert (whole (vl (fresh this create_view remove_view context))) as Hw
    by (left; by exists [], []).
  revert Hw. generalize (fresh this create_view remove_view context).
  induction calls as [|c calls IH]; intros w Hw; [done|].
  simpl. apply IH. by apply whole_step_call.
Qed.

(** X12.  [update] fails in two ways only, on any list made by calls of
    [update], [remove()] and [dispose()] in any order.  Either the list
    is disposed of ([views] is [null]): [update] throws a [TypeError] and
    nothing has changed.  Or a creation call for a model of the new list,
    at an index from the divergence point on, threw: [update] throws what
    that call threw. *)
Theorem update_fails_in_two_ways_only
    this create_view0 remove_view0 context0 calls
    new_models create_view remove_view context w' e :
  let w := run_calls (fresh this create_view0 remove_view0 context0) calls in
  update new_models create_view remove_view context w = (w', Threw e) →
  (views (vl w) = None ∧ e = TypeError ∧ w' = w) ∨
  (∃ ms evs k m,
     _models (vl w) = Some ms ∧ log w' = log w ++ evs ∧
     new_models !! (common_prefix new_models ms + k) = Some m ∧
     create_hook (log w ++ take k evs)
       (js_or create_view (_create_view (vl w)))
       (js_or context (_handler_context (vl w)))
       m (common_prefix new_models ms + k) = CThrow e).
Proof.
  intros w Hup.
  destruct (whole_run_calls this create_view0 remove_view0 context0 calls)
    as [(ms&vs&Hms&Hvs)|[Hms Hvs]]; fold w in Hms, Hvs.
  - right. destruct (update_threw _ _ _ _ _ _ _ _ _ Hms Hvs Hup)
      as (evs&k&m&?&?&?).
    by exists ms, evs, k, m.
  - left. split; [done|]. revert Hup. unfold update. rewrite Hms, Hvs.
    destruct new_models; simpl; by intros [= <- <-].
Qed.

Lemma subscribe_each_origin ps w :
  (∀ j, j ∈ queue (subscribe_each ps w) →
     j ∈ queue w ∨ ∃ p s, p ∈ ps ∧ j = JReact p.1 s) ∧
  (∀ n rs' r, ext_state (subscribe_each ps w) n = Pending rs' → r ∈ rs' →
     (∃ rs, ext_state w n = Pending rs ∧ r ∈ rs) ∨ ∃ p, p ∈ ps ∧ r = p.1).
Proof.
  split.
  - intros j. rewrite subscribe_each_queue, elem_of_app.
    intros [?|Hin]; [by left|]. right.
    apply list_elem_of_omap in Hin as (p&Hp&Hj).
    destruct (status w p.2) as [s|]; [|done]. simpl in Hj.
    injection Hj as <-. by exists p, s.
  - intros n rs' r. rewrite subscribe_each_ext_state.
    destruct (ext_state w n) as [rs|]; [|done]. intros [= <-].
    rewrite elem_of_app. intros [?|Hin]; [left; by exists rs|]. right.
    apply list_elem_of_omap in Hin as (p&Hp&Hr).
    case_decide; [|done]. injection Hr as <-. by exists p.
Qed.

(** [update] leaves the aggregates there are as they are, and what it
    queues and subscribes on behalf of an aggregate is on behalf of the
    one it makes. *)
Lemma update_fresh new_models create_view remove_view context w ms vs :
  _models (vl w) = Some ms → views (vl w) = Some vs →
  let w' := (update new_models create_view remove_view context w).1 in
  (∀ b, b < next w → alls w' !! b = alls w !! b) ∧
  (∀ b k s, JReact (OnAllElement b k) s ∈ queue w' →
     JReact (OnAllElement b k) s ∈ queue w ∨ next w ≤ b) ∧
  (∀ n rs' b k, ext_state w' n = Pending rs' → OnAllElement b k ∈ rs' →
     (∃ rs, ext_state w n = Pending rs ∧ OnAllElement b k ∈ rs) ∨ next w ≤ b).
Proof.
  intros Hms Hvs w'. subst w'.
  rewrite (update_unfold _ _ _ _ _ _ _ Hms Hvs). cbv zeta.
  rewrite foldl_subscribe_each.
  set (p := common_prefix new_models ms).
  set (R := OnRemove _ _).
  set (ps := (λ h, (R, h)) <$> drop p vs).
  set (w1 := set_views (Some (take p vs)) w).
  destruct (subscribe_each_only_promises ps w1) as (_&Halls2&_&Hnext2&_).
  destruct (subscribe_each_origin ps w1) as [Hq2 Hext2].
  set (w2 := subscribe_each ps w1) in *.
  assert (∀ b k s, JReact (OnAllElement b k) s ∈ queue w2 →
            JReact (OnAllElement b k) s ∈ queue w) as Hq2'.
  { intros b k s Hin. destruct (Hq2 _ Hin) as [?|(q&s'&Hq&Heq)]; [done|].
    unfold ps in Hq. apply list_elem_of_fmap in Hq as (h&->&_). done. }
  assert (∀ n rs' b k, ext_state w2 n = Pending rs' → OnAllElement b k ∈ rs' →
            ∃ rs, ext_state w n = Pending rs ∧ OnAllElement b k ∈ rs) as Hext2'.
  { intros n rs' b k Hn Hin.
    destruct (Hext2 _ _ _ Hn Hin) as [?|(q&Hq&Heq)]; [done|].
    unfold ps in Hq. apply list_elem_of_fmap in Hq as (h&->&_). done. }
  destruct (create_from _ _ _ _ w2) as [w3 res] eqn:Hcr.
  apply create_from_spec in Hcr
    as (evs&_&_&_&_&_&_&_&Hext3&Halls3&_&Hq3&Hnext3&_).
  simpl in Halls2, Hnext2.
  destruct res as [e|].
  - unfold fst. split; [intros b _; by rewrite Halls3, Halls2|].
    split.
    + intros b k s. rewrite Hq3. left. by eapply Hq2'.
    + intros n rs' b k. rewrite (ext_state_ext _ _ _ Hext3). left.
      by eapply Hext2'.
  - cbv zeta. set (w4 := set_models (Some new_models) w3).
    set (hs := default [] (views (vl w4))).
    destruct (promise_all_alls hs w4) as (_&_&Halls5).
    unfold promise_all in *. unfold fst, snd in *.
    rewrite subscribe_all_each in *.
    set (g := Build_aggregate _ _ _) in *.
    set (qs := imap _ hs) in *.
    destruct (subscribe_each_origin qs (set_all (next w4) g (bump w4)))
      as [Hq5 Hext5].
    set (w5 := subscribe_each qs _) in *.
    assert (∀ q, q ∈ qs → ∃ k, q.1 = OnAllElement (next w4) k) as Hqs.
    { intros q Hin. unfold qs in Hin.
      apply elem_of_lookup_imap in Hin as (k&h&->&_). by eexists. }
    split; [|split].
    + intros b Hb. rewrite Halls5, lookup_insert_ne by (simpl; lia).
      simpl. by rewrite Halls3, Halls2.
    + intros b k s Hin. destruct (Hq5 _ Hin) as [Hin'|(q&s'&Hq&Heq)].
      * left. simpl in Hin'. rewrite Hq3 in Hin'. by eapply Hq2'.
      * right. destruct (Hqs q Hq) as [k' Hk']. rewrite Hk' in Heq.
        injection Heq as -> _ _. simpl. lia.
    + intros n rs' b k Hn Hin.
      destruct (Hext5 _ _ _ Hn Hin) as [(rs&Hn'&Hin')|(q&Hq&Heq)].
      * left. change (ext_state w3 n = Pending rs) in Hn'.
        rewrite (ext_state_ext _ _ _ Hext3) in Hn'. by eapply Hext2'.
      * right. destruct (Hqs q Hq) as [k' Hk']. rewrite Hk' in Heq.
        injection Heq as -> _. simpl. lia.
Qed.

(** An aggregate made before [update] is called keeps watching its
    handles through the call. *)
Lemma watching_update a hs new_models create_view remove_view context w ms vs :
  _models (vl w) = Some ms → views (vl w) = Some vs → a < next w →
  watching a hs w →
  watching a hs (update new_models create_view remove_view context w).1.
Proof.
  intros Hms Hvs Ha ((g&Hg&Hlen&Hslots&Hst)&Hreact&Hjobs).
  destruct (update_promises new_models create_view remove_view context
              w ms vs Hms Hvs) as (Hstatus&(js&Hq&_)&Hext&_).
  destruct (update_fresh new_models create_view remove_view context
              w ms vs Hms Hvs) as (Halls&Hfq&Hfe).
  set (w' := (update new_models create_view remove_view context w).1) in *.
  split; [|split].
  - exists g. split; [by rewrite Halls|]. split; [done|]. split.
    + intros k h Hh. specialize (Hslots k h Hh). unfold slot_ok in *.
      destruct (a_values g !! k) as [[v|]|]; [by rewrite Hstatus| |done].
      destruct Hslots as [(n&rs&->&Hn&Hin)|[(s&Hs&Hj)|(e&e'&Hs&He)]].
      * left. specialize (Hext n). rewrite Hn in Hext.
        destruct Hext as (rs'&Hn'&_). eexists n, _. split; [done|].
        split; [exact Hn'|]. apply elem_of_app. by left.
      * right. left. exists s. rewrite Hstatus. split; [done|].
        rewrite Hq. apply elem_of_app. by left.
      * right. right. exists e, e'. by rewrite Hstatus.
    + unfold settled_ok in *. destruct (a_status g); [done|done|].
      destruct Hst as (h&?&?). exists h. by rewrite Hstatus.
  - intros n rs' k Hn Hin.
    destruct (Hfe n rs' a k Hn Hin) as [(rs&Hn0&Hin0)|Hge]; [|lia].
    by eapply Hreact.
  - intros k s Hin. destruct (Hfq a k s Hin) as [Hin0|Hge]; [|lia].
    destruct (Hjobs k s Hin0) as (h&?&?). exists h. by rewrite Hstatus.
Qed.

Lemma remove_next w vs :
  views (vl w) = Some vs → next (remove w).1 = S (S (next w)).
Proof.
  intros Hvs. unfold remove. rewrite Hvs.
  destruct (promise_all_alls vs w) as (_&Hnext&_).
  destruct (promise_all vs w) as [a w1]. simpl in *.
  unfold then_remove_all. simpl.
  destruct (alls w1 !! a) as [g|]; [destruct (a_status g)|]; simpl;
    by rewrite Hnext.
Qed.

(** ** Every world a list can reach *)

Lemma known_at_mono b b' w : known_at b w → b ≤ b' → known_at b' w.
Proof.
  intros [Ha Hq] Hb. split.
  - intros a g d Hg Hd. specialize (Ha a g d Hg Hd). lia.
  - intros d t Hin. specialize (Hq d t Hin). lia.
Qed.

Lemma known_at_frame b w w' :
  known_at b w → alls w' = alls w → queue w' = queue w → known_at b w'.
Proof. intros [Ha Hq] Halls Hqq. split; by rewrite ?Halls, ?Hqq. Qed.

Lemma known_at_enqueue_jobs b w w' js :
  known_at b w → alls w' = alls w → queue w' = queue w ++ js →
  (∀ d t, JRemoveAll d t ∈ js → d < b) → known_at b w'.
Proof.
  intros [Ha Hq] Halls Hqq Hjs. split; [by rewrite Halls|].
  intros d t. rewrite Hqq, elem_of_app. intros [?|?]; eauto.
Qed.

Lemma all_jobs_no_callback js d t :
  Forall is_all_job js → JRemoveAll d t ∉ js.
Proof.
  intros Hjs Hin. rewrite Forall_forall in Hjs. by apply (Hjs _ Hin).
Qed.

Lemma update_next new_models create_view remove_view context w :
  next w ≤ next (update new_models create_view remove_view context w).1.
Proof.
  destruct (first_divergence new_models (_models (vl w))) as [p|e] eqn:Hp.
  2:{ rewrite update_threw_early by (left; by exists e). done. }
  destruct (views (vl w)) as [vs|] eqn:Hvs.
  2:{ rewrite update_threw_early by (by right). done. }
  rewrite (update_unfold_at _ _ _ _ _ _ _ Hp Hvs). cbv zeta.
  rewrite foldl_subscribe_each.
  set (ps := (λ h, (_, h)) <$> drop p vs).
  set (w1 := set_views (Some (take p vs)) w).
  destruct (subscribe_each_only_promises ps w1) as (_&_&_&Hnext2&_).
  set (w2 := subscribe_each ps w1) in *. simpl in Hnext2.
  destruct (create_from _ _ _ _ w2) as [w3 r] eqn:Hcr.
  apply create_from_spec in Hcr as (_&_&_&_&_&_&_&_&_&_&_&_&Hnext3&_).
  destruct r as [e|]; [simpl; lia|]. cbv zeta.
  destruct (promise_all_alls
    (default [] (views (vl (set_models (Some new_models) w3))))
    (set_models (Some new_models) w3)) as (_&Hnext5&_).
  destruct (promise_all _ _) as [a5 w5]. simpl in *. lia.
Qed.

Lemma known_at_update new_models create_view remove_view context w :
  whole (vl w) → known_at (next w) w →
  let w' := (update new_models create_view remove_view context w).1 in
  known_at (next w') w'.
Proof.
  intros [(ms&vs&Hms&Hvs)|[_ Hvs]] Hk w'; subst w'.
  2:{ by rewrite update_threw_early by (by right). }
  pose proof (update_next new_models create_view remove_view context w) as Hn.
  destruct (update_promises new_models create_view remove_view context
              w ms vs Hms Hvs) as (_&(js&Hq&Hjs)&_&Halls&_).
  destruct Hk as [Ha Hqq]. split.
  - intros a g d Hg Hd. destruct (Halls a g Hg) as [Hg0|Hnil].
    + specialize (Ha a g d Hg0 Hd). lia.
    + rewrite Hnil in Hd. by inversion Hd.
  - intros d t. rewrite Hq, !elem_of_app. intros [Hin|[Hin|Hin]].
    + specialize (Hqq d t Hin). lia.
    + apply list_elem_of_omap in Hin as (h&_&Hj).
      by destruct (status w h).
    + by apply all_jobs_no_callback in Hin.
Qed.

Lemma known_at_promise_all b hs w :
  known_at b w → known_at b (promise_all hs w).2.
Proof.
  intros [Ha Hq].
  destruct (promise_all_alls hs w) as (_&_&Halls).
  destruct (promise_all_subscribes hs w) as ((js&Hqq&Hjs)&_). split.
  - intros a g d. rewrite Halls.
    destruct (decide (a = next w)) as [->|Hne].
    + rewrite lookup_insert_eq. intros [= <-]. simpl. by inversion 1.
    + rewrite lookup_insert_ne by done. apply Ha.
  - intros d t. rewrite Hqq, elem_of_app. intros [Hin|Hin]; [eauto|].
    by apply all_jobs_no_callback in Hin.
Qed.

Lemma known_at_then_remove_all b a d w :
  known_at b w → d < b → known_at b (then_remove_all a d w).
Proof.
  intros [Ha Hq] Hd. unfold then_remove_all.
  destruct (alls w !! a) as [g|] eqn:Hg; [|done].
  destruct (a_status g).
  - split; [|done]. intros a' g' d'. simpl.
    destruct (decide (a' = a)) as [->|Hne].
    + rewrite lookup_insert_eq. intros [= <-]. simpl.
      rewrite elem_of_app, list_elem_of_singleton. intros [?| ->]; eauto.
    + rewrite lookup_insert_ne by done. apply Ha.
  - split; [done|]. intros d' t. simpl.
    rewrite elem_of_app, list_elem_of_singleton. intros [?|[= -> _]]; eauto.
  - split; [done|]. intros d' t. simpl.
    rewrite elem_of_app, list_elem_of_singleton. intros [?|[= -> _]]; eauto.
Qed.

(** [remove()] takes two numbers from the counter: one for its aggregate
    and one for the promise it returns. *)
Lemma remove_ids w :
  (remove w).2 = S (next w) ∧ next (remove w).1 = S (S (next w)).
Proof.
  unfold remove.
  assert (∀ x : nat * world, next x.2 = S (next w) →
    let r := (let '(a, w1) := x in
       (then_remove_all a (next w1) (set_done (next w1) DPending (bump w1)),
        next w1)) in
    r.2 = S (next w) ∧ next r.1 = S (S (next w))) as Haux.
  { intros [a w1] Hn. simpl in *. split; [done|].
    unfold then_remove_all. simpl.
    destruct (alls w1 !! a) as [g|]; [destruct (a_status g)|]; simpl;
      by rewrite Hn. }
  destruct (views (vl w)) as [vs|]; apply Haux.
  - by destruct (promise_all_alls vs w) as (_&?&_).
  - done.
Qed.

Lemma known_at_remove w :
  known_at (next w) w → known_at (next (remove w).1) (remove w).1.
Proof.
  intros Hk. destruct (remove_ids w) as [_ ->]. unfold remove.
  assert (∀ x : nat * world, next x.2 = S (next w) →
    known_at (S (S (next w))) x.2 →
    known_at (S (S (next w)))
      (let '(a, w1) := x in
       (then_remove_all a (next w1) (set_done (next w1) DPending (bump w1)),
        next w1)).1) as Haux.
  { intros [a w1] Hn Hk1. simpl in *.
    apply known_at_then_remove_all; [|lia].
    by apply (known_at_frame _ w1). }
  destruct (views (vl w)) as [vs|].
  - apply Haux; [by destruct (promise_all_alls vs w) as (_&?&_)|].
    apply known_at_promise_all. apply (known_at_mono (next w)); [done|lia].
  - apply Haux; [done|]. simpl. destruct Hk as [Ha Hq]. split.
    + intros a g d. simpl.
      destruct (decide (a = next w)) as [->|Hne].
      * rewrite lookup_insert_eq. intros [= <-]. simpl. by inversion 1.
      * rewrite lookup_insert_ne by done. intros Hg Hd.
        specialize (Ha a g d Hg Hd). lia.
    + intros d t Hin. specialize (Hq d t Hin). lia.
Qed.

Lemma known_at_settle b n s w : known_at b w → known_at b (settle n s w).
Proof.
  intros Hk. destruct (settle_spec n s w) as (_&_&Halls&_&_&Hs).
  destruct (ext_state w n) as [rs|s0]; [|by rewrite Hs].
  destruct Hs as [Hq _].
  apply (known_at_enqueue_jobs _ w _ _ Hk Halls Hq).
  intros d t Hin. by apply list_elem_of_fmap in Hin as (?&[=]&_).
Qed.

Lemma tick_next w : next (tick w) = next w.
Proof.
  unfold tick. destruct (queue w) as [|j q]; [done|].
  destruct j as [[f c|b i] s|d t].
  - by destruct (run_job_remove f c s (set_queue q w)) as (_&_&_&_&_&->&_).
  - destruct (alls (set_queue q w) !! b) as [g|] eqn:Hg.
    + by destruct (run_job_all_element b i s _ g Hg) as (_&_&_&_&_&_&->).
    + by rewrite run_job_all_element_none.
  - by destruct (run_job_remove_all d t (set_queue q w)) as (_&_&->&_).
Qed.

Lemma react_all_then g i s d :
  d ∈ a_then (react_all g i s).1 → d ∈ a_then g.
Proof.
  destruct (decide (a_status g = APending)) as [Hp|Hp].
  - pose proof (react_all_pending g i s Hp) as Hr.
    destruct (react_all g i s).2; destruct Hr as [_ ->]; [by inversion 1|done].
  - by destruct (react_all_settled g i s Hp) as (_&_&->).
Qed.

Lemma known_at_tick b w : known_at b w → known_at b (tick w).
Proof.
  intros Hk. unfold tick. destruct (queue w) as [|j q] eqn:Eq; [done|].
  destruct Hk as [Ha Hq]. set (wq := set_queue q w).
  assert (known_at b wq) as Hwq.
  { split; [done|]. intros d t Hin. apply (Hq d t). rewrite Eq.
    apply elem_of_cons. by right. }
  destruct j as [[f c|a i] s|d t].
  - destruct (run_job_remove f c s wq) as (_&_&_&Halls&_&_&Hqq).
    by apply (known_at_frame _ wq).
  - destruct (alls wq !! a) as [g|] eqn:Hg.
    2:{ by rewrite run_job_all_element_none. }
    destruct (run_job_all_element a i s wq g Hg) as (Halls&Hqq&_).
    split.
    + intros a' g' d'. rewrite Halls.
      destruct (decide (a' = a)) as [->|Hne].
      * rewrite lookup_insert_eq. intros [= <-] Hd.
        apply react_all_then in Hd. by apply (Ha a g d').
      * rewrite lookup_insert_ne by done. apply Ha.
    + intros d' t'. rewrite Hqq, elem_of_app. intros [Hin|Hin].
      * by apply (proj2 Hwq d' t').
      * destruct (react_all g i s).2; [|by inversion Hin].
        apply list_elem_of_fmap in Hin as (d0&[= -> _]&Hd0).
        by apply (Ha a g d0).
  - destruct (run_job_remove_all d t wq) as (_&Halls&_&Hqq&_).
    by apply (known_at_frame _ wq).
Qed.

(** What holds in every world that calls on a new list can reach. *)
Lemma reached this create_view remove_view context calls :
  let w := run_calls (fresh this create_view remove_view context) calls in
  whole (vl w) ∧ tidy w = true ∧ known_at (next w) w.
Proof.
  intros w. subst w.
  assert (∀ w, whole (vl w) ∧ tidy_at (next w) w ∧ known_at (next w) w →
    whole (vl (run_calls w calls)) ∧
    tidy_at (next (run_calls w calls)) (run_calls w calls) ∧
    known_at (next (run_calls w calls)) (run_calls w calls)) as Hind.
  { induction calls as [|c calls IH]; intros w Hw; [done|].
    simpl. apply IH. destruct Hw as (Hwh&Ht&Hk).
    split; [by apply whole_step_call|].
    destruct c as [[ms c r ctx| |n s|]|]; simpl.
    - split; [by apply tidy_at_update|by apply known_at_update].
    - split; [by apply tidy_at_remove|by apply known_at_remove].
    - split; [by apply tidy_at_settle|].
      destruct (settle_spec n s w) as (_&_&_&_&->&_).
      by apply known_at_settle.
    - split; [by apply tidy_at_tick|]. rewrite tick_next.
      by apply known_at_tick.
    - split; [by apply (tidy_at_frame _ w)|by apply (known_at_frame _ w)]. }
  destruct (Hind (fresh this create_view remove_view context))
    as (?&?&?).
  - split; [left; by exists [], []|]. split.
    + split; [|intros a k s Hin; by inversion Hin].
      intros n rs a k Hn Hin. unfold ext_state in Hn. simpl in Hn.
      rewrite lookup_empty in Hn. injection Hn as <-. by inversion Hin.
    + split.
      * intros a g d Hg. simpl in Hg. by rewrite lookup_empty in Hg.
      * intros d t Hin. by inversion Hin.
  - split; [done|]. split; [by apply tidy_spec|done].
Qed.

(** ** A [remove()] among whatever else is under way *)

Lemma no_callback_app d q js :
  no_callback d q → no_callback d js → no_callback d (q ++ js).
Proof.
  intros H1 H2 t. rewrite elem_of_app.
  intros [Hin|Hin]; [by apply (H1 t)|by apply (H2 t)].
Qed.

Lemma no_callback_cons d j q : no_callback d (j :: q) → no_callback d q.
Proof. intros H t Hin. apply (H t). apply elem_of_cons. by right. Qed.

Lemma no_callback_head d t q : ¬ no_callback d (JRemoveAll d t :: q).
Proof. intros H. apply (H t). apply elem_of_cons. by left. Qed.

Lemma no_callback_reactions d (rs : list reaction) s :
  no_callback d ((λ r, JReact r s) <$> rs).
Proof. intros t Hin. by apply list_elem_of_fmap in Hin as (?&[=]&_). Qed.

Lemma no_callback_others d t (ds : list nat) :
  d ∉ ds → no_callback d ((λ d', JRemoveAll d' t) <$> ds).
Proof.
  intros Hd t' Hin. apply list_elem_of_fmap in Hin as (d'&[= -> _]&?). done.
Qed.

Lemma once_in_app d t q js :
  once_in d t q → no_callback d js → once_in d t (q ++ js).
Proof.
  intros (q1&q2&->&H1&H2) Hjs. exists q1, (q2 ++ js).
  split; [by rewrite <- app_assoc|]. split; [done|].
  by apply no_callback_app.
Qed.

Lemma once_in_cons d t j q :
  once_in d t (j :: q) →
  (j = JRemoveAll d t ∧ no_callback d q) ∨
  ((∀ t', j ≠ JRemoveAll d t') ∧ once_in d t q).
Proof.
  intros (q1&q2&Hq&H1&H2). destruct q1 as [|j1 q1]; simpl in Hq.
  - injection Hq as -> ->. by left.
  - injection Hq as -> ->. right. split.
    + intros t' ->. by apply no_callback_head in H1.
    + exists q1, q2. split; [done|]. split; [|done].
      by eapply no_callback_cons.
Qed.

Lemma once_in_nil d t : ¬ once_in d t [].
Proof. intros (q1&q2&Hq&_). by destruct q1. Qed.

(** A step that is not the callback of the [remove()] and does not settle
    its aggregate. *)
Lemma awaiting_frame f ctx a d w w' :
  awaiting f ctx a d w →
  _remove_view (vl w') = _remove_view (vl w) →
  _handler_context (vl w') = _handler_context (vl w) →
  (dones w !! d = Some DPending ∨
   (views (vl w) = Some [] → _models (vl w) = Some [] →
    views (vl w') = Some [] ∧ _models (vl w') = Some [])) →
  dones w' !! d = dones w !! d →
  (∀ g, alls w !! a = Some g →
     ∃ g', alls w' !! a = Some g' ∧ a_then g' = a_then g ∧
           a_status g' = a_status g) →
  (∀ b g', b ≠ a → alls w' !! b = Some g' → d ∉ a_then g') →
  (no_callback d (queue w) → no_callback d (queue w')) →
  (∀ t, once_in d t (queue w) → once_in d t (queue w')) →
  awaiting f ctx a d w'.
Proof.
  intros (Hf&Hc&_&g&Hg&Hcase) Hf' Hc' Hvl Hd Ha Hothers Hno Honce.
  destruct (Ha g Hg) as (g'&Hg'&Hthen&Hstat).
  split; [by rewrite Hf'|]. split; [by rewrite Hc'|]. split; [done|].
  exists g'. split; [done|]. rewrite Hstat, Hthen, Hd.
  destruct (a_status g) as [|vals|e].
  - destruct Hcase as (?&?&?). auto.
  - destruct Hcase as (?&[[? ?]|[Hs ?]]); (split; [done|]); [left; auto|].
    right. split; [|auto]. unfold settled_by in *. rewrite Hd.
    destruct Hs as [(Hdd&Hv&Hm)|?]; [|by right]. left.
    destruct Hvl as [Hp|Hvl]; [congruence|].
    destruct (Hvl Hv Hm). done.
  - destruct Hcase as (?&[[? ?]|[? ?]]); (split; [done|]); [left|right]; auto.
Qed.

Lemma awaiting_settle f ctx a d n s w :
  awaiting f ctx a d w → awaiting f ctx a d (settle n s w).
Proof.
  intros Haw. pose proof Haw as (_&_&Hothers&_).
  destruct (settle_spec n s w) as (Hvl&_&Halls&Hdones&_&Hs).
  destruct (ext_state w n) as [rs|s0]; [|by rewrite Hs].
  destruct Hs as [Hq _].
  apply (awaiting_frame f ctx a d w); try done.
  - by rewrite Hvl.
  - by rewrite Hvl.
  - right. by rewrite Hvl.
  - by rewrite Hdones.
  - intros g Hg. exists g. by rewrite Halls.
  - by rewrite Halls.
  - rewrite Hq. intros ?. apply no_callback_app; [done|].
    apply no_callback_reactions.
  - rewrite Hq. intros t ?. apply once_in_app; [done|].
    apply no_callback_reactions.
Qed.

Lemma awaiting_tick f ctx a d w :
  awaiting f ctx a d w → awaiting f ctx a d (tick w).
Proof.
  intros Haw. unfold tick. destruct (queue w) as [|j q] eqn:Eq; [done|].
  set (wq := set_queue q w).
  pose proof Haw as (Hf&Hc&Hothers&g&Hg&Hcase).
  assert (∀ w', queue w' = q → (∀ t, j ≠ JRemoveAll d t) →
            (no_callback d (queue w) → no_callback d (queue w')) ∧
            (∀ t, once_in d t (queue w) → once_in d t (queue w'))) as Hpop.
  { intros w' -> Hj. rewrite Eq. split; [apply no_callback_cons|].
    intros t [[-> _]|[_ ?]]%once_in_cons; [by destruct (Hj t)|done]. }
  destruct j as [[f' c'|b i] s|d' t].
  - destruct (run_job_remove f' c' s wq) as (_&Hvl&_&Halls&Hdones&_&Hq).
    destruct (Hpop _ Hq) as [? ?]; [done|].
    apply (awaiting_frame f ctx a d w); try done; try (by rewrite Hvl).
    + right. by rewrite Hvl.
    + by rewrite Hdones.
    + intros g0 Hg0. exists g0. by rewrite Halls.
    + by rewrite Halls.
  - destruct (alls w !! b) as [gb|] eqn:Hgb.
    2:{ rewrite run_job_all_element_none by done.
        destruct (Hpop wq) as [? ?]; [done|done|].
        apply (awaiting_frame f ctx a d w); try done; [by right|].
        intros g0 Hg0. by exists g0. }
    destruct (run_job_all_element b i s wq gb Hgb)
      as (Halls&Hq&Hvl&_&_&Hdones&_).
    set (w' := run_job (JReact (OnAllElement b i) s) wq) in *.
    clearbody w'. change (queue wq) with q in Hq.
    assert (∀ new, queue w' = q ++ new → no_callback d new →
              (no_callback d (queue w) → no_callback d (queue w')) ∧
              (∀ t, once_in d t (queue w) → once_in d t (queue w'))) as Hpush.
    { intros new Hq' Hnew. rewrite Eq, Hq'. split.
      - intros ?%no_callback_cons. by apply no_callback_app.
      - intros t [[[=] _]|[_ ?]]%once_in_cons. by apply once_in_app. }
    destruct (decide (b = a)) as [->|Hne].
    + rewrite Hg in Hgb. injection Hgb as <-.
      assert (∀ b g', b ≠ a → alls w' !! b = Some g' → d ∉ a_then g')
        as Hothers'.
      { intros b g' Hb. rewrite Halls, lookup_insert_ne by done.
        by apply Hothers. }
      destruct (decide (a_status g = APending)) as [Hp|Hp].
      * pose proof (react_all_pending g i s Hp) as Hr.
        destruct (react_all g i s).2 as [t|] eqn:Et.
        -- destruct Hr as [Hst Hth]. rewrite Hp in Hcase.
           destruct Hcase as (Hthen&Hd&Hno).
           rewrite Hthen in Hq. simpl in Hq.
           rewrite Eq in Hno. apply no_callback_cons in Hno.
           split; [by rewrite Hvl|]. split; [by rewrite Hvl|].
           split; [done|].
           eexists. split; [rewrite Halls; apply lookup_insert_eq|].
           rewrite Hst, Hth, Hdones, Hq.
           assert (once_in d t (q ++ [JRemoveAll d t])) as Honce.
           { exists q, []. split; [done|]. split; [done|].
             intros t' Hin. by inversion Hin. }
           destruct t as [vals|e]; simpl; (split; [done|]); by left.
        -- destruct Hr as [Hst Hth].
           destruct (Hpush []) as [? ?];
             [by rewrite Hq|intros t' Hin; by inversion Hin|].
           apply (awaiting_frame f ctx a d w); try done;
             try (by rewrite Hvl).
           ++ right. by rewrite Hvl.
           ++ by rewrite Hdones.
           ++ intros g0 Hg0. rewrite Hg in Hg0. injection Hg0 as <-.
              eexists. split; [rewrite Halls; apply lookup_insert_eq|].
              by rewrite Hst, Hth, Hp.
      * destruct (react_all_settled g i s Hp) as (Et&Hst&Hth).
        destruct (Hpush []) as [? ?];
          [by rewrite Hq, Et|intros t' Hin; by inversion Hin|].
        apply (awaiting_frame f ctx a d w); try done; try (by rewrite Hvl).
        -- right. by rewrite Hvl.
        -- by rewrite Hdones.
        -- intros g0 Hg0. rewrite Hg in Hg0. injection Hg0 as <-.
           eexists. split; [rewrite Halls; apply lookup_insert_eq|done].
    + assert (d ∉ a_then gb) as Hthen by (by eapply Hothers).
      destruct (Hpush (match (react_all gb i s).2 with
                       | Some t => (λ d', JRemoveAll d' t) <$> a_then gb
                       | None => []
                       end)) as [? ?]; [done| |].
      { destruct (react_all gb i s).2; [by apply no_callback_others|].
        intros t' Hin. by inversion Hin. }
      apply (awaiting_frame f ctx a d w); try done; try (by rewrite Hvl).
      * right. by rewrite Hvl.
      * by rewrite Hdones.
      * intros g0 Hg0. exists g0. rewrite Halls.
        by rewrite lookup_insert_ne.
      * intros b' g' Hb'. rewrite Halls.
        destruct (decide (b = b')) as [<-|Hbb].
        -- rewrite lookup_insert_eq. intros [= <-] Hin.
           by apply react_all_then in Hin.
        -- rewrite lookup_insert_ne by done. by apply Hothers.
  - destruct (run_job_remove_all d' t wq) as (_&Halls&_&Hq&Hrun).
    set (w' := run_job (JRemoveAll d' t) wq) in *. clearbody w'.
    change (vl wq) with (vl w) in Hrun. change (log wq) with (log w) in Hrun.
    change (dones wq) with (dones w) in Hrun. change (queue wq) with q in Hq.
    destruct (decide (d' = d)) as [->|Hne].
    + split; [|split; [|split; [by rewrite Halls|]]].
      1,2: destruct t as [vals|e];
        [destruct (removal_trace _ _ vals (log w)).2;
           destruct Hrun as (_&->&_)|destruct Hrun as (_&->&_)]; done.
      exists g. rewrite Halls. split; [done|]. rewrite Hq.
      destruct (a_status g) as [|vals|e].
      * destruct Hcase as (_&_&Hno). rewrite Eq in Hno.
        by apply no_callback_head in Hno.
      * destruct Hcase as (?&[[Hd Honce]|[_ Hno]]); rewrite Eq in *.
        2:{ by apply no_callback_head in Hno. }
        apply once_in_cons in Honce as [[[= ->] Hno]|[Hj _]];
          [|by destruct (Hj t)].
        split; [done|]. right. split; [|done].
        destruct Hrun as [_ Hrun]. rewrite Hf, Hc in Hrun.
        unfold settled_by.
        destruct (removal_trace f ctx vals (log w)).2 as [e|] eqn:Htr.
        -- right. exists e, (log w). destruct Hrun as [_ ->].
           by rewrite lookup_insert_eq.
        -- left. destruct Hrun as [-> ->]. by rewrite lookup_insert_eq.
      * destruct Hcase as (?&[[Hd Honce]|[_ Hno]]); rewrite Eq in *.
        2:{ by apply no_callback_head in Hno. }
        apply once_in_cons in Honce as [[[= ->] Hno]|[Hj _]];
          [|by destruct (Hj t)].
        destruct Hrun as (_ & _ & ->).
        split; [done|]. right. by rewrite lookup_insert_eq.
    + destruct (Hpop w') as [? ?]; [done|by intros t' [=]|].
      assert (dones w' !! d = dones w !! d ∧
              (vl w' = vl w ∨
               vl w' = put_models (Some []) (put_views (Some []) (vl w))))
        as [Hd Hvl].
      { destruct t as [vals|e].
        - destruct Hrun as [_ Hrun].
          destruct (removal_trace _ _ vals (log w)).2;
            destruct Hrun as [-> ->]; rewrite lookup_insert_ne by done; auto.
        - destruct Hrun as (_ & -> & ->). rewrite lookup_insert_ne by done.
          auto. }
      apply (awaiting_frame f ctx a d w); try done.
      * by destruct Hvl as [-> | ->].
      * by destruct Hvl as [-> | ->].
      * right. by destruct Hvl as [-> | ->].
      * intros g0 Hg0. exists g0. by rewrite Halls.
      * by rewrite Halls.
Qed.

Lemma awaiting_run f ctx a d acts w :
  hands_off acts = true → awaiting f ctx a d w →
  awaiting f ctx a d (run w acts).
Proof.
  apply (hands_off_ind (awaiting f ctx a d)).
  - intros; by apply awaiting_settle.
  - intros; by apply awaiting_tick.
Qed.

(** The invariants hold from the moment [remove()] returns, in whatever
    world it is called. *)
Lemma remove_awaiting w vs :
  views (vl w) = Some vs → known_at (next w) w →
  awaiting (_remove_view (vl w)) (_handler_context (vl w))
    (next w) (remove w).2 (remove w).1.
Proof.
  intros Hvs [Hka Hkq]. unfold remove. rewrite Hvs.
  destruct (promise_all_fields vs w) as (Hvl&Hdones&_).
  destruct (promise_all_subscribes vs w) as ((js&Hq&Hjs)&_).
  destruct (promise_all_alls vs w) as (Ha&Hnext&Halls).
  destruct (promise_all vs w) as [a wpa]. unfold fst, snd in *. subst a.
  set (d := next wpa). set (wx := set_done d DPending (bump wpa)).
  set (g0 := Build_aggregate _ _ _) in Halls.
  assert (alls wx !! next w = Some g0) as Hg0
    by (simpl; rewrite Halls; apply lookup_insert_eq).
  assert (no_callback d (queue wpa)) as Hno.
  { rewrite Hq. apply no_callback_app.
    - intros t Hin. specialize (Hkq d t Hin). unfold d in Hkq. lia.
    - intros t. by apply all_jobs_no_callback. }
  assert (∀ b g, b ≠ next w → alls wpa !! b = Some g → d ∉ a_then g)
    as Hothers.
  { intros b g Hb. rewrite Halls, lookup_insert_ne by done. intros Hg Hin.
    specialize (Hka b g d Hg Hin). unfold d in Hka. lia. }
  unfold then_remove_all. rewrite Hg0.
  destruct vs as [|h vs]; simpl.
  - split; [simpl; by rewrite Hvl|]. split; [simpl; by rewrite Hvl|].
    split; [done|].
    exists g0. split; [done|]. simpl. split; [done|]. left.
    split; [apply lookup_insert_eq|].
    exists (queue wpa), []. split; [done|]. split; [done|].
    intros t Hin. by inversion Hin.
  - split; [simpl; by rewrite Hvl|]. split; [simpl; by rewrite Hvl|]. split.
    { intros b g Hb. simpl. rewrite lookup_insert_ne by done.
      by apply Hothers. }
    eexists. split; [simpl; apply lookup_insert_eq|]. simpl.
    split; [done|]. split; [apply lookup_insert_eq|done].
Qed.

Lemma remove_watching w vs :
  views (vl w) = Some vs → tidy w = true →
  watching (next w) vs (remove w).1.
Proof.
  intros Hvs Htidy. unfold remove. rewrite Hvs.
  pose proof (promise_all_watching vs w (tidy_unheard w _ Htidy (le_n _)))
    as Hwatch.
  destruct (promise_all_alls vs w) as (Ha&_&_).
  destruct (promise_all vs w) as [a wpa]. unfold fst, snd in *. subst a.
  set (d := next wpa). set (wx := set_done d DPending (bump wpa)).
  unfold then_remove_all.
  destruct (alls wx !! next w) as [g|] eqn:Hg;
    [|apply (watching_frame _ _ wpa); try done; intros g Hg'; by exists g].
  assert (∀ js, (∀ j, j ∈ js → ¬ is_all_job j) →
    ∀ k s, JReact (OnAllElement (next w) k) s ∈ queue wpa
           ↔ JReact (OnAllElement (next w) k) s ∈ queue wpa ++ js) as Hqs.
  { intros js Hjs k s. rewrite elem_of_app. split; [by left|].
    intros [?|Hin]; [done|]. by destruct (Hjs _ Hin). }
  simpl in Hg.
  destruct (a_status g) eqn:Es.
  - apply (watching_frame _ _ wpa); try done.
    intros g' Hg'. rewrite Hg in Hg'. injection Hg' as <-. simpl.
    rewrite lookup_insert_eq. by eexists.
  - apply (watching_frame _ _ wpa); try done.
    + intros g' Hg'. by exists g'.
    + apply Hqs. intros j ->%list_elem_of_singleton. by intros [].
  - apply (watching_frame _ _ wpa); try done.
    + intros g' Hg'. by exists g'.
    + apply Hqs. intros j ->%list_elem_of_singleton. by intros [].
Qed.

(** [update] and [dispose()] called before the callback has run leave the
    [remove()] where it is. *)
Lemma awaiting_update f ctx a d new_models create_view remove_view context w :
  whole (vl w) → a < next w → dones w !! d = Some DPending →
  awaiting f ctx a d w →
  awaiting f ctx a d (update new_models create_view remove_view context w).1.
Proof.
  intros [(ms&vs&Hms&Hvs)|[_ Hvs]] Ha Hd Haw.
  2:{ by rewrite update_threw_early by (by right). }
  pose proof Haw as (_&_&Hothers&_).
  destruct (update_promises new_models create_view remove_view context
              w ms vs Hms Hvs) as (_&(js&Hq&Hjs)&_&Halls&_).
  destruct (update_fresh new_models create_view remove_view context
              w ms vs Hms Hvs) as (Hkeep&_).
  destruct (update_keeps_defaults new_models create_view remove_view context w)
    as (_&Hctx&_&Hrv).
  assert (first_divergence new_models (_models (vl w))
          = Returned (common_prefix new_models ms)) as Hp
    by (by rewrite Hms, first_divergence_common_prefix).
  destruct (update_fields_at new_models create_view remove_view context
              w _ vs Hp Hvs) as (_&_&_&_&_&_&_&Hdones).
  set (w' := (update new_models create_view remove_view context w).1) in *.
  assert (no_callback d
            (omap (λ h, JReact (OnRemove (remove_or remove_view (vl w))
                                  (js_or context (_handler_context (vl w))))
                        <$> status w h)
               (drop (common_prefix new_models ms) vs) ++ js)) as Hnew.
  { apply no_callback_app.
    - intros t Hin. apply list_elem_of_omap in Hin as (h&_&Hj).
      by destruct (status w h).
    - intros t. by apply all_jobs_no_callback. }
  apply (awaiting_frame f ctx a d w); try done.
  - by left.
  - by rewrite Hdones.
  - intros g Hg. exists g. by rewrite Hkeep.
  - intros b g Hb Hg. destruct (Halls b g Hg) as [Hg0| ->]; [|by inversion 1].
    by eapply Hothers.
  - rewrite Hq. intros ?. by apply no_callback_app.
  - rewrite Hq. intros t ?. by apply once_in_app.
Qed.

Lemma awaiting_dispose f ctx a d w :
  dones w !! d = Some DPending →
  awaiting f ctx a d w → awaiting f ctx a d (dispose w).
Proof.
  intros Hd Haw. pose proof Haw as (_&_&Hothers&_).
  apply (awaiting_frame f ctx a d w); try done; [by left|].
  intros g Hg. by exists g.
Qed.

(** ** What the invariants say of the callback *)


(** The microtask that is the callback. *)
Lemma awaiting_callback f ctx a d vs w t q :
  awaiting f ctx a d w → watching a vs w → queue w = JRemoveAll d t :: q →
  dones w !! d = Some DPending ∧ queue (tick w) = q ∧
  match t with
  | AFul vals =>
      Forall2 (λ h v, status w h = Some (SFul v)) vs vals ∧
      log (tick w) = log w ++ (removal_trace f ctx vals (log w)).1 ∧
      match (removal_trace f ctx vals (log w)).2 with
      | None =>
          log (tick w) = log w ++ concat (call_events f ctx <$> vals) ∧
          views (vl (tick w)) = Some [] ∧ _models (vl (tick w)) = Some [] ∧
          dones (tick w) !! d = Some DFulfilled
      | Some e =>
          vl (tick w) = vl w ∧ dones (tick w) !! d = Some (DRejected e)
      end
  | ARej e =>
      (∃ h, h ∈ vs ∧ status w h = Some (SRej e)) ∧
      log (tick w) = log w ∧ vl (tick w) = vl w ∧
      dones (tick w) !! d = Some (DRejected e)
  end.
Proof.
  intros (Hf&Hc&_&g&Hg&Hcase) Hwatch Hq.
  rewrite (tick_cons _ _ _ Hq).
  destruct (run_job_remove_all d t (set_queue q w)) as (_&_&_&Hqq&Hrun).
  set (w' := run_job (JRemoveAll d t) (set_queue q w)) in *. clearbody w'.
  change (vl (set_queue q w)) with (vl w) in Hrun.
  change (log (set_queue q w)) with (log w) in Hrun.
  change (dones (set_queue q w)) with (dones w) in Hrun.
  rewrite Hf, Hc in Hrun. rewrite Hq in Hcase.
  assert (dones w !! d = Some DPending ∧ a_status g = astatus_of t) as [Hd Hst].
  { destruct (a_status g) as [|vals|e].
    - destruct Hcase as (_&_&Hno). by apply no_callback_head in Hno.
    - destruct Hcase as (_&[[? Honce]|[_ Hno]]);
        [|by apply no_callback_head in Hno].
      apply once_in_cons in Honce as [[[= ->] _]|[Hj _]];
        [done|by destruct (Hj t)].
    - destruct Hcase as (_&[[? Honce]|[_ Hno]]);
        [|by apply no_callback_head in Hno].
      apply once_in_cons in Honce as [[[= ->] _]|[Hj _]];
        [done|by destruct (Hj t)]. }
  split; [done|]. split; [done|].
  destruct t as [vals|e]; simpl in Hst.
  - split; [by eapply watching_fulfilled|].
    destruct Hrun as [Hlog Hrun]. split; [done|].
    pose proof (removal_trace_normal f ctx vals (log w)) as Hnormal.
    destruct (removal_trace f ctx vals (log w)).2 as [e|].
    + destruct Hrun as [-> ->]. by rewrite lookup_insert_eq.
    + destruct Hrun as [-> ->]. rewrite lookup_insert_eq, Hlog.
      by rewrite <- Hnormal.
  - destruct Hrun as (-> & -> & ->). rewrite lookup_insert_eq.
    split; [|done]. by eapply watching_rejected.
Qed.


(** Every handle is fulfilled and no microtask is left: the callback has
    run. *)
Lemma awaiting_done f ctx a d vs w vals :
  awaiting f ctx a d w → watching a vs w → queue w = [] →
  Forall2 (λ h v, status w h = Some (SFul v)) vs vals →
  settled_by f ctx d vals w.
Proof.
  intros (_&_&_&g&Hg&Hcase) Hwatch Hq Hall.
  destruct (watching_drained_fulfilled _ _ _ _ Hwatch Hq Hall) as (g'&Hg'&Es).
  rewrite Hg in Hg'. injection Hg' as <-. rewrite Es, Hq in Hcase.
  destruct Hcase as (_&[[_ Honce]|[? _]]); [|done].
  by apply once_in_nil in Honce.
Qed.

(** A handle is rejected and no microtask is left: the promise is
    rejected with what a handle is rejected with. *)
Lemma awaiting_failed f ctx a d vs w h e :
  awaiting f ctx a d w → watching a vs w → queue w = [] →
  h ∈ vs → status w h = Some (SRej e) →
  ∃ e', dones w !! d = Some (DRejected e') ∧
        ∃ h', h' ∈ vs ∧ status w h' = Some (SRej e').
Proof.
  intros (_&_&_&g&Hg&Hcase) Hwatch Hq Hh Hs.
  destruct (watching_drained_rejected _ _ _ _ _ Hwatch Hq Hh Hs)
    as (g'&e'&Hg'&He'&Hh').
  rewrite Hg in Hg'. injection Hg' as <-. rewrite He', Hq in Hcase.
  destruct Hcase as (_&[[_ Honce]|[? _]]);
    [by apply once_in_nil in Honce|].
  by exists e'.
Qed.

(** ** The microtask queue is first in, first out *)

Lemma run_app w acts1 acts2 : run w (acts1 ++ acts2) = run (run w acts1) acts2.
Proof. apply foldl_app. Qed.

Lemma run_job_queue j w : ∃ new, queue (run_job j w) = queue w ++ new.
Proof.
  destruct j as [[f c|b i] s|d t].
  - destruct (run_job_remove f c s w) as (_&_&_&_&_&_&->).
    exists []. by rewrite app_nil_r.
  - destruct (alls w !! b) as [g|] eqn:Hg.
    + destruct (run_job_all_element b i s w g Hg) as (_&->&_). by eexists.
    + rewrite run_job_all_element_none by done.
      exists []. by rewrite app_nil_r.
  - destruct (run_job_remove_all d t w) as (_&_&_&->&_).
    exists []. by rewrite app_nil_r.
Qed.

Lemma settle_queue n s w : ∃ new, queue (settle n s w) = queue w ++ new.
Proof.
  destruct (settle_spec n s w) as (_&_&_&_&_&Hs).
  destruct (ext_state w n) as [rs|s'].
  - destruct Hs as [-> _]. by eexists.
  - rewrite Hs. exists []. by rewrite app_nil_r.
Qed.

(** The microtasks that are queued run before those queued behind them,
    whatever is settled meanwhile. *)
Lemma run_queue acts : ∀ q0 q1 w,
  hands_off acts = true → queue w = q0 ++ q1 → ticks_in acts = length q0 →
  ∃ new, queue (run w acts) = q1 ++ new.
Proof.
  induction acts as [|a acts IH]; intros q0 q1 w Hacts Hq Hk.
  - destruct q0; [|done]. exists []. by rewrite app_nil_r.
  - simpl in Hacts. apply andb_true_iff in Hacts as [Ha Hacts].
    destruct a as [| |n s|]; try done; simpl in Hk |- *.
    + destruct (settle_queue n s w) as [new Hnew].
      rewrite Hq, <- app_assoc in Hnew.
      destruct (IH _ _ _ Hacts Hnew Hk) as [new' Hq'].
      exists (new ++ new'). by rewrite Hq', app_assoc.
    + destruct q0 as [|j q0]; [done|]. injection Hk as Hk.
      simpl in Hq. rewrite (tick_cons _ _ _ Hq).
      destruct (run_job_queue j (set_queue (q0 ++ q1) w)) as [new Hnew].
      simpl in Hnew. rewrite <- app_assoc in Hnew.
      destruct (IH _ _ _ Hacts Hnew Hk) as [new' Hq'].
      exists (new ++ new'). by rewrite Hq', app_assoc.
Qed.

(** Microtasks for removals at the head of the queue call the hook, one
    view after the other, whatever is settled meanwhile. *)
Lemma run_removals f ctx acts : ∀ ss q w,
  hands_off acts = true →
  queue w = (JReact (OnRemove f ctx) <$> ss) ++ q →
  ticks_in acts = length ss →
  log (run w acts) = log w ++ concat (removal_events f ctx <$> ss).
Proof.
  induction acts as [|a acts IH]; intros ss q w Hacts Hq Hk.
  - destruct ss; [|done]. simpl. by rewrite app_nil_r.
  - simpl in Hacts. apply andb_true_iff in Hacts as [Ha Hacts].
    destruct a as [| |n s|]; try done; simpl in Hk |- *.
    + destruct (settle_queue n s w) as [new Hnew].
      rewrite Hq, <- app_assoc in Hnew.
      rewrite (IH _ _ _ Hacts Hnew Hk).
      by destruct (settle_spec n s w) as (_&->&_).
    + destruct ss as [|s ss]; [done|]. injection Hk as Hk.
      simpl in Hq. rewrite (tick_cons _ _ _ Hq).
      destruct (run_job_remove f ctx s
        (set_queue ((JReact (OnRemove f ctx) <$> ss) ++ q) w))
        as (Hlog&_&_&_&_&_&Hqq).
      set (w1 := run_job _ _) in *. fold (run w1 acts).
      rewrite (IH _ _ _ Hacts Hqq Hk), Hlog. simpl. by rewrite <- app_assoc.
Qed.

(** A reaction of a promise stays a reaction for as long as the promise
    is pending. *)
Lemma hands_off_pending n rs acts w :
  hands_off acts = true → ext_state (run w acts) n = Pending rs →
  ext_state w n = Pending rs.
Proof.
  revert w. induction acts as [|a acts IH]; intros w Hacts Hn; [done|].
  simpl in Hacts. apply andb_true_iff in Hacts as [Ha Hacts].
  simpl in Hn. apply IH in Hn; [|done].
  destruct a as [| |n' s|]; try done; simpl in Hn.
  - destruct (settle_spec n' s w) as (_&_&_&_&_&Hs).
    destruct (ext_state w n') as [rs'|s'] eqn:En'; [|by rewrite Hs in Hn].
    destruct Hs as [_ Hext]. rewrite Hext in Hn. by case_decide.
  - by rewrite (ext_state_ext _ _ _ (tick_ext w)) in Hn.
Qed.

(** When a promise is settled its reactions are queued in order, and a
    removal among them has its turn after the microtasks before it. *)
Lemma settle_fires_removal f ctx n s i w rs acts :
  ext_state w n = Pending rs → rs !! i = Some (OnRemove f ctx) →
  hands_off acts = true → ticks_in acts = length (queue w) + i →
  let w' := settle n s w in
  status w' (HExt n) = Some s ∧
  queue w' = queue w ++ ((λ r, JReact r s) <$> rs) ∧
  log (tick (run w' acts)) = log (run w' acts) ++ removal_events f ctx s.
Proof.
  intros Hn Hi Hacts Hk w'.
  destruct (settle_spec n s w) as (_&_&_&_&_&Hs). rewrite Hn in Hs.
  destruct Hs as [Hq Hext]. fold w' in Hq, Hext.
  split; [simpl; by rewrite Hext, decide_True|]. split; [done|].
  assert (queue w' = (queue w ++ ((λ r, JReact r s) <$> take i rs))
                     ++ JReact (OnRemove f ctx) s
                        :: ((λ r, JReact r s) <$> drop (S i) rs)) as Hsplit.
  { rewrite Hq, <- app_assoc. f_equal.
    rewrite <- (take_drop_middle rs i _ Hi) at 1.
    by rewrite fmap_app. }
  assert (ticks_in acts
          = length (queue w ++ ((λ r, JReact r s) <$> take i rs))) as Hlen.
  { rewrite length_app, length_fmap, length_take.
    apply lookup_lt_Some in Hi. lia. }
  destruct (run_queue acts _ _ _ Hacts Hsplit Hlen) as [new Hnew].
  simpl in Hnew. rewrite (tick_cons _ _ _ Hnew).
  by destruct (run_job_remove f ctx s
    (set_queue (((λ r, JReact r s) <$> drop (S i) rs) ++ new) (run w' acts)))
    as (->&_).
Qed.

(** ** Removal after [update] *)

(** C2, as the code has it.  Let [update] be called on a list made by
    whatever calls, with whatever else under way, and let [removed] be
    the handles it detaches.  Within the call only creation calls are
    made: no view is removed before [update] returns.  For the handles of
    [removed] that are settled at the time of the call, the call queues
    the removals, in the order of the list, behind the microtasks that
    were queued before; when these have run, the next microtasks call the
    removal hook on the views of those handles, in the order of the list,
    whatever is settled meanwhile.
    A handle of [removed] that is pending has the removal among its
    reactions when [update] returns, and keeps its reactions for as long
    as it is pending: nothing is queued for it.  When a promise is
    settled, its reactions are queued in order behind the microtasks
    there are, and a removal among them calls the hook on the view, if
    the promise is fulfilled, when the microtasks before it have run:
    the removals of pending handles follow the order in which the
    handles are settled, not the order of the list.  And the promise
    [update] returns does not wait for any of this: it is fulfilled, with
    the views of the handles now in [views], once these are fulfilled and
    the microtask queue is empty. *)
Theorem removals_follow_resolution
    this create_view0 remove_view0 context0 calls
    new_models create_view remove_view context ms vs :
  let w := run_calls (fresh this create_view0 remove_view0 context0) calls in
  _models (vl w) = Some ms → views (vl w) = Some vs →
  let rm := remove_or remove_view (vl w) in
  let ctx := js_or context (_handler_context (vl w)) in
  let removed := drop (common_prefix new_models ms) vs in
  let settled := omap (status w) removed in
  let w1 := (update new_models create_view remove_view context w).1 in
  (∃ evs, log w1 = log w ++ evs ∧ Forall is_creation evs) ∧
  (∃ js, queue w1 = queue w ++ (JReact (OnRemove rm ctx) <$> settled) ++ js ∧
         Forall is_all_job js) ∧
  (∀ acts1 acts2,
     hands_off acts1 = true → hands_off acts2 = true →
     ticks_in acts1 = length (queue w) → ticks_in acts2 = length settled →
     log (run w1 (acts1 ++ acts2))
     = log (run w1 acts1) ++ concat (removal_events rm ctx <$> settled)) ∧
  (∀ n rs, HExt n ∈ removed → ext_state w n = Pending rs →
     ∃ rs1, ext_state w1 n = Pending rs1 ∧ OnRemove rm ctx ∈ rs1 ∧
       ∀ acts rs2, hands_off acts = true →
         ext_state (run w1 acts) n = Pending rs2 → rs2 = rs1) ∧
  (∀ n s i w2 rs2 acts,
     ext_state w2 n = Pending rs2 → rs2 !! i = Some (OnRemove rm ctx) →
     hands_off acts = true → ticks_in acts = length (queue w2) + i →
     let w3 := settle n s w2 in
     status w3 (HExt n) = Some s ∧
     queue w3 = queue w2 ++ ((λ r, JReact r s) <$> rs2) ∧
     log (tick (run w3 acts)) = log (run w3 acts) ++ removal_events rm ctx s) ∧
  (∀ a vs' acts vals',
     (update new_models create_view remove_view context w).2 = Returned a →
     views (vl w1) = Some vs' → hands_off acts = true →
     queue (run w1 acts) = [] →
     Forall2 (λ h v, status (run w1 acts) h = Some (SFul v)) vs' vals' →
     ∃ g, alls (run w1 acts) !! a = Some g ∧ a_status g = AFulfilled vals').
Proof.
  intros w Hms Hvs rm ctx removed settled w1.
  destruct (reached this create_view0 remove_view0 context0 calls)
    as (_&Htidy&_). fold w in Htidy.
  destruct (update_promises new_models create_view remove_view context
              w ms vs Hms Hvs) as (_&(js&Hq&Hjs)&Hext&_&Hlog).
  fold w1 rm ctx removed in Hq, Hext, Hlog.
  rewrite omap_fmap_option in Hq. fold settled in Hq.
  split; [done|]. split; [by exists js|]. split; [|split; [|split]].
  - intros acts1 acts2 Hacts1 Hacts2 Hk1 Hk2. rewrite run_app.
    destruct (run_queue acts1 _ _ w1 Hacts1 Hq Hk1) as [new Hnew].
    rewrite <- app_assoc in Hnew.
    by apply (run_removals rm ctx acts2 settled (js ++ new)).
  - intros n rs Hin Hn. specialize (Hext n). rewrite Hn in Hext.
    destruct Hext as (rs'&Hn1&_). eexists. split; [exact Hn1|]. split.
    + apply elem_of_app. right. apply elem_of_app. left.
      apply list_elem_of_omap. exists (HExt n). split; [done|].
      by rewrite decide_True.
    + intros acts rs2 Hacts Hn2.
      apply (hands_off_pending _ _ _ _ Hacts) in Hn2. congruence.
  - intros n s i w2 rs2 acts Hn Hi Hacts Hk.
    by apply (settle_fires_removal rm ctx n s i w2 rs2 acts).
  - intros a vs' acts vals' Hret Hviews Hacts Hempty Hall.
    destruct (update new_models create_view remove_view context w)
      as [w1' res] eqn:Hup. simpl in Hret. subst res. subst w1. simpl in *.
    destruct (update_watching _ _ _ _ _ _ _ _ _ Hms Hvs Htidy Hup)
      as (vs0&Hviews0&Hwatch).
    rewrite Hviews in Hviews0. injection Hviews0 as <-.
    apply (watching_run _ _ acts _ Hacts) in Hwatch.
    by eapply watching_drained_fulfilled.
Qed.

(** ** Total removal *)


(** ** Calls between [remove()] and its callback *)

(** X9.  [dispose()] does not call off a [remove()] that has been called.
    Let [remove()] be called on a list with views [vs], made by whatever
    calls and with whatever else under way, and [dispose()] right after
    it.  When the callback of [remove()] is the next microtask, every
    handle of [vs] is fulfilled, and that microtask calls the removal
    hook stored at construction on the views, in order, as if the list
    had not been disposed of; when no call throws it assigns empty arrays
    to [views] and [_models], which [dispose()] had set to [null].  Once
    every handle of [vs] is fulfilled and the microtask queue is empty,
    the callback has run. *)
Theorem remove_outlives_dispose
    this create_view0 remove_view0 context0 calls vs acts :
  let w := run_calls (fresh this create_view0 remove_view0 context0) calls in
  views (vl w) = Some vs → hands_off acts = true →
  let f := _remove_view (vl w) in
  let ctx := _handler_context (vl w) in
  let d := (remove w).2 in
  let w' := run (dispose (remove w).1) acts in
  views (vl (dispose (remove w).1)) = None ∧
  (∀ vals q, queue w' = JRemoveAll d (AFul vals) :: q →
     dones w' !! d = Some DPending ∧
     Forall2 (λ h v, status w' h = Some (SFul v)) vs vals ∧
     log (tick w') = log w' ++ (removal_trace f ctx vals (log w')).1 ∧
     match (removal_trace f ctx vals (log w')).2 with
     | None =>
         log (tick w') = log w' ++ concat (call_events f ctx <$> vals) ∧
         views (vl (tick w')) = Some [] ∧ _models (vl (tick w')) = Some [] ∧
         dones (tick w') !! d = Some DFulfilled
     | Some e =>
         vl (tick w') = vl w' ∧ dones (tick w') !! d = Some (DRejected e)
     end) ∧
  (∀ vals, Forall2 (λ h v, status w' h = Some (SFul v)) vs vals →
     queue w' = [] → settled_by f ctx d vals w').
Proof.
  intros w Hvs Hacts f ctx d w'. split; [done|].
  destruct (reached this create_view0 remove_view0 context0 calls)
    as (_&Htidy&Hknown). fold w in Htidy, Hknown.
  pose proof (remove_awaiting w vs Hvs Hknown) as Haw.
  pose proof (remove_watching w vs Hvs Htidy) as Hwatch.
  apply awaiting_dispose in Haw; [|apply remove_pending].
  assert (watching (next w) vs (dispose (remove w).1)) as Hwatch'.
  { apply (watching_frame _ _ (remove w).1); try done.
    intros g Hg. by exists g. }
  apply (awaiting_run _ _ _ _ acts _ Hacts) in Haw.
  apply (watching_run _ _ acts _ Hacts) in Hwatch'.
  fold f ctx d w' in Haw. fold w' in Hwatch'. split.
  - intros vals q Hq.
    destruct (awaiting_callback _ _ _ _ _ _ _ _ Haw Hwatch' Hq)
      as (?&_&?&?&?).
    by repeat split.
  - intros vals Hall Hq. by eapply awaiting_done.
Qed.

(** X13.  [remove()] undoes an [update] made before its callback has
    run.  Let [remove()] be called on a list with views [vs], made by
    whatever calls and with whatever else under way, and [update] right
    after it, with whatever models.  The promise of [remove()] is pending
    when [update] returns or throws.  When the callback of [remove()] is
    the next microtask, every handle of [vs] is fulfilled, and that
    microtask calls the removal hook stored at construction on the views
    of [vs], in order, and, when no call throws, assigns empty arrays to
    [views] and [_models], whatever [update] had put there.  Once every
    handle of [vs] is fulfilled and the microtask queue is empty, the
    callback has run: [views] and [_models] are empty, or a call of the
    removal hook threw. *)
Theorem remove_undoes_an_update_made_meanwhile
    this create_view0 remove_view0 context0 calls
    new_models create_view remove_view context vs acts :
  let w := run_calls (fresh this create_view0 remove_view0 context0) calls in
  views (vl w) = Some vs → hands_off acts = true →
  let f := _remove_view (vl w) in
  let ctx := _handler_context (vl w) in
  let d := (remove w).2 in
  let w2 := (update new_models create_view remove_view context
               (remove w).1).1 in
  let w' := run w2 acts in
  dones w2 !! d = Some DPending ∧
  (∀ vals q, queue w' = JRemoveAll d (AFul vals) :: q →
     dones w' !! d = Some DPending ∧
     Forall2 (λ h v, status w' h = Some (SFul v)) vs vals ∧
     log (tick w') = log w' ++ (removal_trace f ctx vals (log w')).1 ∧
     match (removal_trace f ctx vals (log w')).2 with
     | None =>
         log (tick w') = log w' ++ concat (call_events f ctx <$> vals) ∧
         views (vl (tick w')) = Some [] ∧ _models (vl (tick w')) = Some [] ∧
         dones (tick w') !! d = Some DFulfilled
     | Some e =>
         vl (tick w') = vl w' ∧ dones (tick w') !! d = Some (DRejected e)
     end) ∧
  (∀ vals, Forall2 (λ h v, status w' h = Some (SFul v)) vs vals →
     queue w' = [] →
     (dones w' !! d = Some DFulfilled ∧
      views (vl w') = Some [] ∧ _models (vl w') = Some []) ∨
     (∃ e hist, (removal_trace f ctx vals hist).2 = Some e ∧
                dones w' !! d = Some (DRejected e))).
Proof.
  intros w Hvs Hacts f ctx d w2 w'.
  destruct (reached this create_view0 remove_view0 context0 calls)
    as (Hwhole&Htidy&Hknown). fold w in Hwhole, Htidy, Hknown.
  pose proof (remove_awaiting w vs Hvs Hknown) as Haw.
  pose proof (remove_watching w vs Hvs Htidy) as Hwatch.
  pose proof (remove_pending w) as Hd. fold d in Hd, Haw.
  destruct (remove_vl_log w) as [Hvl1 _].
  destruct (remove_ids w) as [_ Hnext1].
  set (w1 := (remove w).1) in *.
  assert (whole (vl w1)) as Hwhole1 by (by rewrite Hvl1).
  destruct Hwhole as [(ms&vs0&Hms&Hvs0)|[_ Hnone]]; [|congruence].
  assert (_models (vl w1) = Some ms) as Hms1 by (by rewrite Hvl1).
  assert (views (vl w1) = Some vs) as Hvs1 by (by rewrite Hvl1).
  assert (first_divergence new_models (_models (vl w1))
          = Returned (common_prefix new_models ms)) as Hp
    by (by rewrite Hms1, first_divergence_common_prefix).
  destruct (update_fields_at new_models create_view remove_view context
              w1 _ vs Hp Hvs1) as (_&_&_&_&_&_&_&Hdones).
  fold w2 in Hdones.
  split; [by rewrite Hdones|].
  apply (awaiting_update _ _ _ _ new_models create_view remove_view context)
    in Haw; [|done|lia|done].
  apply (watching_update _ _ new_models create_view remove_view context
           _ ms vs) in Hwatch; [|done|done|lia].
  fold w2 in Haw, Hwatch.
  apply (awaiting_run _ _ _ _ acts _ Hacts) in Haw.
  apply (watching_run _ _ acts _ Hacts) in Hwatch.
  fold w' in Haw, Hwatch. split.
  - intros vals q Hq.
    destruct (awaiting_callback _ _ _ _ _ _ _ _ Haw Hwatch Hq)
      as (?&_&?&?&?).
    by repeat split.
  - intros vals Hall Hq. by apply (awaiting_done _ _ _ _ _ _ _ Haw Hwatch).
Qed.

(** ** Failures of the creation hook *)

(** When a creation call throws, [views] holds the handles that stay and
    the promises of the creation calls before it, and no more. *)
Lemma update_threw_views new_models create_view remove_view context w ms vs w' e :
  _models (vl w) = Some ms → views (vl w) = Some vs →
  update new_models create_view remove_view context w = (w', Threw e) →
  let p := common_prefix new_models ms in
  let create := js_or create_view (_create_view (vl w)) in
  let ctx := js_or context (_handler_context (vl w)) in
  ∃ evs k m,
    log w' = log w ++ evs ∧ new_models !! (p + k) = Some m ∧
    create_hook (log w ++ take k evs) create ctx m (p + k) = CThrow e ∧
    evs !! k = Some (EvCreate create ctx m (p + k) None) ∧
    length evs = S k ∧
    views (vl w') = Some (take p vs ++ created_handles evs) ∧
    length (created_handles evs) = k.
Proof.
  intros Hms Hvs Hup p create ctx.
  rewrite (update_unfold _ _ _ _ _ _ _ Hms Hvs) in Hup. cbv zeta in Hup.
  fold p create ctx in Hup. revert Hup.
  set (w2 := foldl _ _ _).
  destruct (foldl_subscribe_only_promises
    (OnRemove (remove_or remove_view (vl w)) ctx)
    (drop p vs) (set_views (Some (take p vs)) w)) as (Hvl&_&_&_&Hlog).
  fold w2 in Hvl, Hlog. simpl in Hvl, Hlog.
  destruct (create_from _ _ _ _ w2) as [w3 [e'|]] eqn:Hcr.
  - intros [= <- <-].
    apply create_from_spec in Hcr
      as (evs&Hlog3&Hviews3&_&_&_&_&_&_&_&_&_&_&k&m&Hm&Hlen&Hev&Hthrow&Hcr).
    rewrite Hlog in Hlog3, Hthrow. rewrite lookup_drop in Hm.
    rewrite Hvl in Hviews3. simpl in Hviews3.
    by exists evs, k, m.
  - destruct (promise_all _ _). done.
Qed.

(** C7, as the code has it.  When [update] returns, the handle it has
    stored for a model whose creation call returned a promise carries
    what that promise is rejected with.  On a list made by whatever
    calls, the promise [update] returns is rejected only with what a
    handle in [views] is rejected with, and it is rejected once a handle
    is rejected and the microtask queue is empty.  The same holds for the
    promise returned by [remove()], whatever else is under way: it is
    rejected, with what a handle is rejected with, once a handle is
    rejected and the queue is empty, and the microtask that rejects it
    calls no hook and leaves [views] and [_models] as they are.  A
    creation call that throws instead makes [update] throw the same
    thing: [views] holds the handles that stay and the promises made by
    the creation calls before the one that threw, and none for the model
    of that call or a later one; no promise is returned, no aggregate is
    made, and [_models] stays as it was. *)
Theorem creation_failures_pass_through :
  (∀ new_models create_view remove_view context w ms vs w' a,
     _models (vl w) = Some ms → views (vl w) = Some vs →
     update new_models create_view remove_view context w = (w', Returned a) →
     let p := common_prefix new_models ms in
     ∃ evs created,
       log w' = log w ++ evs ∧ views (vl w') = Some (take p vs ++ created) ∧
       ∀ k m n, new_models !! (p + k) = Some m →
         create_hook (log w ++ take k evs)
           (js_or create_view (_create_view (vl w)))
           (js_or context (_handler_context (vl w))) m (p + k) = CPromise n →
         ∃ h, created !! k = Some h ∧
              ∀ w2 e, ext_state w2 n = Settled (SRej e) →
                      status w2 h = Some (SRej e)) ∧
  (∀ this create_view0 remove_view0 context0 calls
     new_models create_view remove_view context ms vs w' a vs' acts,
     let w := run_calls (fresh this create_view0 remove_view0 context0)
                calls in
     _models (vl w) = Some ms → views (vl w) = Some vs →
     update new_models create_view remove_view context w = (w', Returned a) →
     views (vl w') = Some vs' → hands_off acts = true →
     (∀ g e, alls (run w' acts) !! a = Some g → a_status g = ARejected e →
        ∃ h, h ∈ vs' ∧ status (run w' acts) h = Some (SRej e)) ∧
     (∀ h e, h ∈ vs' → status (run w' acts) h = Some (SRej e) →
        queue (run w' acts) = [] →
        ∃ g e', alls (run w' acts) !! a = Some g ∧
                a_status g = ARejected e' ∧
                ∃ h', h' ∈ vs' ∧ status (run w' acts) h' = Some (SRej e'))) ∧
  (∀ this create_view0 remove_view0 context0 calls vs acts,
     let w := run_calls (fresh this create_view0 remove_view0 context0)
                calls in
     views (vl w) = Some vs → hands_off acts = true →
     let d := (remove w).2 in
     let w' := run (remove w).1 acts in
     (∀ h e, h ∈ vs → status w' h = Some (SRej e) → queue w' = [] →
        ∃ e', dones w' !! d = Some (DRejected e') ∧
              ∃ h', h' ∈ vs ∧ status w' h' = Some (SRej e')) ∧
     (∀ e q, queue w' = JRemoveAll d (ARej e) :: q →
        dones w' !! d = Some DPending ∧
        (∃ h, h ∈ vs ∧ status w' h = Some (SRej e)) ∧
        log (tick w') = log w' ∧ vl (tick w') = vl w' ∧
        dones (tick w') !! d = Some (DRejected e))) ∧
  (∀ new_models create_view remove_view context w ms vs w' e,
     _models (vl w) = Some ms → views (vl w) = Some vs →
     update new_models create_view remove_view context w = (w', Threw e) →
     let p := common_prefix new_models ms in
     ∃ evs k m,
       log w' = log w ++ evs ∧ new_models !! (p + k) = Some m ∧
       create_hook (log w ++ take k evs)
         (js_or create_view (_create_view (vl w)))
         (js_or context (_handler_context (vl w))) m (p + k) = CThrow e ∧
       views (vl w') = Some (take p vs ++ created_handles evs) ∧
       length (created_handles evs) = k ∧
       _models (vl w') = Some ms ∧ alls w' = alls w).
Proof.
  split; [|split; [|split]].
  - intros new_models create_view remove_view context w ms vs w' a
      Hms Hvs Hup p.
    destruct (update_returned _ _ _ _ _ _ _ _ _ Hms Hvs Hup)
      as (evs&Hlog&Hviews&_&_&_&Hev).
    exists evs, (created_handles evs). split; [done|]. split; [done|].
    intros k m n Hm Hcall. destruct (Hev k m Hm) as (h&_&Hh&Hw).
    fold p in Hw. rewrite Hcall in Hw. simpl in Hw. subst h.
    exists (HExt n). split; [done|]. intros w2 e Hn. simpl. by rewrite Hn.
  - intros this create_view0 remove_view0 context0 calls
      new_models create_view remove_view context ms vs w' a vs' acts
      w Hms Hvs Hup Hviews Hacts.
    destruct (reached this create_view0 remove_view0 context0 calls)
      as (_&Htidy&_). fold w in Htidy.
    destruct (update_watching _ _ _ _ _ _ _ _ _ Hms Hvs Htidy Hup)
      as (vs0&Hviews0&Hwatch).
    rewrite Hviews in Hviews0. injection Hviews0 as <-.
    apply (watching_run _ _ acts _ Hacts) in Hwatch. split.
    + intros g e Hg He. by eapply watching_rejected.
    + intros h e Hh Hs Hq. by eapply watching_drained_rejected.
  - intros this create_view0 remove_view0 context0 calls vs acts
      w Hvs Hacts d w'.
    destruct (reached this create_view0 remove_view0 context0 calls)
      as (_&Htidy&Hknown). fold w in Htidy, Hknown.
    pose proof (remove_awaiting w vs Hvs Hknown) as Haw.
    pose proof (remove_watching w vs Hvs Htidy) as Hwatch.
    apply (awaiting_run _ _ _ _ acts _ Hacts) in Haw.
    apply (watching_run _ _ acts _ Hacts) in Hwatch.
    fold d w' in Haw. fold w' in Hwatch. split.
    + intros h e Hh Hs Hq. by eapply awaiting_failed.
    + intros e q Hq.
      destruct (awaiting_callback _ _ _ _ _ _ _ _ Haw Hwatch Hq)
        as (?&_&?&?&?&?).
      by repeat split.
  - intros new_models create_view remove_view context w ms vs w' e
      Hms Hvs Hup p.
    destruct (update_threw_views _ _ _ _ _ _ _ _ _ Hms Hvs Hup)
      as (evs&k&m&?&?&?&_&_&?&?).
    destruct (update_threw_models _ _ _ _ _ _ _ _ _ Hms Hvs Hup) as [? ?].
    by exists evs, k, m.
Qed.

(** ** Defaults, and what [update] calls *)

(** C9.  [initialize] stores the creation hook it is given, the context
    it is given or, when that is falsy, the instance itself, and the
    removal hook it is given or, when that is falsy, the default one,
    whose call on a view calls [remove()] of that view.  [update] calls
    the creation hook it is given or, when that is falsy, the stored one,
    with the context it is given or, when that is falsy, the stored one
    as receiver, and it queues and subscribes the removals of the handles
    it detaches with the removal hook it is given or, when that is falsy,
    the stored one, and that same receiver; each of the three falls back
    on its own.  Any falsy argument is as good as [undefined], and
    [update] leaves the stored hooks and context as they are. *)
Theorem falsy_arguments_fall_back :
  (∀ this c r ctx,
     _create_view (initialize this c r ctx) = c ∧
     _handler_context (initialize this c r ctx)
     = (if truthy ctx then ctx else JRef this) ∧
     _remove_view (initialize this c r ctx)
     = (if truthy r then UserRemove r else DefaultRemove)) ∧
  (∀ ctx v w,
     log (run_job (JReact (OnRemove DefaultRemove ctx) (SFul v)) w)
     = log w ++ [EvRemove DefaultRemove ctx v; EvViewRemove v]) ∧
  (∀ new_models c r ctx w ms vs,
     _models (vl w) = Some ms → views (vl w) = Some vs →
     let create := if truthy c then c else _create_view (vl w) in
     let rm := if truthy r then UserRemove r else _remove_view (vl w) in
     let cx := if truthy ctx then ctx else _handler_context (vl w) in
     let p := common_prefix new_models ms in
     let w1 := (update new_models c r ctx w).1 in
     (∃ js, queue w1 = queue w
                       ++ omap (λ h, JReact (OnRemove rm cx) <$> status w h)
                            (drop p vs)
                       ++ js ∧
            Forall is_all_job js) ∧
     (∀ n, match ext_state w n with
           | Pending rs =>
               ∃ rs', ext_state w1 n
                      = Pending (rs ++ omap (λ h, if decide (h = HExt n)
                                                  then Some (OnRemove rm cx)
                                                  else None) (drop p vs)
                                    ++ rs') ∧
                      Forall is_all_reaction rs'
           | Settled s => ext_state w1 n = Settled s
           end) ∧
     (∀ a, (update new_models c r ctx w).2 = Returned a →
        ∃ evs, log w1 = log w ++ evs ∧
          length evs = length new_models - p ∧
          ∀ k m, new_models !! (p + k) = Some m →
            ∃ h, evs !! k = Some (EvCreate create cx m (p + k) (Some h))) ∧
     (∀ e, (update new_models c r ctx w).2 = Threw e →
        ∃ evs k m, log w1 = log w ++ evs ∧
          new_models !! (p + k) = Some m ∧
          evs !! k = Some (EvCreate create cx m (p + k) None) ∧
          create_hook (log w ++ take k evs) create cx m (p + k) = CThrow e)) ∧
  (∀ new_models c r ctx w,
     update new_models c r ctx w
     = update new_models
         (if truthy c then c else JUndefined)
         (if truthy r then r else JUndefined)
         (if truthy ctx then ctx else JUndefined) w) ∧
  (∀ new_models c r ctx w,
     let l' := vl (fst (update new_models c r ctx w)) in
     _handler_context l' = _handler_context (vl w) ∧
     _create_view l' = _create_view (vl w) ∧
     _remove_view l' = _remove_view (vl w)).
Proof.
  split; [|split; [|split; [|split]]].
  - intros this c r ctx. by repeat split.
  - intros ctx v w. simpl. by rewrite <- app_assoc.
  - intros new_models c r ctx w ms vs Hms Hvs create rm cx p w1.
    destruct (update_promises new_models c r ctx w ms vs Hms Hvs)
      as (_&Hq&Hext&_).
    split; [done|]. split; [done|]. split.
    + intros a Ha.
      destruct (update new_models c r ctx w) as [w1' res] eqn:Hup.
      simpl in Ha. subst res. subst w1. simpl.
      destruct (update_returned _ _ _ _ _ _ _ _ _ Hms Hvs Hup)
        as (evs&Hlog&_&_&Hlen&_&Hev).
      exists evs. split; [done|]. split; [done|].
      intros k m Hm. destruct (Hev k m Hm) as (h&?&_). by exists h.
    + intros e He.
      destruct (update new_models c r ctx w) as [w1' res] eqn:Hup.
      simpl in He. subst res. subst w1. simpl.
      destruct (update_threw_views _ _ _ _ _ _ _ _ _ Hms Hvs Hup)
        as (evs&k&m&?&?&?&?&_).
      by exists evs, k, m.
  - intros new_models c r ctx w.
    assert (∀ x y, js_or (if truthy x then x else JUndefined) y = js_or x y)
      as Hor.
    { intros x y. unfold js_or. destruct (truthy x) eqn:E; [by rewrite E|done]. }
    assert (∀ x l, remove_or (if truthy x then x else JUndefined) l
                   = remove_or x l) as Hrm.
    { intros x l. unfold remove_or.
      destruct (truthy x) eqn:E; [by rewrite E|done]. }
    unfold update. by rewrite !Hor, Hrm.
  - intros new_models c r ctx w.
    destruct (update_keeps_defaults new_models c r ctx w) as (_&?&?&?).
    by repeat split.
Qed.

End Hooks.

(** * The properties on concrete runs *)

(** [update([a, b, c])] then [update([a, b, d])]: the divergence point is
    2 and the handle of [b] stays. *)
Lemma update_divergence_and_prefix_witness :
  let w := (update sample_create [JRef 1; JRef 2; JRef 3]
              JUndefined JUndefined JUndefined sample_list).1 in
  let w' := (update sample_create [JRef 1; JRef 2; JRef 4]
               JUndefined JUndefined JUndefined w).1 in
  _models (vl w) = Some [JRef 1; JRef 2; JRef 3] ∧
  views (vl w) = Some [HExt 1; HExt 2; HExt 3] ∧
  first_divergence [JRef 1; JRef 2; JRef 4] (_models (vl w)) = Returned 2 ∧
  ∃ vs', views (vl w') = Some vs' ∧ vs' !! 1 = Some (HExt 2).
Proof.
  intros w w'.
  assert (_models (vl w) = Some [JRef 1; JRef 2; JRef 3]) as Hms
    by reflexivity.
  assert (views (vl w) = Some [HExt 1; HExt 2; HExt 3]) as Hvs
    by reflexivity.
  destruct (update_divergence_and_prefix sample_create
              [JRef 1; JRef 2; JRef 4] JUndefined JUndefined JUndefined
              w _ _ Hms Hvs) as (Hp&_&_&_&_&Hkeep).
  split; [exact Hms|]. split; [exact Hvs|]. split; [exact Hp|].
  apply (Hkeep 1 (HExt 2)); [simpl; lia|reflexivity].
Defined.

(** C2 fails as stated.  [update([a, b])] makes the pending handles
    [HExt 1] and [HExt 2]; [update([])] detaches them, in this order.  The
    second one is then fulfilled first: the removal hook is called on its
    view first, and on the view of the first handle afterwards. *)
Lemma removals_out_of_list_order :
  let w1 := run sample_create sample_remove sample_view_remove sample_list
              [AUpdate [JRef 1; JRef 2] JUndefined JUndefined JUndefined] in
  let w := run sample_create sample_remove sample_view_remove w1
             [AUpdate [] JUndefined JUndefined JUndefined;
              ASettle 2 (SFul (JStr "second")); ATick; ATick;
              ASettle 1 (SFul (JStr "first")); ATick; ATick] in
  views (vl w1) = Some [HExt 1; HExt 2] ∧
  status w (HExt 1) = Some (SFul (JStr "first")) ∧
  status w (HExt 2) = Some (SFul (JStr "second")) ∧
  log w = log w1 ++
          [EvRemove (UserRemove (JRef 200)) (JRef 0) (JStr "second");
           EvRemove (UserRemove (JRef 200)) (JRef 0) (JStr "first")].
Proof. vm_compute. by repeat split. Qed.

(** C3 fails as stated.  [update([a])], then [update(["b"])] whose
    creation call throws after the view of [a] has been detached, then
    [update([a])], which returns: one model, no view. *)
Lemma alignment_lost_after_a_throwing_creation :
  let w2 := run sample_create sample_remove sample_view_remove sample_list
              [AUpdate [JRef 1] JUndefined JUndefined JUndefined;
               AUpdate [JStr "b"] JUndefined JUndefined JUndefined] in
  let w := (update sample_create [JRef 1]
              JUndefined JUndefined JUndefined w2).1 in
  (update sample_create [JRef 1] JUndefined JUndefined JUndefined w2).2
  = Returned 1 ∧
  _models (vl w) = Some [JRef 1] ∧ views (vl w) = Some [] ∧
  ¬ aligned (vl w) (log w).
Proof.
  intros w2 w. split; [reflexivity|]. split; [reflexivity|].
  split; [reflexivity|].
  intros (ms&vs&Hms&Hvs&Hlen&_).
  assert (_models (vl w) = Some [JRef 1]) as Hms' by reflexivity.
  assert (views (vl w) = Some []) as Hvs' by reflexivity.
  rewrite Hms' in Hms. rewrite Hvs' in Hvs.
  injection Hms as <-. injection Hvs as <-. discriminate Hlen.
Qed.

(** A run in which every [update] returns. *)
Lemma models_and_views_stay_aligned_witness :
  let acts := [AUpdate [JRef 1; JNum 5] JUndefined JUndefined JUndefined;
               ATick; ARemove; ASettle 1 (SFul (JStr "first"));
               ATick; ATick; ATick;
               AUpdate [JNum 7] JUndefined JUndefined JUndefined] in
  let w := run sample_create sample_remove sample_view_remove sample_list acts in
  completes sample_create sample_remove sample_view_remove sample_list acts
  = true ∧
  aligned (vl w) (log w).
Proof.
  intros acts w.
  assert (completes sample_create sample_remove sample_view_remove
            (fresh 0 (JRef 100) (JRef 200) JUndefined) acts = true) as Hc
    by (vm_compute; reflexivity).
  split; [exact Hc|].
  exact (models_and_views_stay_aligned sample_create sample_remove
           sample_view_remove 0 (JRef 100) (JRef 200) JUndefined acts Hc 8).
Defined.


(** C6 fails as stated.  The creation call for the first of two models
    throws: no call is made for the second and [_models] stays empty. *)
Lemma update_aborts_when_creation_throws :
  let r := update sample_create [JStr "a"; JRef 2]
             JUndefined JUndefined JUndefined sample_list in
  r.2 = Threw (Raised (JStr "a")) ∧
  log r.1 = [EvCreate (JRef 100) (JRef 0) (JStr "a") 0 None] ∧
  views (vl r.1) = Some [] ∧
  _models (vl r.1) = Some [] ∧
  _models (vl r.1) ≠ Some [JStr "a"; JRef 2].
Proof. vm_compute. by repeat split. Qed.

(** Two creations, one of a promise and one of a plain value. *)
Lemma update_creates_in_ascending_order_witness :
  let r := update sample_create [JRef 1; JNum 5]
             JUndefined JUndefined JUndefined sample_list in
  _models (vl sample_list) = Some [] ∧ views (vl sample_list) = Some [] ∧
  r = (r.1, Returned 1) ∧
  ∃ evs created,
    log r.1 = log sample_list ++ evs ∧ length evs = 2 ∧ length created = 2 ∧
    views (vl r.1) = Some created ∧ _models (vl r.1) = Some [JRef 1; JNum 5].
Proof.
  intros r.
  assert (r = (r.1, Returned 1)) as Hup by reflexivity.
  destruct (update_creates_in_ascending_order sample_create
              [JRef 1; JNum 5] JUndefined JUndefined JUndefined
              sample_list [] [] r.1 1 eq_refl eq_refl Hup)
    as (evs&created&Hlog&Hlen&Hlen'&Hviews&Hmodels&_).
  split; [reflexivity|]. split; [reflexivity|]. split; [exact Hup|].
  exists evs, created. by repeat split.
Defined.

(** The view was created by an [update] that was given the removal hook
    [JRef 300] and the context [JRef 7]; the [update] that detaches it is
    given the hook [JRef 400] and the context [JRef 9]. *)
Lemma removals_use_the_hooks_of_the_call_witness :
  let w := run sample_create sample_remove sample_view_remove sample_list
             [ASettle 1 (SFul (JStr "first"));
              AUpdate [JRef 1] JUndefined (JRef 300) (JRef 7); ATick] in
  let w1 := (update sample_create [] JUndefined (JRef 400) (JRef 9) w).1 in
  _models (vl w) = Some [JRef 1] ∧ views (vl w) = Some [HExt 1] ∧
  calm w = true ∧
  log (ticks sample_remove sample_view_remove 1 w1)
  = log w1 ++ [EvRemove (UserRemove (JRef 400)) (JRef 9) (JStr "first")].
Proof.
  intros w w1.
  assert (_models (vl w) = Some [JRef 1]) as Hms by reflexivity.
  assert (views (vl w) = Some [HExt 1]) as Hvs by reflexivity.
  assert (calm w = true) as Hcalm by (vm_compute; reflexivity).
  destruct (removals_use_the_hooks_of_the_call sample_create sample_remove
              sample_view_remove [] JUndefined (JRef 400) (JRef 9)
              w _ _ Hms Hvs) as (_&_&_&_&_&Hlist).
  split; [exact Hms|]. split; [exact Hvs|]. split; [exact Hcalm|].
  exact (Hlist Hcalm).
Defined.

(** [remove()] on a new list that has been disposed of: one microtask,
    and the promise is rejected. *)
Lemma remove_after_dispose_rejects_witness :
  let d := (remove (dispose sample_list)).2 in
  let w1 := (remove (dispose sample_list)).1 in
  queue w1 = [JRemoveAll d (ARej TypeError)] ∧
  dones (tick sample_remove sample_view_remove w1) !! d
  = Some (DRejected TypeError) ∧
  log (tick sample_remove sample_view_remove w1) = [] ∧
  views (vl (tick sample_remove sample_view_remove w1)) = None.
Proof.
  intros d w1.
  assert (queue w1 = [JRemoveAll d (ARej TypeError)]) as Hq by reflexivity.
  destruct (remove_after_dispose_rejects sample_remove sample_view_remove
              sample_list) as (_&_&_&_&Hrun).
  destruct (Hrun [] w1 Hq) as (Hd&Hlog&Hvl&_).
  split; [exact Hq|]. split; [exact Hd|].
  split; [exact Hlog|]. by rewrite Hvl.
Defined.

(** [update([a, b, c])] then [update([a, x, c])]: the view of [c] is
    detached and [c] gets a new one. *)
Lemma update_recreates_from_first_change_witness :
  let w := (update sample_create [JRef 1; JRef 2; JRef 3]
              JUndefined JUndefined JUndefined sample_list).1 in
  let r := update sample_create [JRef 1; JRef 9; JRef 3]
             JUndefined JUndefined JUndefined w in
  _models (vl w) = Some [JRef 1; JRef 2; JRef 3] ∧
  views (vl w) = Some [HExt 1; HExt 2; HExt 3] ∧
  (∃ n rs, HExt 3 = HExt n ∧ ext_state r.1 n = Pending rs ∧
           OnRemove (UserRemove (JRef 200)) (JRef 0) ∈ rs) ∧
  ∃ evs h, log r.1 = log w ++ evs ∧
           EvCreate (JRef 100) (JRef 0) (JRef 3) 2 (Some h) ∈ evs.
Proof.
  intros w r.
  assert (_models (vl w) = Some [JRef 1; JRef 2; JRef 3]) as Hms
    by reflexivity.
  assert (views (vl w) = Some [HExt 1; HExt 2; HExt 3]) as Hvs
    by reflexivity.
  assert (∀ y, [JRef 1; JRef 2; JRef 3] !! 1 = Some y →
               strict_eq (JRef 9) y = false) as Hne
    by (intros y [= <-]; reflexivity).
  destruct (update_recreates_from_first_change sample_create
              [JRef 1; JRef 9; JRef 3] JUndefined JUndefined JUndefined
              w _ _ 1 (JRef 9) Hms Hvs eq_refl Hne) as [Hrem Hcre].
  split; [exact Hms|]. split; [exact Hvs|]. split.
  - apply (Hrem 2 (HExt 3)); [lia|reflexivity].
  - destruct (Hcre 1 eq_refl) as (evs&Hlog&Hev).
    destruct (Hev 2 (JRef 3)) as [h Hh]; [lia|reflexivity|].
    by exists evs, h.
Defined.

(** [update([1, NaN])] twice: the second call makes a creation call for
    [NaN] again. *)
Lemma update_again_is_idle_unless_NaN_witness :
  let w := (update sample_create [JNum 1; JNaN]
              JUndefined JUndefined JUndefined sample_list).1 in
  let w' := (update sample_create [JNum 1; JNaN]
               JUndefined JUndefined JUndefined w).1 in
  _models (vl w) = Some [JNum 1; JNaN] ∧
  views (vl w) = Some [HNow 0 (JNum 1); HNow 1 JNaN] ∧
  log w' ≠ log w.
Proof.
  intros w w'.
  assert (_models (vl w) = Some [JNum 1; JNaN]) as Hms by reflexivity.
  assert (views (vl w) = Some [HNow 0 (JNum 1); HNow 1 JNaN]) as Hvs
    by reflexivity.
  pose proof (update_again_is_idle_unless_NaN sample_create
                JUndefined JUndefined JUndefined w _ _ Hms Hvs) as [Hidle _].
  split; [exact Hms|]. split; [exact Hvs|].
  intros Heq. apply (Hidle Heq).
  apply elem_of_cons. right. apply elem_of_cons. by left.
Defined.

(** [update([a, b])], the promise of [a] being fulfilled, then
    [update([])]. *)
Lemma update_with_no_models_detaches_all_witness :
  let w := run sample_create sample_remove sample_view_remove sample_list
             [ASettle 1 (SFul (JStr "first"));
              AUpdate [JRef 1; JRef 2] JUndefined JUndefined JUndefined;
              ATick] in
  views (vl w) = Some [HExt 1; HExt 2] ∧
  ∃ w' a,
    update sample_create [] JUndefined JUndefined JUndefined w
    = (w', Returned a) ∧
    views (vl w') = Some [] ∧ _models (vl w') = Some [] ∧ log w' = log w ∧
    queue w' = [JReact (OnRemove (UserRemove (JRef 200)) (JRef 0))
                  (SFul (JStr "first"))].
Proof.
  intros w.
  assert (views (vl w) = Some [HExt 1; HExt 2]) as Hvs by reflexivity.
  destruct (update_with_no_models_detaches_all sample_create
              JUndefined JUndefined JUndefined w _ Hvs)
    as (w'&a&Hup&Hviews&Hmodels&Hlog&_&Hq&_).
  split; [exact Hvs|]. exists w', a.
  split; [exact Hup|]. split; [exact Hviews|]. split; [exact Hmodels|].
  split; [exact Hlog|exact Hq].
Defined.

(** [update([a, b, c])] then [update([a])]. *)
Lemma update_with_a_prefix_only_detaches_witness :
  let w := (update sample_create [JRef 1; JRef 2; JRef 3]
              JUndefined JUndefined JUndefined sample_list).1 in
  _models (vl w) = Some [JRef 1; JRef 2; JRef 3] ∧
  views (vl w) = Some [HExt 1; HExt 2; HExt 3] ∧
  same_refs [JRef 1] (take 1 [JRef 1; JRef 2; JRef 3]) ∧
  ∃ w' a,
    update sample_create [JRef 1] JUndefined JUndefined JUndefined w
    = (w', Returned a) ∧
    log w' = log w ∧ views (vl w') = Some [HExt 1] ∧
    _models (vl w') = Some [JRef 1].
Proof.
  intros w.
  assert (_models (vl w) = Some [JRef 1; JRef 2; JRef 3]) as Hms
    by reflexivity.
  assert (views (vl w) = Some [HExt 1; HExt 2; HExt 3]) as Hvs
    by reflexivity.
  assert (same_refs [JRef 1] (take 1 [JRef 1; JRef 2; JRef 3])) as Hsame
    by (by repeat constructor).
  split; [exact Hms|]. split; [exact Hvs|]. split; [exact Hsame|].
  exact (update_with_a_prefix_only_detaches sample_create [JRef 1]
           JUndefined JUndefined JUndefined w _ _ Hms Hvs Hsame).
Defined.

(** [update([a])] then [update([a, b])]. *)
Lemma update_with_an_extension_only_creates_witness :
  let w := (update sample_create [JRef 1]
              JUndefined JUndefined JUndefined sample_list).1 in
  let w' := (update sample_create [JRef 1; JRef 2]
               JUndefined JUndefined JUndefined w).1 in
  _models (vl w) = Some [JRef 1] ∧ views (vl w) = Some [HExt 1] ∧
  same_refs (take 1 [JRef 1; JRef 2]) [JRef 1] ∧
  (∃ js, queue w' = queue w ++ js ∧ Forall is_all_job js) ∧
  ∃ evs, log w' = log w ++ evs ∧ Forall is_creation evs ∧
         views (vl w') = Some ([HExt 1] ++ created_handles evs).
Proof.
  intros w w'.
  assert (_models (vl w) = Some [JRef 1]) as Hms by reflexivity.
  assert (views (vl w) = Some [HExt 1]) as Hvs by reflexivity.
  assert (same_refs (take 1 [JRef 1; JRef 2]) [JRef 1]) as Hsame
    by (by repeat constructor).
  destruct (update_with_an_extension_only_creates sample_create
              [JRef 1; JRef 2] JUndefined JUndefined JUndefined
              w _ _ Hms Hvs (le_n 1) Hsame) as (Hq&_&Hev).
  split; [exact Hms|]. split; [exact Hvs|]. split; [exact Hsame|].
  split; [exact Hq|exact Hev].
Defined.

(** [update([a])], then [update([a, 5])]; the promise of [a] is fulfilled
    and the microtasks run. *)
Lemma update_result_lists_the_views_witness :
  let acts0 := [AUpdate [JRef 1] JUndefined JUndefined JUndefined; ATick] in
  let w := run sample_create sample_remove sample_view_remove sample_list
             acts0 in
  let r := update sample_create [JRef 1; JNum 5]
             JUndefined JUndefined JUndefined w in
  let w'' := run sample_create sample_remove sample_view_remove r.1
               [ASettle 1 (SFul (JStr "first")); ATick; ATick; ATick] in
  completes sample_create sample_remove sample_view_remove sample_list acts0
  = true ∧
  r = (r.1, Returned 2) ∧
  views (vl r.1) = Some [HExt 1; HNow 1 (JNum 5)] ∧
  queue w'' = [] ∧
  ∃ g, alls w'' !! 2 = Some g ∧
       a_status g = AFulfilled [JStr "first"; JNum 5].
Proof.
  intros acts0 w r w''.
  assert (completes sample_create sample_remove sample_view_remove
            (fresh 0 (JRef 100) (JRef 200) JUndefined) acts0 = true) as Hc
    by (vm_compute; reflexivity).
  assert (r = (r.1, Returned 2)) as Hup by reflexivity.
  assert (views (vl r.1) = Some [HExt 1; HNow 1 (JNum 5)]) as Hvs
    by reflexivity.
  assert (queue w'' = []) as Hq by reflexivity.
  destruct (update_result_lists_the_views sample_create sample_remove
              sample_view_remove 0 (JRef 100) (JRef 200) JUndefined acts0
              [JRef 1; JNum 5] JUndefined JUndefined JUndefined r.1 2
              [ASettle 1 (SFul (JStr "first")); ATick; ATick; ATick]
              Hc Hup eq_refl) as (vs'&Hvs'&_&_&_&Hdone).
  rewrite Hvs in Hvs'. injection Hvs' as <-.
  split; [exact Hc|]. split; [exact Hup|]. split; [exact Hvs|].
  split; [exact Hq|].
  apply (Hdone [JStr "first"; JNum 5]); [|exact Hq].
  repeat constructor.
Defined.

(** [update([a, b])], the promise of [a] being fulfilled; [update([])]
    and then [dispose()]: the view of [a] is removed all the same. *)
Lemma detached_views_are_removed_after_dispose_witness :
  let w := run sample_create sample_remove sample_view_remove sample_list
             [ASettle 1 (SFul (JStr "first"));
              AUpdate [JRef 1; JRef 2] JUndefined JUndefined JUndefined;
              ATick] in
  let w1 := (update sample_create [] JUndefined JUndefined JUndefined w).1 in
  let w' := ticks sample_remove sample_view_remove 1 (dispose w1) in
  _models (vl w) = Some [JRef 1; JRef 2] ∧
  views (vl w) = Some [HExt 1; HExt 2] ∧ queue w = [] ∧
  log w' = log w1 ++ [EvRemove (UserRemove (JRef 200)) (JRef 0) (JStr "first")] ∧
  views (vl w') = None ∧ _models (vl w') = None.
Proof.
  intros w w1 w'.
  assert (_models (vl w) = Some [JRef 1; JRef 2]) as Hms by reflexivity.
  assert (views (vl w) = Some [HExt 1; HExt 2]) as Hvs by reflexivity.
  assert (queue w = []) as Hq by reflexivity.
  split; [exact Hms|]. split; [exact Hvs|]. split; [exact Hq|].
  exact (detached_views_are_removed_after_dispose sample_create sample_remove
           sample_view_remove [] JUndefined JUndefined JUndefined
           w _ _ Hms Hvs Hq).
Defined.

(** [update([a])], then [update([a, "b"])]: the creation call for ["b"]
    throws. *)
Lemma update_fails_in_two_ways_only_witness :
  let calls := [Act (AUpdate [JRef 1] JUndefined JUndefined JUndefined)] in
  let w := run_calls sample_create sample_remove sample_view_remove
             sample_list calls in
  let r := update sample_create [JRef 1; JStr "b"]
             JUndefined JUndefined JUndefined w in
  r = (r.1, Threw (Raised (JStr "b"))) ∧
  ((views (vl w) = None ∧ Raised (JStr "b") = TypeError ∧ r.1 = w) ∨
   ∃ ms evs k m,
     _models (vl w) = Some ms ∧ log r.1 = log w ++ evs ∧
     [JRef 1; JStr "b"] !! (common_prefix [JRef 1; JStr "b"] ms + k) = Some m ∧
     sample_create (log w ++ take k evs) (JRef 100) (JRef 0) m
       (common_prefix [JRef 1; JStr "b"] ms + k)
     = CThrow (Raised (JStr "b"))).
Proof.
  intros calls w r.
  assert (r = (r.1, Threw (Raised (JStr "b")))) as Hup by reflexivity.
  split; [exact Hup|].
  exact (update_fails_in_two_ways_only sample_create sample_remove
           sample_view_remove 0 (JRef 100) (JRef 200) JUndefined calls
           [JRef 1; JStr "b"] JUndefined JUndefined JUndefined
           r.1 (Raised (JStr "b")) Hup).
Defined.

(** [update([a, b])] is called when the promise of [a] is fulfilled, and
    [update([])] right after it, while a microtask of the first call is
    still queued.  The view of [a] is removed by the second microtask;
    the promise of [b] is pending and keeps its removal among its
    reactions; when it is fulfilled, its view is removed in turn. *)
Lemma removals_follow_resolution_witness :
  let calls := [Act (ASettle 1 (SFul (JStr "first")));
                Act (AUpdate [JRef 1; JRef 2]
                       JUndefined JUndefined JUndefined)] in
  let w := run_calls sample_create sample_remove sample_view_remove
             sample_list calls in
  let w1 := (update sample_create [] JUndefined JUndefined JUndefined w).1 in
  let w2 := run sample_create sample_remove sample_view_remove w1
              [ATick; ATick] in
  let w3 := settle 2 (SFul (JStr "second")) w2 in
  let w4 := run sample_create sample_remove sample_view_remove w3 [ATick] in
  let rm := UserRemove (JRef 200) in
  _models (vl w) = Some [JRef 1; JRef 2] ∧
  views (vl w) = Some [HExt 1; HExt 2] ∧
  queue w = [JReact (OnAllElement 0 0) (SFul (JStr "first"))] ∧
  log w2 = log (run sample_create sample_remove sample_view_remove w1 [ATick])
           ++ [EvRemove rm (JRef 0) (JStr "first")] ∧
  (∃ rs1, ext_state w1 2 = Pending rs1 ∧ OnRemove rm (JRef 0) ∈ rs1) ∧
  ext_state w2 2 = Pending [OnAllElement 0 1; OnRemove rm (JRef 0)] ∧
  log (tick sample_remove sample_view_remove w4)
  = log w4 ++ [EvRemove rm (JRef 0) (JStr "second")].
Proof.
  intros calls w w1 w2 w3 w4 rm.
  assert (_models (vl w) = Some [JRef 1; JRef 2]) as Hms by reflexivity.
  assert (views (vl w) = Some [HExt 1; HExt 2]) as Hvs by reflexivity.
  assert (ext_state w 2 = Pending [OnAllElement 0 1]) as Hn by reflexivity.
  assert (ext_state w2 2 = Pending [OnAllElement 0 1; OnRemove rm (JRef 0)])
    as Hn2 by reflexivity.
  destruct (removals_follow_resolution sample_create sample_remove
              sample_view_remove 0 (JRef 100) (JRef 200) JUndefined calls
              [] JUndefined JUndefined JUndefined _ _ Hms Hvs)
    as (_&_&Hlist&Hsub&Hfire&_).
  split; [exact Hms|]. split; [exact Hvs|]. split; [reflexivity|].
  split; [exact (Hlist [ATick] [ATick] eq_refl eq_refl eq_refl eq_refl)|].
  split.
  - destruct (Hsub 2 [OnAllElement 0 1]) as (rs1&Hrs1&Hin&_).
    + apply elem_of_cons. right. apply elem_of_cons. by left.
    + exact Hn.
    + by exists rs1.
  - split; [exact Hn2|].
    destruct (Hfire 2 (SFul (JStr "second")) 1 w2 _ [ATick] Hn2
                eq_refl eq_refl eq_refl) as (_&_&Hlog).
    exact Hlog.
Defined.


(** C5 fails as stated.  [update([NaN])] twice: the second call makes a
    creation call for [NaN] again, replaces the handle in [views] and
    queues the removal of the view the first call made. *)
Lemma update_twice_recreates_NaN :
  let r1 := update sample_create [JNaN]
              JUndefined JUndefined JUndefined sample_list in
  let r2 := update sample_create [JNaN]
              JUndefined JUndefined JUndefined r1.1 in
  r1.2 = Returned 1 ∧ r2.2 = Returned 3 ∧
  log r2.1 = log r1.1
             ++ [EvCreate (JRef 100) (JRef 0) JNaN 0 (Some (HNow 2 JNaN))] ∧
  views (vl r1.1) = Some [HNow 0 JNaN] ∧
  views (vl r2.1) = Some [HNow 2 JNaN] ∧
  JReact (OnRemove (UserRemove (JRef 200)) (JRef 0)) (SFul JNaN)
  ∈ queue r2.1.
Proof.
  vm_compute. repeat split.
  apply elem_of_cons. right. apply elem_of_cons. by left.
Qed.

(** [update([a, 5])] twice. *)
Lemma update_twice_is_idle_witness :
  let ms := [JRef 1; JNum 5] in
  let w1 := (update sample_create ms JUndefined JUndefined JUndefined
               sample_list).1 in
  let w2 := (update sample_create ms JUndefined JUndefined JUndefined w1).1 in
  update sample_create ms JUndefined JUndefined JUndefined sample_list
  = (w1, Returned 1) ∧
  (JNaN ∉ ms) ∧
  log w2 = log w1 ∧ vl w2 = vl w1.
Proof.
  intros ms w1 w2.
  assert (update sample_create ms JUndefined JUndefined JUndefined sample_list
          = (w1, Returned 1)) as Hup by reflexivity.
  assert (JNaN ∉ ms) as Hnan
    by (apply (bool_decide_eq_false_1 (JNaN ∈ ms)); reflexivity).
  destruct (update_twice_is_idle sample_create ms JUndefined JUndefined
              JUndefined sample_list w1 1 JUndefined JUndefined JUndefined
              (mk_is_Some _ _ eq_refl) (mk_is_Some _ _ eq_refl) Hnan Hup)
    as (_&Hlog&Hvl&_).
  split; [exact Hup|]. split; [exact Hnan|]. split; [exact Hlog|exact Hvl].
Defined.

(** C7 fails as stated.  The creation call throws: [update] throws, no
    handle is stored and no promise is made.  And when the promises of
    two views are rejected, the promise [update] returned is pending
    until a microtask has run, and is then rejected with what the first
    was rejected with, not with what the second was. *)
Lemma creation_failures_that_do_not_pass_through :
  let r := update sample_create [JStr "a"]
             JUndefined JUndefined JUndefined sample_list in
  let r' := update sample_create [JRef 1; JRef 2]
              JUndefined JUndefined JUndefined sample_list in
  let w0 := run sample_create sample_remove sample_view_remove r'.1
              [ASettle 1 (SRej (Raised (JStr "one")));
               ASettle 2 (SRej (Raised (JStr "two")))] in
  let w' := run sample_create sample_remove sample_view_remove w0
              [ATick; ATick] in
  (r.2 = Threw (Raised (JStr "a")) ∧
   views (vl r.1) = Some [] ∧
   alls r.1 = ∅ ∧ next r.1 = 0) ∧
  (r'.2 = Returned 0 ∧ views (vl r'.1) = Some [HExt 1; HExt 2] ∧
   status w0 (HExt 1) = Some (SRej (Raised (JStr "one"))) ∧
   a_status <$> alls w0 !! 0 = Some APending ∧
   queue w' = [] ∧
   status w' (HExt 2) = Some (SRej (Raised (JStr "two"))) ∧
   a_status <$> alls w' !! 0 = Some (ARejected (Raised (JStr "one")))).
Proof. vm_compute. by repeat split. Qed.

(** The promise for the second of two views is rejected; and a creation
    call for the second of two models throws. *)
Lemma creation_failures_pass_through_witness :
  let r := update sample_create [JRef 1; JRef 2]
             JUndefined JUndefined JUndefined sample_list in
  let w' := run sample_create sample_remove sample_view_remove r.1
              [ASettle 2 (SRej (Raised (JStr "no"))); ATick] in
  let t := update sample_create [JRef 1; JStr "b"]
             JUndefined JUndefined JUndefined sample_list in
  r = (r.1, Returned 0) ∧
  views (vl r.1) = Some [HExt 1; HExt 2] ∧
  status w' (HExt 2) = Some (SRej (Raised (JStr "no"))) ∧
  queue w' = [] ∧
  (∃ g e', alls w' !! 0 = Some g ∧ a_status g = ARejected e' ∧
           ∃ h', h' ∈ [HExt 1; HExt 2] ∧ status w' h' = Some (SRej e')) ∧
  t = (t.1, Threw (Raised (JStr "b"))) ∧
  ∃ evs, views (vl t.1) = Some (take 0 [] ++ created_handles evs) ∧
         length (created_handles evs) = 1 ∧ _models (vl t.1) = Some [].
Proof.
  intros r w' t.
  assert (r = (r.1, Returned 0)) as Hup by reflexivity.
  assert (views (vl r.1) = Some [HExt 1; HExt 2]) as Hvs by reflexivity.
  assert (status w' (HExt 2) = Some (SRej (Raised (JStr "no")))) as Hs
    by reflexivity.
  assert (queue w' = []) as Hq by reflexivity.
  assert (t = (t.1, Threw (Raised (JStr "b")))) as Hthrow by reflexivity.
  destruct (creation_failures_pass_through sample_create sample_remove
              sample_view_remove) as (_&Hall&_&Hthrew).
  destruct (Hall 0 (JRef 100) (JRef 200) JUndefined []
              [JRef 1; JRef 2] JUndefined JUndefined JUndefined
              [] [] r.1 0 [HExt 1; HExt 2]
              [ASettle 2 (SRej (Raised (JStr "no"))); ATick]
              eq_refl eq_refl Hup Hvs eq_refl) as [_ Hlive].
  destruct (Hthrew [JRef 1; JStr "b"] JUndefined JUndefined JUndefined
              sample_list [] [] t.1 (Raised (JStr "b")) eq_refl eq_refl Hthrow)
    as (evs&k&m&_&Hm&Hcall&Hviews&Hlen&Hmodels&_).
  split; [exact Hup|]. split; [exact Hvs|].
  split; [exact Hs|]. split; [exact Hq|]. split.
  - apply (Hlive (HExt 2) (Raised (JStr "no"))); [|exact Hs|exact Hq].
    apply elem_of_cons. right. apply elem_of_cons. by left.
  - split; [exact Hthrow|]. exists evs. split; [exact Hviews|].
    split; [|exact Hmodels].
    destruct k as [|[|k]]; [|exact Hlen|discriminate Hm].
    injection Hm as <-. discriminate Hcall.
Defined.

(** A falsy creation hook and a falsy context next to a removal hook:
    [update] creates with the stored hook and the stored context, and
    removes with the hook it is given and the stored context. *)
Lemma falsy_arguments_fall_back_witness :
  let w := run_calls sample_create sample_remove sample_view_remove
             sample_list
             [Act (ASettle 1 (SFul (JStr "first")));
              Act (AUpdate [JRef 1] JUndefined JUndefined JUndefined);
              Act ATick] in
  let r := update sample_create [JNum 5] (JNum 0) (JRef 400) JNull w in
  truthy (JNum 0) = false ∧ truthy JNull = false ∧
  _models (vl w) = Some [JRef 1] ∧ views (vl w) = Some [HExt 1] ∧
  _create_view (vl w) = JRef 100 ∧ _handler_context (vl w) = JRef 0 ∧
  r.2 = Returned 2 ∧
  (∃ js, queue r.1 = queue w
                     ++ [JReact (OnRemove (UserRemove (JRef 400)) (JRef 0))
                           (SFul (JStr "first"))]
                     ++ js) ∧
  ∃ evs h, log r.1 = log w ++ evs ∧ length evs = 1 ∧
           evs !! 0 = Some (EvCreate (JRef 100) (JRef 0) (JNum 5) 0 (Some h)).
Proof.
  intros w r.
  assert (_models (vl w) = Some [JRef 1]) as Hms by reflexivity.
  assert (views (vl w) = Some [HExt 1]) as Hvs by reflexivity.
  destruct (falsy_arguments_fall_back sample_create sample_remove
              sample_view_remove) as (_&_&Hup&_).
  destruct (Hup [JNum 5] (JNum 0) (JRef 400) JNull w _ _ Hms Hvs)
    as ((js&Hq&_)&_&Hret&_).
  destruct (Hret 2 eq_refl) as (evs&Hlog&Hlen&Hev).
  destruct (Hev 0 (JNum 5) eq_refl) as [h Hh].
  split; [reflexivity|]. split; [reflexivity|].
  split; [exact Hms|]. split; [exact Hvs|].
  split; [reflexivity|]. split; [reflexivity|]. split; [reflexivity|].
  split; [exists js; exact Hq|].
  exists evs, h. split; [exact Hlog|]. split; [exact Hlen|exact Hh].
Defined.

(** [remove()] right after [update([1, 2])], then [dispose()], then the
    microtasks: the views are removed and the list is empty, not disposed
    of. *)
Lemma remove_outlives_dispose_witness :
  let calls := [Act (AUpdate [JNum 1; JNum 2]
                       JUndefined JUndefined JUndefined)] in
  let w := run_calls sample_create sample_remove sample_view_remove
             sample_list calls in
  let w' := run sample_create sample_remove sample_view_remove
              (dispose (remove w).1) [ATick; ATick; ATick; ATick] in
  let w'' := tick sample_remove sample_view_remove w' in
  views (vl w) = Some [HNow 0 (JNum 1); HNow 1 (JNum 2)] ∧
  views (vl w') = None ∧
  queue w' = [JRemoveAll (remove w).2 (AFul [JNum 1; JNum 2])] ∧
  log w'' = log w' ++ [EvRemove (UserRemove (JRef 200)) (JRef 0) (JNum 1);
                       EvRemove (UserRemove (JRef 200)) (JRef 0) (JNum 2)] ∧
  views (vl w'') = Some [] ∧ _models (vl w'') = Some [] ∧
  dones w'' !! (remove w).2 = Some DFulfilled.
Proof.
  intros calls w w' w''.
  assert (views (vl w) = Some [HNow 0 (JNum 1); HNow 1 (JNum 2)]) as Hvs
    by reflexivity.
  assert (queue w' = [JRemoveAll (remove w).2 (AFul [JNum 1; JNum 2])]) as Hq
    by reflexivity.
  destruct (remove_outlives_dispose sample_create sample_remove
              sample_view_remove 0 (JRef 100) (JRef 200) JUndefined calls
              _ [ATick; ATick; ATick; ATick] Hvs eq_refl)
    as (_&Hcall&_).
  destruct (Hcall _ _ Hq) as (_&_&_&Hrun).
  split; [exact Hvs|]. split; [reflexivity|]. split; [exact Hq|].
  exact Hrun.
Defined.

(** [remove()] right after [update([1, 2])], then [update([7])], which
    makes a view for [7]; then the microtasks: the list is empty. *)
Lemma remove_undoes_an_update_made_meanwhile_witness :
  let calls := [Act (AUpdate [JNum 1; JNum 2]
                       JUndefined JUndefined JUndefined)] in
  let w := run_calls sample_create sample_remove sample_view_remove
             sample_list calls in
  let w2 := (update sample_create [JNum 7] JUndefined JUndefined JUndefined
               (remove w).1).1 in
  let w' := run sample_create sample_remove sample_view_remove w2
              [ATick; ATick; ATick; ATick; ATick; ATick; ATick] in
  let w'' := tick sample_remove sample_view_remove w' in
  views (vl w) = Some [HNow 0 (JNum 1); HNow 1 (JNum 2)] ∧
  views (vl w2) = Some [HNow 5 (JNum 7)] ∧
  views (vl w') = Some [HNow 5 (JNum 7)] ∧
  queue w' = [JRemoveAll (remove w).2 (AFul [JNum 1; JNum 2])] ∧
  log w'' = log w' ++ [EvRemove (UserRemove (JRef 200)) (JRef 0) (JNum 1);
                       EvRemove (UserRemove (JRef 200)) (JRef 0) (JNum 2)] ∧
  views (vl w'') = Some [] ∧ _models (vl w'') = Some [] ∧
  dones w'' !! (remove w).2 = Some DFulfilled.
Proof.
  intros calls w w2 w' w''.
  assert (views (vl w) = Some [HNow 0 (JNum 1); HNow 1 (JNum 2)]) as Hvs
    by reflexivity.
  assert (queue w' = [JRemoveAll (remove w).2 (AFul [JNum 1; JNum 2])]) as Hq
    by (vm_compute; reflexivity).
  destruct (remove_undoes_an_update_made_meanwhile sample_create
              sample_remove sample_view_remove 0 (JRef 100) (JRef 200)
              JUndefined calls [JNum 7] JUndefined JUndefined JUndefined
              _ [ATick; ATick; ATick; ATick; ATick; ATick; ATick]
              Hvs eq_refl) as (_&Hcall&_).
  destruct (Hcall _ _ Hq) as (_&_&_&Hrun).
  split; [exact Hvs|]. split; [vm_compute; reflexivity|].
  split; [vm_compute; reflexivity|]. split; [exact Hq|].
  exact Hrun.
Defined.
